(** * drift-semantic: the similarity pipeline, embedded in Rocq

    A shallow embedding of the Python package [drift_semantic]
    (tools/drift-semantic/pipeline/src/drift_semantic): sparse-vector and
    set similarities, the four feature stages (fingerprint, typesig,
    callgraph, depcontext), adaptive-weighted pairwise scoring, clustering
    with enrichment, and artifact I/O.

    Conventions of the embedding.
    - A Python [float] is a real number ([R]): arithmetic is exact.  The one
      function whose specification speaks about floating-point tolerance,
      [_get_weights], is written once over a numeric interface and is also
      run on IEEE binary64 ([PrimFloat]).
    - A Python [dict] with string keys is an association list in insertion
      order ([Py.dict]); [d[k] = v] updates in place or appends.  A Python
      dict holds each key once: [Py.wf_dict] states it where a proof needs it.
    - A Python [set] of strings is a list read up to order and repetition;
      [len] of a set is [Py.card], the length after removing duplicates.
    - [hashlib.sha256] over [json.dumps(obj, sort_keys=True)] is a parameter
      of the stages that hash ([Section] variables): only the fact that a hex
      digest is a non-empty string is ever assumed. *)

From Stdlib Require Import Floats Uint63.
From Stdlib Require Import List String Ascii Bool Arith ZArith Lia.
From Stdlib Require Import QArith Qreals Reals Lra.
From Stdlib Require Import Permutation FinFun Sorted OrderedTypeEx.
From Stdlib Require Import DecimalString DecimalNat.
Import ListNotations.

Set Warnings "-inexact-float,-register-all".

Close Scope Q_scope.
Open Scope string_scope.
Open Scope list_scope.

(* ================================================================== *)
(** * Python containers *)
(* ================================================================== *)

Module Py.

(** ** dict[str, V] *)

Definition dict (V : Type) : Type := list (string * V).

Definition keys {V} (d : dict V) : list string := map fst d.
Definition values {V} (d : dict V) : list V := map snd d.

(** [d.get(k)] *)
Fixpoint get {V} (d : dict V) (k : string) : option V :=
  match d with
  | [] => None
  | (k', v) :: rest => if String.eqb k' k then Some v else get rest k
  end.

(** [d.get(k, dflt)] *)
Definition get_or {V} (d : dict V) (k : string) (dflt : V) : V :=
  match get d k with Some v => v | None => dflt end.

(** [k in d] *)
Definition contains {V} (d : dict V) (k : string) : bool :=
  match get d k with Some _ => true | None => false end.

(** [d[k] = v]: an existing key keeps its position, a new key goes last. *)
Fixpoint setitem {V} (d : dict V) (k : string) (v : V) : dict V :=
  match d with
  | [] => [(k, v)]
  | (k', v') :: rest =>
      if String.eqb k' k then (k', v) :: rest else (k', v') :: setitem rest k v
  end.

(** [del d[k]] (the callers test [k in d] first). *)
Fixpoint delitem {V} (d : dict V) (k : string) : dict V :=
  match d with
  | [] => []
  | (k', v') :: rest =>
      if String.eqb k' k then rest else (k', v') :: delitem rest k
  end.

(** [for k in d: d[k] = f(d[k])] *)
Definition map_values {V W} (f : V -> W) (d : dict V) : dict W :=
  map (fun kv => (fst kv, f (snd kv))) d.

(** The representation invariant of a Python dict: each key once. *)
Definition wf_dict {V} (d : dict V) : Prop := NoDup (keys d).

(** ** set[str] *)

Definition pyset : Type := list string.

Definition mem (x : string) (s : pyset) : bool :=
  existsb (String.eqb x) s.

(** [len(s)] *)
Definition card (s : pyset) : nat := List.length (nodup string_dec s).

(** [a & b], [a | b], [a - b] *)
Definition inter (a b : pyset) : pyset := filter (fun x => mem x b) a.
Definition union (a b : pyset) : pyset := a ++ b.
Definition diff (a b : pyset) : pyset := filter (fun x => negb (mem x b)) a.

(** [not s] for a container *)
Definition is_empty {A} (l : list A) : bool :=
  match l with [] => true | _ => false end.

(** Truthiness of a string: [if s]. *)
Definition truthy (s : string) : bool :=
  match s with EmptyString => false | _ => true end.

(** [sorted(s)] on strings: insertion sort by code point order. *)
Fixpoint insert_sorted (x : string) (l : list string) : list string :=
  match l with
  | [] => [x]
  | y :: rest => if String.leb x y then x :: l else y :: insert_sorted x rest
  end.

Definition sorted (l : list string) : list string :=
  fold_right insert_sorted [] l.

(** [str(i)] for a non-negative integer. *)
Definition str_of_nat (n : nat) : string :=
  NilEmpty.string_of_uint (Nat.to_uint n).

(** [enumerate(l)] *)
Fixpoint enumerate_from {A} (i : nat) (l : list A) : list (nat * A) :=
  match l with
  | [] => []
  | x :: rest => (i, x) :: enumerate_from (S i) rest
  end.

Definition enumerate {A} (l : list A) : list (nat * A) := enumerate_from 0 l.

End Py.

(* ================================================================== *)
(** * Numbers *)
(* ================================================================== *)

(** Comparisons on reals, as booleans. *)
Definition Rltb (x y : R) : bool := if Rlt_dec x y then true else false.
Definition Rleb (x y : R) : bool := if Rle_dec x y then true else false.
Definition Reqb (x y : R) : bool := if Req_dec_T x y then true else false.

Definition Rsum (l : list R) : R := fold_left Rplus l 0%R.

(** [round(x, 4)]: to the nearest multiple of 1e-4, ties to the even one. *)
Definition round_half_even (y : R) : Z :=
  let n := Int_part y in
  let f := (y - IZR n)%R in
  if Rlt_dec f (1 / 2) then n
  else if Rlt_dec (1 / 2) f then (n + 1)%Z
  else if Z.even n then n else (n + 1)%Z.

Definition round4 (x : R) : R :=
  (IZR (round_half_even (x * 10000)) / 10000)%R.

(** The arithmetic [_get_weights] uses, as an interface: decimal literals,
    the four operations and the test [0 < x]. *)
Class Num (T : Type) : Type := {
  lit : Q -> T;
  add : T -> T -> T;
  sub : T -> T -> T;
  mul : T -> T -> T;
  div : T -> T -> T;
  pos : T -> bool
}.

(** Exact arithmetic. *)
#[export] Instance Num_R : Num R := {
  lit := Q2R;
  add := Rplus;
  sub := Rminus;
  mul := Rmult;
  div := Rdiv;
  pos := fun x => Rltb 0 x
}.

(** IEEE binary64.  A decimal literal [n/10^k] is read as the double nearest
    to it, which is what the correctly rounded division of the (exactly
    representable) numerator by the denominator returns. *)
Definition float_of_Z (z : Z) : float :=
  match z with
  | Zneg p => PrimFloat.opp (PrimFloat.of_uint63 (Uint63.of_Z (Zpos p)))
  | _ => PrimFloat.of_uint63 (Uint63.of_Z z)
  end.

Definition float_of_Q (q : Q) : float :=
  PrimFloat.div (float_of_Z (Qnum q)) (float_of_Z (Zpos (Qden q))).

#[export] Instance Num_float : Num float := {
  lit := float_of_Q;
  add := PrimFloat.add;
  sub := PrimFloat.sub;
  mul := PrimFloat.mul;
  div := PrimFloat.div;
  pos := fun x => PrimFloat.ltb 0%float x
}.

(* ================================================================== *)
(** * score.py: weight tables and weight adaptation *)
(* ================================================================== *)

Module Weights.
Import Py.

Definition WEIGHTS_WITH_EMBEDDINGS : dict Q :=
  [ ("semantic", 0.20); ("typeSignature", 0.12); ("jsxStructure", 0.13);
    ("hookProfile", 0.05); ("imports", 0.05); ("dataAccess", 0.03);
    ("behavior", 0.02); ("calleeSet", 0.10); ("callSequence", 0.10);
    ("consumerSet", 0.08); ("coOccurrence", 0.07); ("neighborhood", 0.05) ]%Q.

Definition WEIGHTS_WITHOUT_EMBEDDINGS : dict Q :=
  [ ("typeSignature", 0.16); ("jsxStructure", 0.16); ("hookProfile", 0.06);
    ("imports", 0.06); ("dataAccess", 0.04); ("behavior", 0.02);
    ("calleeSet", 0.13); ("callSequence", 0.13); ("consumerSet", 0.10);
    ("coOccurrence", 0.08); ("neighborhood", 0.06) ]%Q.

Section Adapt.
Context {T : Type} `{Num T}.

(** [sum(base.values())]: from 0, left to right in insertion order. *)
Definition sum_values (d : dict T) : T :=
  fold_left add (values d) (lit 0%Q).

(** [base = dict(WEIGHTS_WITH_EMBEDDINGS if has_embeddings else ...)] *)
Definition base_weights (has_embeddings : bool) : dict T :=
  map_values lit
    (if has_embeddings then WEIGHTS_WITH_EMBEDDINGS
     else WEIGHTS_WITHOUT_EMBEDDINGS).

(** "If structural patterns available, take 0.05 proportionally from
    others". *)
Definition take_structural (has_structural_patterns : bool) (base : dict T)
    : dict T :=
  if has_structural_patterns then
    let total := sum_values base in
    let reduction := lit 0.05%Q in
    let base :=
      map_values (fun w => mul w (div (sub total reduction) total)) base in
    setitem base "structuralPattern" (lit 0.05%Q)
  else base.

(** "Drop inapplicable signals for cross-kind pairs". *)
Definition drop_inapplicable (kind_a kind_b : string) (base : dict T)
    : dict T :=
  let is_both_components :=
    String.eqb kind_a "component" && String.eqb kind_b "component" in
  let has_hooks :=
    (String.eqb kind_a "component" || String.eqb kind_a "hook")
    && (String.eqb kind_b "component" || String.eqb kind_b "hook") in
  let signals_to_drop :=
    (if negb is_both_components then ["jsxStructure"] else [])
    ++ (if negb has_hooks then ["hookProfile"] else []) in
  fold_left (fun b sig => if contains b sig then delitem b sig else b)
    signals_to_drop base.

(** "Renormalize". *)
Definition renormalize (base : dict T) : dict T :=
  let total := sum_values base in
  if pos total then map_values (fun w => div w total) base else base.

Definition _get_weights (has_embeddings has_structural_patterns : bool)
    (kind_a kind_b : string) : dict T :=
  renormalize
    (drop_inapplicable kind_a kind_b
       (take_structural has_structural_patterns
          (base_weights has_embeddings))).

End Adapt.

(** [abs(sum(w.values()) - 1) <= 1e-9], evaluated in binary64. *)
Definition sums_to_one_b64 (w : dict float) : bool :=
  PrimFloat.leb (PrimFloat.abs (PrimFloat.sub (sum_values w) 1%float))
    1e-9%float.

End Weights.

(* ================================================================== *)
(** * Strings and JSON values *)
(* ================================================================== *)

Module Str.

Definition slash : ascii := "/"%char.

(** [c in s] for a one-character [c]. *)
Fixpoint contains_char (c : ascii) (s : string) : bool :=
  match s with
  | EmptyString => false
  | String x rest => Ascii.eqb x c || contains_char c rest
  end.

(** [s.split(c)]: the pieces between occurrences of [c]; never empty. *)
Fixpoint split (c : ascii) (s : string) : list string :=
  match s with
  | EmptyString => [EmptyString]
  | String x rest =>
      if Ascii.eqb x c then EmptyString :: split c rest
      else match split c rest with
           | [] => [String x EmptyString]
           | p :: ps => String x p :: ps
           end
  end.

(** [sep.join(parts)] *)
Fixpoint join (sep : string) (parts : list string) : string :=
  match parts with
  | [] => EmptyString
  | [p] => p
  | p :: ps => p ++ sep ++ join sep ps
  end.

(** [s.rsplit(c, 1)[0]]: what stands before the last [c]; all of [s] when
    [c] does not occur. *)
Definition rsplit1_head (c : ascii) (s : string) : string :=
  match split c s with
  | [] => s
  | [p] => p
  | parts => join (String c EmptyString) (removelast parts)
  end.

(** [parts.index(x)], when [x in parts]. *)
Fixpoint index (x : string) (parts : list string) : option nat :=
  match parts with
  | [] => None
  | p :: ps => if String.eqb p x then Some 0
               else option_map S (index x ps)
  end.

(** [s.lower()] on ASCII letters. *)
Definition lower_char (c : ascii) : ascii :=
  let n := nat_of_ascii c in
  if (65 <=? n)%nat && (n <=? 90)%nat then ascii_of_nat (n + 32) else c.

Fixpoint lower (s : string) : string :=
  match s with
  | EmptyString => EmptyString
  | String c rest => String (lower_char c) (lower rest)
  end.

(** ASCII white space, as [str.strip()] removes it. *)
Definition is_space (c : ascii) : bool :=
  let n := nat_of_ascii c in
  (n =? 32)%nat || ((9 <=? n)%nat && (n <=? 13)%nat) || ((28 <=? n)%nat && (n <=? 31)%nat).

Fixpoint lstrip (s : string) : string :=
  match s with
  | String c rest => if is_space c then lstrip rest else s
  | EmptyString => EmptyString
  end.

Fixpoint rstrip (s : string) : string :=
  match s with
  | EmptyString => EmptyString
  | String c rest =>
      match rstrip rest with
      | EmptyString => if is_space c then EmptyString
                       else String c EmptyString
      | r => String c r
      end
  end.

Definition strip (s : string) : string := rstrip (lstrip s).

(** [s.startswith(p)] *)
Definition startswith (s p : string) : bool := String.prefix p s.

(** [sub in s] *)
Fixpoint contains (sub s : string) : bool :=
  String.prefix sub s
  || match s with
     | EmptyString => false
     | String _ rest => contains sub rest
     end.

Definition is_upper (c : ascii) : bool :=
  let n := nat_of_ascii c in (65 <=? n)%nat && (n <=? 90)%nat.

Definition is_alnum (c : ascii) : bool :=
  let n := nat_of_ascii c in
  ((65 <=? n)%nat && (n <=? 90)%nat) || ((97 <=? n)%nat && (n <=? 122)%nat)
  || ((48 <=? n)%nat && (n <=? 57)%nat).

(** The tail [[a-zA-Z0-9]+$]: one or more alphanumerics up to the end of
    the string, or up to a final newline (which [$] lets through). *)
Fixpoint alnum_plus_end (s : string) : bool :=
  match s with
  | EmptyString => false
  | String c rest =>
      is_alnum c
      && match rest with
         | EmptyString => true
         | String nl EmptyString =>
             Ascii.eqb nl "010"%char || alnum_plus_end rest
         | _ => alnum_plus_end rest
         end
  end.

End Str.

(** The JSON-serialisable objects that get hashed. *)
Inductive json : Type :=
  | JNull
  | JBool (b : bool)
  | JInt (n : Z)
  | JStr (s : string)
  | JList (l : list json)
  | JDict (d : list (string * json)).

(** A stand-in for [hashlib.sha256(json.dumps(obj, sort_keys=True))], used
    where a concrete digest function is needed to run the stages: the
    serialised text itself behind a tag (so distinct objects get distinct
    digests, and no digest is empty). *)
Module Digest.

Definition quote : string := String (ascii_of_nat 34) EmptyString.

Definition string_of_Z (n : Z) : string :=
  NilEmpty.string_of_int (Z.to_int n).

Fixpoint dumps (o : json) : string :=
  match o with
  | JNull => "null"
  | JBool true => "true"
  | JBool false => "false"
  | JInt n => string_of_Z n
  | JStr s => quote ++ s ++ quote
  | JList l => "[" ++ Str.join ", " (map dumps l) ++ "]"
  | JDict d =>
      "{"
      ++ Str.join ", "
           (map (fun kv : string * json =>
                   (quote ++ fst kv ++ quote ++ ": " ++ dumps (snd kv))%string)
              d)
      ++ "}"
  end.

Definition digest (o : json) : string := "sha256:" ++ dumps o.

End Digest.

(* ================================================================== *)
(** * vectors.py *)
(* ================================================================== *)

Module Vectors.
Import Py.
Local Open Scope R_scope.

Definition SparseVector : Type := dict R.

(** The loop of [dot]: over the items of [a], adding [v * b[k]] when
    [k in b]. *)
Definition dot_loop (a b : SparseVector) : R :=
  fold_left
    (fun total kv =>
       match get b (fst kv) with
       | Some w => total + snd kv * w
       | None => total
       end)
    a 0.

(** Iterates over the smaller vector. *)
Definition dot (a b : SparseVector) : R :=
  if Nat.ltb (List.length b) (List.length a) then dot_loop b a
  else dot_loop a b.

Definition magnitude (v : SparseVector) : R :=
  if is_empty v then 0
  else sqrt (Rsum (map (fun val => val * val) (values v))).

Definition cosine_sim (a b : SparseVector) : R :=
  if is_empty a || is_empty b then 0
  else
    let d := dot a b in
    let ma := magnitude a in
    let mb := magnitude b in
    if Reqb ma 0 || Reqb mb 0 then 0
    else
      let sim := d / (ma * mb) in
      (* clamp to [0, 1] *)
      Rmax 0 (Rmin 1 sim).

Definition jaccard_sim (a b : pyset) : R :=
  if is_empty a && is_empty b then 0
  else
    let intersection := card (inter a b) in
    let union_ := card (union a b) in
    if Nat.eqb union_ 0 then 0
    else INR intersection / INR union_.

End Vectors.

(* ================================================================== *)
(** * similarity.py *)
(* ================================================================== *)

(** A JSX tree [{tag, children}].  Children that are not objects (text)
    are skipped by both tree functions below ([isinstance(child, dict)]),
    so the tree keeps the object children only; a missing [tag] reads as
    the empty string. *)
Inductive jsx : Type :=
  | JsxNode (tag : string) (children : list jsx).

Module Similarity.
Import Py.
Local Open Scope R_scope.

(** Positions [i < min(len a, len b)] with [a[i] != b[i]]. *)
Definition mismatch_count (a b : list Z) : nat :=
  List.length (filter (fun xy => negb (Z.eqb (fst xy) (snd xy))) (combine a b)).

Definition normalized_hamming (a b : list Z) : R :=
  if is_empty a && is_empty b then 1
  else if negb (Nat.eqb (List.length a) (List.length b)) then
    let min_len := Nat.min (List.length a) (List.length b) in
    let max_len := Nat.max (List.length a) (List.length b) in
    let mismatches := (max_len - min_len + mismatch_count a b)%nat in
    1 - INR mismatches / INR max_len
  else
    let distance := mismatch_count a b in
    1 - INR distance / INR (List.length a).

Fixpoint _count_tree_nodes (tree : jsx) : nat :=
  match tree with
  | JsxNode _ children => S (list_sum (map _count_tree_nodes children))
  end.

(** Same tag at the same position; children paired by index ([zip]). *)
Fixpoint _count_matching_nodes (tree_a tree_b : jsx) : nat :=
  match tree_a, tree_b with
  | JsxNode tag_a children_a, JsxNode tag_b children_b =>
      (if String.eqb tag_a tag_b then 1 else 0)
      + (fix zip_children (ca cb : list jsx) : nat :=
           match ca, cb with
           | x :: ca', y :: cb' =>
               _count_matching_nodes x y + zip_children ca' cb'
           | _, _ => 0
           end) children_a children_b
  end%nat.

(** [tree: dict | None] *)
Definition count_tree_nodes_opt (tree : option jsx) : nat :=
  match tree with None => 0 | Some t => _count_tree_nodes t end.

Definition count_matching_nodes_opt (tree_a tree_b : option jsx) : nat :=
  match tree_a, tree_b with
  | Some a, Some b => _count_matching_nodes a b
  | _, _ => 0
  end.

Definition tree_edit_distance_normalized (tree_a tree_b : option jsx) : R :=
  match tree_a, tree_b with
  | None, None => 0
  | _, _ =>
      let total :=
        (count_tree_nodes_opt tree_a + count_tree_nodes_opt tree_b)%nat in
      if Nat.eqb total 0 then 0
      else
        let matching := count_matching_nodes_opt tree_a tree_b in
        Rmin 1 (2 * INR matching / INR total)
  end.

Definition cosine_similarity (a b : Vectors.SparseVector) : R :=
  Vectors.cosine_sim a b.

Definition jaccard_similarity (set_a set_b : pyset) : R :=
  Vectors.jaccard_sim set_a set_b.

(** One row of the table of [lcs_ratio], for the element [x] of [seq_a]:
    the entries [curr[j]], [j = 1, 2, ...], computed from the row above,
    of which [prev] is the part from [prev[j - 1]] on, and from
    [left = curr[j - 1]]. *)
Fixpoint lcs_row (x : string) (seq_b : list string) (prev : list nat)
    (left : nat) : list nat :=
  match seq_b, prev with
  | y :: seq_b', diag :: ((up :: _) as prev') =>
      let c := if String.eqb x y then (diag + 1)%nat else Nat.max up left in
      c :: lcs_row x seq_b' prev' c
  | _, _ => []
  end.

(** The last row: [prev] after the outer loop.  Every row starts with
    [curr[0] = 0]. *)
Definition lcs_table (seq_a seq_b : list string) : list nat :=
  fold_left (fun prev x => 0%nat :: lcs_row x seq_b prev 0)
    seq_a (repeat 0%nat (S (List.length seq_b))).

Definition lcs_length (seq_a seq_b : list string) : nat :=
  nth (List.length seq_b) (lcs_table seq_a seq_b) 0%nat.

Definition lcs_ratio (seq_a seq_b : list string) : R :=
  if is_empty seq_a || is_empty seq_b then 0
  else
    let n := List.length seq_a in
    let m := List.length seq_b in
    INR (lcs_length seq_a seq_b) / INR (Nat.max n m).

Definition hash_match (h1 h2 : option string) (strict_score loose_score : R)
    : R :=
  match h1, h2 with
  | Some a, Some b => if String.eqb a b then strict_score else loose_score
  | _, _ => 0
  end.

Definition sequence_similarity (seq_a seq_b : list string) : R :=
  lcs_ratio seq_a seq_b.

End Similarity.

(** ** Subsequences, to say what [lcs_ratio] computes *)

Module SimilaritySpec.

(** [s] is [l] with some elements left out. *)
Inductive subsequence : list string -> list string -> Prop :=
  | subsequence_nil : subsequence [] []
  | subsequence_skip (s l : list string) (y : string) :
      subsequence s l -> subsequence s (y :: l)
  | subsequence_take (s l : list string) (x : string) :
      subsequence s l -> subsequence (x :: s) (x :: l).

(** [n] is the length of a longest common subsequence of [p] and [q]. *)
Definition longest_common (p q : list string) (n : nat) : Prop :=
  (exists s, subsequence s p /\ subsequence s q /\ List.length s = n)
  /\ (forall s, subsequence s p -> subsequence s q -> (List.length s <= n)%nat).

(** What a row of the table of [lcs_ratio] holds.  For the prefix of
    [seq_a] whose reverse is [rp], the row entries from some column on are
    the answers for the prefixes of [seq_b] that extend the one whose
    reverse is [rdone] by zero, one, two, ... elements of [rest]. *)
Fixpoint row_answers (rp rdone rest : list string) (row : list nat)
    {struct row} : Prop :=
  match row with
  | [] => False
  | v :: row' =>
      longest_common rp rdone v
      /\ match rest with
         | [] => row' = []
         | y :: rest' => row_answers rp (y :: rdone) rest' row'
         end
  end.

End SimilaritySpec.

(* ================================================================== *)
(** * code-units.json: the inventory records *)
(* ================================================================== *)

(** The fields of a code unit that the pipeline reads.  Where the code
    accepts more than one shape ([isinstance] tests), the field is a sum of
    the shapes; where it reads a key with [.get(key, default)], the field is
    an [option] (absent key) unless the default is the empty value of the
    field's type. *)

Record param : Type := {
  p_name : option string;
  p_type : option string
}.

(** [imports]: [{source}] records or bare strings. *)
Inductive import_entry : Type :=
  | ImportRec (source : option string)
  | ImportStr (s : string).

(** [storeAccess], [dataSourceAccess]: [{name}] records or bare strings. *)
Inductive name_entry : Type :=
  | NameRec (name : string)
  | NameStr (s : string).

(** [callees]: [{target, context}] records or bare strings. *)
Inductive callee_entry : Type :=
  | CalleeRec (target : string) (context : string)
  | CalleeStr (s : string).

(** [hookCalls]: [{name, count}] records or bare strings. *)
Inductive hook_entry : Type :=
  | HookRec (name : option string) (count : option Z)
  | HookStr (s : string).

(** [consumers]: records with [id] (or [unitId]) and [filePath] (or
    [file]), or bare strings. *)
Inductive consumer_entry : Type :=
  | ConsumerRec (c_id c_unitId c_filePath c_file : option string)
  | ConsumerStr (s : string).

(** [consumerKinds]: a histogram, or a list of kinds to be counted. *)
Inductive kinds_rollup : Type :=
  | KindsDict (counts : Py.dict nat)
  | KindsList (kinds : list string).

(** [consumerDirectories]: a list, an object (only its keys count), or
    anything else. *)
Inductive dirs_rollup : Type :=
  | DirsList (dirs : list string)
  | DirsDict (dir_keys : list string)
  | DirsOther.

(** An element of a [coOccurrences] list: a record with [unitId] (or [id])
    and [ratio] (or [count]), or something that is not a record. *)
Inductive cooc_entry : Type :=
  | CoEntryRec (e_unitId e_id : option string) (e_ratio e_count : option R)
  | CoEntryOther.

(** A value of a [coOccurrences] object: a number, a record with [ratio]
    (or [count]), or something else. *)
Inductive cooc_value : Type :=
  | CoNum (x : R)
  | CoValRec (v_ratio v_count : option R)
  | CoValOther.

Inductive cooc_rollup : Type :=
  | CoList (entries : list cooc_entry)
  | CoDict (by_unit : Py.dict cooc_value)
  | CoOther.

Record code_unit : Type := {
  u_id : string;                              (* .get("id", "") *)
  u_kind : option string;
  u_filePath : string;                        (* .get("filePath", "") *)
  u_parameters : option (list param);
  u_props : option (list param);
  u_returnType : option string;
  u_jsxTree : option jsx;
  u_hookCalls : list hook_entry;
  u_imports : list import_entry;
  u_storeAccess : list name_entry;
  u_dataSourceAccess : list name_entry;
  u_isAsync : bool;
  u_hasErrorHandling : bool;
  u_hasLoadingState : bool;
  u_hasEmptyState : bool;
  u_hasRetryLogic : bool;
  u_rendersIteration : bool;
  u_rendersConditional : bool;
  u_sideEffects : bool;
  u_callees : list callee_entry;
  u_calleeSequence : Py.dict (list string);
  u_consumers : list consumer_entry;
  u_consumerCount : option nat;
  u_consumerKinds : kinds_rollup;
  u_consumerDirectories : dirs_rollup;
  u_coOccurrences : cooc_rollup
}.

(** [u.get("kind", "")] *)
Definition kind_of (u : code_unit) : string :=
  match u_kind u with Some k => k | None => "" end.

(** The loop shared by [compute_scores] and [compute_clusters]:
    [units_by_id[uid] = u] for every unit with a non-empty id. *)
Definition build_units_by_id (units : list code_unit) : Py.dict code_unit :=
  fold_left
    (fun acc u => if Py.truthy (u_id u) then Py.setitem acc (u_id u) u else acc)
    units [].

(** [cid = c.get("id", c.get("unitId", "")) if isinstance(c, dict) else
    str(c)], kept when non-empty: the loop that [_extract_consumer_ids],
    [_build_consumer_graph] and [enrich_cluster] each contain. *)
Definition consumer_id (c : consumer_entry) : string :=
  match c with
  | ConsumerRec (Some i) _ _ _ => i
  | ConsumerRec None (Some i) _ _ => i
  | ConsumerRec None None _ _ => ""
  | ConsumerStr s => s
  end.

Definition consumer_ids (consumers : list consumer_entry) : Py.pyset :=
  filter Py.truthy (map consumer_id consumers).

(** A unit that carries an id, a kind and a file path and nothing else:
    every other key is absent (so each [.get] returns its default). *)
Definition plain_unit (uid kind filePath : string) : code_unit :=
  {| u_id := uid;
     u_kind := Some kind;
     u_filePath := filePath;
     u_parameters := None;
     u_props := None;
     u_returnType := None;
     u_jsxTree := None;
     u_hookCalls := [];
     u_imports := [];
     u_storeAccess := [];
     u_dataSourceAccess := [];
     u_isAsync := false;
     u_hasErrorHandling := false;
     u_hasLoadingState := false;
     u_hasEmptyState := false;
     u_hasRetryLogic := false;
     u_rendersIteration := false;
     u_rendersConditional := false;
     u_sideEffects := false;
     u_callees := [];
     u_calleeSequence := [];
     u_consumers := [];
     u_consumerCount := None;
     u_consumerKinds := KindsDict [];
     u_consumerDirectories := DirsList [];
     u_coOccurrences := CoDict [] |}.

(** The unit [u] with the three consumer roll-ups replaced. *)
Definition with_rollups (u : code_unit) (count : option nat)
    (kinds : kinds_rollup) (directories : dirs_rollup) : code_unit :=
  {| u_id := u_id u;
     u_kind := u_kind u;
     u_filePath := u_filePath u;
     u_parameters := u_parameters u;
     u_props := u_props u;
     u_returnType := u_returnType u;
     u_jsxTree := u_jsxTree u;
     u_hookCalls := u_hookCalls u;
     u_imports := u_imports u;
     u_storeAccess := u_storeAccess u;
     u_dataSourceAccess := u_dataSourceAccess u;
     u_isAsync := u_isAsync u;
     u_hasErrorHandling := u_hasErrorHandling u;
     u_hasLoadingState := u_hasLoadingState u;
     u_hasEmptyState := u_hasEmptyState u;
     u_hasRetryLogic := u_hasRetryLogic u;
     u_rendersIteration := u_rendersIteration u;
     u_rendersConditional := u_rendersConditional u;
     u_sideEffects := u_sideEffects u;
     u_callees := u_callees u;
     u_calleeSequence := u_calleeSequence u;
     u_consumers := u_consumers u;
     u_consumerCount := count;
     u_consumerKinds := kinds;
     u_consumerDirectories := directories;
     u_coOccurrences := u_coOccurrences u |}.

(** The unit [u] with its [imports] and [coOccurrences] replaced. *)
Definition with_imports (u : code_unit) (imports : list import_entry)
    (co : cooc_rollup) : code_unit :=
  {| u_id := u_id u;
     u_kind := u_kind u;
     u_filePath := u_filePath u;
     u_parameters := u_parameters u;
     u_props := u_props u;
     u_returnType := u_returnType u;
     u_jsxTree := u_jsxTree u;
     u_hookCalls := u_hookCalls u;
     u_imports := imports;
     u_storeAccess := u_storeAccess u;
     u_dataSourceAccess := u_dataSourceAccess u;
     u_isAsync := u_isAsync u;
     u_hasErrorHandling := u_hasErrorHandling u;
     u_hasLoadingState := u_hasLoadingState u;
     u_hasEmptyState := u_hasEmptyState u;
     u_hasRetryLogic := u_hasRetryLogic u;
     u_rendersIteration := u_rendersIteration u;
     u_rendersConditional := u_rendersConditional u;
     u_sideEffects := u_sideEffects u;
     u_callees := u_callees u;
     u_calleeSequence := u_calleeSequence u;
     u_consumers := u_consumers u;
     u_consumerCount := u_consumerCount u;
     u_consumerKinds := u_consumerKinds u;
     u_consumerDirectories := u_consumerDirectories u;
     u_coOccurrences := co |}.

(* ================================================================== *)
(** * fingerprint.py *)
(* ================================================================== *)

Record jsx_hashes : Type := {
  exact : option string;
  fuzzy : option string
}.

Record fingerprint : Type := {
  jsxHash : jsx_hashes;
  hookProfile : list Z;
  importConstellation : Vectors.SparseVector;
  behaviorFlags : list Z;
  dataAccessPattern : Vectors.SparseVector
}.

Module Fingerprint.
Import Py.
Local Open Scope R_scope.

Fixpoint json_of_jsx (t : jsx) : json :=
  match t with
  | JsxNode tag children =>
      JDict [("tag", JStr tag); ("children", JList (map json_of_jsx children))]
  end.

(** [_PASCAL_RE.match(tag)] for [^[A-Z][a-zA-Z0-9]+$]. *)
Definition is_pascal (tag : string) : bool :=
  match tag with
  | EmptyString => false
  | String c rest => Str.is_upper c && Str.alnum_plus_end rest
  end.

Fixpoint _wildcard_custom_tags (tree : jsx) : jsx :=
  match tree with
  | JsxNode tag children =>
      JsxNode (if is_pascal tag then "<C>" else tag)
              (map _wildcard_custom_tags children)
  end.

Definition _HOOK_ORDER : list string :=
  [ "useState"; "useEffect"; "useCallback"; "useMemo"; "useRef";
    "useContext"; "useReducer"; "useLayoutEffect"; "useDeferredValue";
    "useTransition" ].

Definition hook_profile (unit : code_unit) : list Z :=
  let counts : dict Z :=
    fold_left
      (fun counts entry =>
         match entry with
         | HookRec name count =>
             let name := match name with Some n => n | None => "" end in
             let count := match count with Some c => c | None => 1%Z end in
             setitem counts name (get_or counts name 0 + count)%Z
         | HookStr entry => setitem counts entry (get_or counts entry 0 + 1)%Z
         end)
      (u_hookCalls unit) [] in
  map (fun hook => get_or counts hook 0%Z) _HOOK_ORDER.

(** [imp.get("source", "") if isinstance(imp, dict) else str(imp)] *)
Definition import_source (imp : import_entry) : string :=
  match imp with
  | ImportRec (Some src) => src
  | ImportRec None => ""
  | ImportStr s => s
  end.

(** The [sources] set of one unit, each source once. *)
Definition unit_sources (u : code_unit) : list string :=
  nodup string_dec (filter truthy (map import_source (u_imports u))).

(** [counts[x] = counts.get(x, 0) + 1] for every [x] of [xs]. *)
Definition count_each (counts : dict nat) (xs : list string) : dict nat :=
  fold_left (fun counts x => setitem counts x (get_or counts x 0 + 1)%nat)
    xs counts.

(** [{name: math.log(doc_count / count) for name, count in counts.items()}] *)
Definition idf_of_counts (doc_count : nat) (counts : dict nat)
    : dict R :=
  map_values (fun count => ln (INR doc_count / INR count)) counts.

Definition _compute_idf (units : list code_unit) : dict R :=
  let doc_count := List.length units in
  if Nat.eqb doc_count 0 then []
  else
    let source_doc_counts :=
      fold_left (fun counts u => count_each counts (unit_sources u)) units [] in
    idf_of_counts doc_count source_doc_counts.

(** [vec[k] = vec.get(k, 0.0) + idf[k]] for every non-empty [k] of [ks]
    that [idf] knows: the loop of [import_constellation] and of
    [callee_set_vector]. *)
Definition idf_weighted (idf : dict R) (ks : list string)
    : Vectors.SparseVector :=
  fold_left
    (fun vec k =>
       if truthy k && contains idf k
       then setitem vec k (get_or vec k 0 + get_or idf k 0)
       else vec)
    ks [].

Definition import_constellation (unit : code_unit) (idf : dict R)
    : Vectors.SparseVector :=
  idf_weighted idf (map import_source (u_imports unit)).

Definition behavior_flags (unit : code_unit) : list Z :=
  map (fun b : bool => if b then 1%Z else 0%Z)
    [ u_isAsync unit; u_hasErrorHandling unit; u_hasLoadingState unit;
      u_hasEmptyState unit; u_hasRetryLogic unit; u_rendersIteration unit;
      u_rendersConditional unit; u_sideEffects unit ].

Definition entry_name (e : name_entry) : string :=
  match e with NameRec n => n | NameStr s => s end.

(** [vec[prefix + name] = vec.get(prefix + name, 0.0) + 1.0] for every
    non-empty name. *)
Definition count_access (prefix : string) (entries : list name_entry)
    (vec : Vectors.SparseVector) : Vectors.SparseVector :=
  fold_left
    (fun vec e =>
       let name := entry_name e in
       if truthy name
       then setitem vec (prefix ++ name) (get_or vec (prefix ++ name) 0 + 1)
       else vec)
    entries vec.

Definition data_access_pattern (unit : code_unit) : Vectors.SparseVector :=
  count_access "ds:" (u_dataSourceAccess unit)
    (count_access "store:" (u_storeAccess unit) []).

Section Hashing.
Variable _sha256 : json -> string.

Definition jsx_hash (unit : code_unit) : jsx_hashes :=
  match u_jsxTree unit with
  | None => {| exact := None; fuzzy := None |}
  | Some jsx_tree =>
      {| exact := Some (_sha256 (json_of_jsx jsx_tree));
         fuzzy := Some (_sha256 (json_of_jsx (_wildcard_custom_tags jsx_tree))) |}
  end.

Definition compute_fingerprints (units : list code_unit) : dict fingerprint :=
  let idf := _compute_idf units in
  fold_left
    (fun result unit =>
       if truthy (u_id unit) then
         setitem result (u_id unit)
           {| jsxHash := jsx_hash unit;
              hookProfile := hook_profile unit;
              importConstellation := import_constellation unit idf;
              behaviorFlags := behavior_flags unit;
              dataAccessPattern := data_access_pattern unit |}
       else result)
    units [].

End Hashing.
End Fingerprint.

(** ** The fingerprint vectors, said without loops *)

Module FingerprintSpec.
Import Py.

(** The hook an entry of [hookCalls] names, and the calls it reports. *)
Definition hook_name (entry : hook_entry) : string :=
  match entry with
  | HookRec (Some name) _ => name
  | HookRec None _ => ""
  | HookStr s => s
  end.

Definition hook_count (entry : hook_entry) : Z :=
  match entry with
  | HookRec _ (Some count) => count
  | HookRec _ None => 1%Z
  | HookStr _ => 1%Z
  end.

(** The calls of [hook] that the entries report, added up. *)
Definition hook_total (hook_calls : list hook_entry) (hook : string) : Z :=
  fold_right Z.add 0%Z
    (map hook_count
       (filter (fun entry => String.eqb (hook_name entry) hook) hook_calls)).

(** The number of units among whose keys [k] is. *)
Definition document_frequency (keys_of : code_unit -> list string)
    (units : list code_unit) (k : string) : nat :=
  List.length (filter (fun u => mem k (keys_of u)) units).

End FingerprintSpec.

(* ================================================================== *)
(** * typesig.py *)
(* ================================================================== *)

Record typesig : Type := {
  strict_hash : string;
  loose_hash : string;
  canonical : string;
  arity : nat
}.

Module Typesig.
Import Py.

Record type_class : Type := {
  has_void : bool;
  has_function : bool;
  has_object : bool;
  has_array : bool
}.

Definition _classify_type (t : string) : type_class :=
  let lower := Str.strip (Str.lower t) in
  {| has_void :=
       String.eqb lower "void" || String.eqb lower "undefined"
       || String.eqb lower "never";
     has_function :=
       Str.contains "=>" t || Str.contains "function" lower
       || Str.contains "callback" lower;
     has_object :=
       String.eqb lower "object" || Str.startswith t "{"
       || Str.contains "record" lower;
     has_array :=
       Str.contains "[]" t || Str.startswith lower "array"
       || Str.contains "list" lower |}.

Section Hashing.
Variable _sha256 : json -> string.

Definition normalize_type (params : list param) (return_type : string)
    : typesig :=
  let param_types :=
    map (fun p => match p_type p with Some t => t | None => "any" end) params in
  let strict_data :=
    JDict [("params", JList (map JStr param_types));
           ("return", JStr return_type)] in
  let arity := List.length param_types in
  let ret_class := _classify_type return_type in
  let has_function_param :=
    existsb (fun pt => has_function (_classify_type pt)) param_types in
  let has_object_param :=
    existsb (fun pt => has_object (_classify_type pt)) param_types in
  let has_array_param :=
    existsb (fun pt => has_array (_classify_type pt)) param_types in
  let loose_data :=
    JDict [("arity", JInt (Z.of_nat arity));
           ("has_void_return", JBool (has_void ret_class));
           ("has_function_param", JBool has_function_param);
           ("has_object_param", JBool has_object_param);
           ("has_array_param", JBool has_array_param)] in
  {| strict_hash := _sha256 strict_data;
     loose_hash := _sha256 loose_data;
     canonical := "(" ++ Str.join ", " param_types ++ ") => " ++ return_type;
     arity := arity |}.

Definition compute_type_signatures (units : list code_unit) : dict typesig :=
  fold_left
    (fun result unit =>
       if truthy (u_id unit) then
         let params :=
           match u_parameters unit with
           | Some ps => ps
           | None => match u_props unit with Some ps => ps | None => [] end
           end in
         let return_type :=
           match u_returnType unit with Some r => r | None => "any" end in
         (* [sig["arity"] = len(params)] stores the same number again *)
         setitem result (u_id unit) (normalize_type params return_type)
       else result)
    units [].

End Hashing.
End Typesig.

(** ** What a unit's type signature is computed from *)

Module TypesigSpec.

(** [unit.get("parameters", unit.get("props", []))] *)
Definition declared_params (u : code_unit) : list param :=
  match u_parameters u with
  | Some ps => ps
  | None => match u_props u with Some ps => ps | None => [] end
  end.

(** The parameter types in order, ["any"] for a parameter without one. *)
Definition param_types (u : code_unit) : list string :=
  map (fun p => match p_type p with Some t => t | None => "any" end)
    (declared_params u).

(** [unit.get("returnType", "any")] *)
Definition return_type (u : code_unit) : string :=
  match u_returnType u with Some r => r | None => "any" end.

End TypesigSpec.

(* ================================================================== *)
(** * callgraph.py *)
(* ================================================================== *)

(** [chainPatternHashes] and [depthProfile] are written by the stage and
    read by no later one; the record keeps the two fields that scoring
    reads. *)
Record callvec : Type := {
  calleeSetVector : Vectors.SparseVector;
  sequenceHashes : Py.dict string
}.

Module Callgraph.
Import Py.
Local Open Scope R_scope.

(** [callee.get("target", callee) if isinstance(callee, dict) else
    str(callee)], for records that carry a [target]. *)
Definition callee_target (c : callee_entry) : string :=
  match c with CalleeRec target _ => target | CalleeStr s => s end.

(** The elements of [l] that [seen] does not hold, each once, in order of
    first occurrence: a loop that skips what is in its [seen] set and adds
    what it keeps. *)
Fixpoint unseen (seen : pyset) (l : list string) : list string :=
  match l with
  | [] => []
  | x :: rest =>
      if mem x seen then unseen seen rest else x :: unseen (x :: seen) rest
  end.

(** The targets of one unit, each once ([seen]), in order of first
    occurrence. *)
Definition unit_targets (u : code_unit) : list string :=
  unseen [] (filter truthy (map callee_target (u_callees u))).

Definition _compute_callee_idf (units : list code_unit) : dict R :=
  let doc_count := List.length units in
  if Nat.eqb doc_count 0 then []
  else
    let callee_doc_counts :=
      fold_left (fun counts u => Fingerprint.count_each counts (unit_targets u))
        units [] in
    Fingerprint.idf_of_counts doc_count callee_doc_counts.

Definition callee_set_vector (unit : code_unit) (idf : dict R)
    : Vectors.SparseVector :=
  Fingerprint.idf_weighted idf (map callee_target (u_callees unit)).

Section Hashing.
Variable _sha256 : json -> string.

Definition sequence_hashes (unit : code_unit) : dict string :=
  fold_left
    (fun result ctx_seq =>
       let '(context, seq) := ctx_seq in
       if negb (is_empty seq)
       then setitem result context (_sha256 (JList (map JStr seq)))
       else result)
    (u_calleeSequence unit) [].

Definition compute_call_vectors (units : list code_unit) : dict callvec :=
  let idf := _compute_callee_idf units in
  fold_left
    (fun result unit =>
       if truthy (u_id unit) then
         setitem result (u_id unit)
           {| calleeSetVector := callee_set_vector unit idf;
              sequenceHashes := sequence_hashes unit |}
       else result)
    units [].

End Hashing.
End Callgraph.

(* ================================================================== *)
(** * depcontext.py *)
(* ================================================================== *)

Record depctx : Type := {
  consumerProfile : list R;
  cooccurrenceVector : Vectors.SparseVector;
  neighborhoodHash_r1 : string;
  neighborhoodHash_r2 : string
}.

Module Depcontext.
Import Py.
Local Open Scope R_scope.

Definition log2 (p : R) : R := ln p / ln 2.

Definition _shannon_entropy (counts : dict nat) : R :=
  let total := list_sum (values counts) in
  if Nat.eqb total 0 then 0
  else
    fold_left
      (fun entropy count =>
         if Nat.ltb 0 count then
           let p := INR count / INR total in
           entropy - p * log2 p
         else entropy)
      (values counts) 0.

(** [consumerKinds] as a histogram: a list is counted first. *)
Definition kind_counts (ck : kinds_rollup) : dict nat :=
  match ck with
  | KindsDict counts => counts
  | KindsList kinds =>
      fold_left (fun kc k => setitem kc k (get_or kc k 0 + 1)%nat) kinds []
  end.

(** [c.get("filePath", c.get("file", "")) if isinstance(c, dict) else
    str(c)] *)
Definition consumer_path (c : consumer_entry) : string :=
  match c with
  | ConsumerRec _ _ (Some fp) _ => fp
  | ConsumerRec _ _ None (Some fp) => fp
  | ConsumerRec _ _ None None => ""
  | ConsumerStr s => s
  end.

Definition distinct_dirs (unit : code_unit) : nat :=
  match u_consumerDirectories unit with
  | DirsList dirs => card dirs
  | DirsDict dir_keys => List.length dir_keys
  | DirsOther =>
      card (map (Str.rsplit1_head Str.slash)
              (filter (Str.contains_char Str.slash)
                 (map consumer_path (u_consumers unit))))
  end.

Definition consumer_count (unit : code_unit) : nat :=
  match u_consumerCount unit with
  | Some n => n
  | None => List.length (u_consumers unit)
  end.

Definition consumer_profile (unit : code_unit) : list R :=
  let consumer_count := consumer_count unit in
  let normalized_count :=
    if Nat.ltb 0 consumer_count then Rmin 1 (INR consumer_count / 50)
    else 0 in
  let consumer_kinds := kind_counts (u_consumerKinds unit) in
  let kind_entropy :=
    if negb (is_empty consumer_kinds) then _shannon_entropy consumer_kinds
    else 0 in
  let distinct_dirs := distinct_dirs unit in
  let total_consumers := Nat.max consumer_count 1 in
  let dir_spread :=
    if Nat.ltb 0 distinct_dirs then INR distinct_dirs / INR total_consumers
    else 0 in
  [normalized_count; kind_entropy; Rmin 1 dir_spread].

Definition cooccurrence_vector (unit : code_unit) : Vectors.SparseVector :=
  match u_coOccurrences unit with
  | CoList entries =>
      fold_left
        (fun vec entry =>
           match entry with
           | CoEntryRec unitId id_ ratio count =>
               let uid :=
                 match unitId, id_ with
                 | Some u, _ => u
                 | None, Some u => u
                 | None, None => ""
                 end in
               let weight :=
                 match ratio, count with
                 | Some w, _ => w
                 | None, Some w => w
                 | None, None => 1
                 end in
               if truthy uid then setitem vec uid weight else vec
           | CoEntryOther => vec
           end)
        entries []
  | CoDict by_unit =>
      fold_left
        (fun vec uid_val =>
           let '(uid, val) := uid_val in
           match val with
           | CoNum x => setitem vec uid x
           | CoValRec ratio count =>
               setitem vec uid
                 match ratio, count with
                 | Some w, _ => w
                 | None, Some w => w
                 | None, None => 1
                 end
           | CoValOther => vec
           end)
        by_unit []
  | CoOther => []
  end.

Definition _build_consumer_graph (units : list code_unit) : dict pyset :=
  fold_left
    (fun graph unit =>
       if truthy (u_id unit)
       then setitem graph (u_id unit) (consumer_ids (u_consumers unit))
       else graph)
    units [].

(** One round of the search: every neighbour of the frontier that is not
    yet visited joins [visited] and the next frontier. *)
Definition expand (consumer_graph : dict pyset) (visited frontier : pyset)
    : pyset * pyset :=
  fold_left
    (fun acc nid =>
       fold_left
         (fun acc neighbor =>
            let '(visited, next_frontier) := acc in
            if mem neighbor visited then acc
            else (neighbor :: visited, neighbor :: next_frontier))
         (get_or consumer_graph nid []) acc)
    frontier (visited, []).

(** [for _ in range(radius)], leaving early on an empty frontier. *)
Fixpoint search (radius : nat) (consumer_graph : dict pyset)
    (visited frontier : pyset) : pyset :=
  match radius with
  | O => visited
  | S radius' =>
      let '(visited, frontier) := expand consumer_graph visited frontier in
      if is_empty frontier then visited
      else search radius' consumer_graph visited frontier
  end.

Section Hashing.
Variable _sha256 : json -> string.

Definition neighborhood_hash (unit_id : string) (consumer_graph : dict pyset)
    (radius : nat) : string :=
  let visited := search radius consumer_graph [unit_id] [unit_id] in
  let neighborhood := sorted (nodup string_dec (diff visited [unit_id])) in
  _sha256 (JList (map JStr neighborhood)).

Definition compute_dep_context (units : list code_unit) : dict depctx :=
  let consumer_graph := _build_consumer_graph units in
  fold_left
    (fun result unit =>
       let uid := u_id unit in
       if truthy uid then
         setitem result uid
           {| consumerProfile := consumer_profile unit;
              cooccurrenceVector := cooccurrence_vector unit;
              neighborhoodHash_r1 := neighborhood_hash uid consumer_graph 1;
              neighborhoodHash_r2 := neighborhood_hash uid consumer_graph 2 |}
       else result)
    units [].

End Hashing.
End Depcontext.

(** ** consumerProfile, as the specification words it *)

Module DepcontextSpec.
Import Py.
Local Open Scope R_scope.

(** "Shannon entropy (base-2) over the distribution of [consumerKinds]":
    minus the sum of [p * log2 p] over the kinds that occur, [p] being the
    share of the kind. *)
Definition shannon_entropy_base2 (counts : dict nat) : R :=
  let total := list_sum (values counts) in
  - Rsum (map (fun count =>
                 if Nat.eqb count 0 then 0
                 else (INR count / INR total)
                      * Depcontext.log2 (INR count / INR total))
            (values counts)).

(** The kinds that occur at least once. *)
Definition occurring_kinds (counts : dict nat) : nat :=
  List.length (filter (fun count => Nat.ltb 0 count) (values counts)).

End DepcontextSpec.

(** ** The neighbourhood, as the docstring of [neighborhood_hash] words it *)

Module NeighborhoodSpec.
Import Py.

(** "Unit IDs reachable within [radius] hops of the consumer graph":
    [within consumer_graph uid n x] when [x] is reached from [uid] along at
    most [n] edges, an edge leading from a unit to one of its consumers. *)
Inductive within (consumer_graph : dict pyset) (uid : string)
    : nat -> string -> Prop :=
  | within_start : forall n, within consumer_graph uid n uid
  | within_hop : forall n nid neighbor,
      within consumer_graph uid n nid ->
      In neighbor (get_or consumer_graph nid []) ->
      within consumer_graph uid (S n) neighbor.

End NeighborhoodSpec.

(** ** cooccurrenceVector, as the specification words it *)

Module CooccurrenceSpec.
Import Py.
Local Open Scope R_scope.

(** "The ratio or count it is given": the [ratio] of an entry, else its
    [count], else 1. *)
Definition given_weight (ratio count : option R) : R :=
  match ratio, count with
  | Some w, _ => w
  | None, Some w => w
  | None, None => 1
  end.

(** The units that [coOccurrences] names, each with the weight it is
    given, in the order of the field: the records of a list that name a
    unit, the numbers and the records of an object. *)
Definition given_weights (unit : code_unit) : list (string * R) :=
  match u_coOccurrences unit with
  | CoList entries =>
      flat_map
        (fun entry =>
           match entry with
           | CoEntryRec (Some uid) _ ratio count
           | CoEntryRec None (Some uid) ratio count =>
               if truthy uid then [(uid, given_weight ratio count)] else []
           | _ => []
           end)
        entries
  | CoDict by_unit =>
      flat_map
        (fun uid_val : string * cooc_value =>
           match snd uid_val with
           | CoNum x => [(fst uid_val, x)]
           | CoValRec ratio count =>
               [(fst uid_val, given_weight ratio count)]
           | CoValOther => []
           end)
        by_unit
  | CoOther => []
  end.

End CooccurrenceSpec.

(* ================================================================== *)
(** * score.py: signals and pairwise scoring *)
(* ================================================================== *)

(** What [compute_scores] reads: [code-units.json], the four stage
    artifacts, and the two optional ones (an absent file is the empty
    object). *)
Record artifacts : Type := {
  units : list code_unit;
  fps : Py.dict fingerprint;
  typesigs : Py.dict typesig;
  cg : Py.dict callvec;
  dc : Py.dict depctx;
  embeddings : Py.dict (list R);
  structural_patterns : Py.dict (list string)
}.

(** An entry of [similarity-matrix.json]. *)
Record scored_pair : Type := {
  unitA : string;
  unitB : string;
  score : R;
  signals : Py.dict R;
  dominantSignal : string
}.

(** [l.sort(key=..., reverse=True)]: stable, largest key first. *)
Fixpoint insert_desc {A} (key : A -> R) (x : A) (l : list A) : list A :=
  match l with
  | [] => [x]
  | y :: rest =>
      if Rltb (key y) (key x) then x :: l else y :: insert_desc key x rest
  end.

Definition sort_desc {A} (key : A -> R) (l : list A) : list A :=
  fold_left (fun acc x => insert_desc key x acc) l [].

Module Score.
Import Py Vectors.
Local Open Scope R_scope.

Definition _SKIP_KINDS : pyset :=
  ["type"; "enum"; "constant"; "interface"; "typeAlias"].

(** [frozenset({kind_a, kind_b}) in _RELATED_KINDS] *)
Definition related_kinds (kind_a kind_b : string) : bool :=
  (String.eqb kind_a "component" && String.eqb kind_b "hook")
  || (String.eqb kind_a "hook" && String.eqb kind_b "component")
  || (String.eqb kind_a "hook" && String.eqb kind_b "function")
  || (String.eqb kind_a "function" && String.eqb kind_b "hook").

Definition _is_comparable (kind_a kind_b : string) : bool :=
  if String.eqb kind_a kind_b then true else related_kinds kind_a kind_b.

(** [{str(i): v for i, v in enumerate(emb)}] *)
Definition dense_vector (emb : list R) : SparseVector :=
  map (fun iv => (str_of_nat (fst iv), snd iv)) (enumerate emb).

Definition sig_semantic (uid_a uid_b : string) (embeddings : dict (list R))
    : R :=
  match get embeddings uid_a, get embeddings uid_b with
  | Some emb_a, Some emb_b => cosine_sim (dense_vector emb_a) (dense_vector emb_b)
  | _, _ => 0
  end.

(** [h_a and h_a == h_b] on two hash strings. *)
Definition same_hash (h_a h_b : string) : bool :=
  truthy h_a && String.eqb h_a h_b.

Definition sig_type_signature (uid_a uid_b : string)
    (typesigs : dict typesig) : R :=
  match get typesigs uid_a, get typesigs uid_b with
  | Some sig_a, Some sig_b =>
      if same_hash (strict_hash sig_a) (strict_hash sig_b) then 1
      else if same_hash (loose_hash sig_a) (loose_hash sig_b) then 0.7
      else if Nat.ltb 0 (arity sig_a) && Nat.eqb (arity sig_a) (arity sig_b)
      then 0.4
      else 0
  | _, _ => 0
  end.

(** [fps.get(uid, {}).get("jsxHash", {})] *)
Definition jsxHash_of (fps : dict fingerprint) (uid : string) : jsx_hashes :=
  match get fps uid with
  | Some fp => jsxHash fp
  | None => {| exact := None; fuzzy := None |}
  end.

(** [h_a and h_a == h_b] when either hash may be [None]. *)
Definition same_hash_opt (h_a h_b : option string) : bool :=
  match h_a, h_b with
  | Some a, Some b => same_hash a b
  | _, _ => false
  end.

Definition jsxTree_of (units_by_id : dict code_unit) (uid : string)
    : option jsx :=
  match get units_by_id uid with
  | Some u => u_jsxTree u
  | None => None
  end.

Definition sig_jsx_structure (uid_a uid_b : string) (fps : dict fingerprint)
    (units_by_id : dict code_unit) : R :=
  match jsxTree_of units_by_id uid_a, jsxTree_of units_by_id uid_b with
  | Some tree_a, Some tree_b =>
      let fp_a := jsxHash_of fps uid_a in
      let fp_b := jsxHash_of fps uid_b in
      if same_hash_opt (exact fp_a) (exact fp_b) then 1
      else if same_hash_opt (fuzzy fp_a) (fuzzy fp_b) then 0.9
      else Similarity.tree_edit_distance_normalized (Some tree_a) (Some tree_b)
  | _, _ => 0
  end.

(** [{str(i): float(v) for i, v in enumerate(hp) if v}] *)
Definition hook_vector (hp : list Z) : SparseVector :=
  map (fun iv => (str_of_nat (fst iv), IZR (snd iv)))
    (filter (fun iv => negb (Z.eqb (snd iv) 0)) (enumerate hp)).

Definition sig_hook_profile (uid_a uid_b : string) (fps : dict fingerprint)
    : R :=
  let hp_a := match get fps uid_a with Some fp => hookProfile fp | None => [] end in
  let hp_b := match get fps uid_b with Some fp => hookProfile fp | None => [] end in
  if is_empty hp_a || is_empty hp_b then 0
  else cosine_sim (hook_vector hp_a) (hook_vector hp_b).

Definition sig_imports (uid_a uid_b : string) (fps : dict fingerprint) : R :=
  let ic_a :=
    match get fps uid_a with Some fp => importConstellation fp | None => [] end in
  let ic_b :=
    match get fps uid_b with Some fp => importConstellation fp | None => [] end in
  cosine_sim ic_a ic_b.

Definition sig_data_access (uid_a uid_b : string) (fps : dict fingerprint)
    : R :=
  let dap_a :=
    match get fps uid_a with Some fp => dataAccessPattern fp | None => [] end in
  let dap_b :=
    match get fps uid_b with Some fp => dataAccessPattern fp | None => [] end in
  if is_empty dap_a && is_empty dap_b then 0
  else jaccard_sim (keys dap_a) (keys dap_b).

Definition sig_behavior (uid_a uid_b : string) (fps : dict fingerprint) : R :=
  let bf_a := match get fps uid_a with Some fp => behaviorFlags fp | None => [] end in
  let bf_b := match get fps uid_b with Some fp => behaviorFlags fp | None => [] end in
  if is_empty bf_a && is_empty bf_b then 1
  else Similarity.normalized_hamming bf_a bf_b.

Definition sig_callee_set (uid_a uid_b : string) (cg : dict callvec) : R :=
  let cv_a := match get cg uid_a with Some c => calleeSetVector c | None => [] end in
  let cv_b := match get cg uid_b with Some c => calleeSetVector c | None => [] end in
  cosine_sim cv_a cv_b.

(** [seq_a[ctx] == seq_b[ctx]] for a context both have. *)
Definition same_sequence (seq_a seq_b : dict string) (ctx : string) : bool :=
  match get seq_a ctx, get seq_b ctx with
  | Some h_a, Some h_b => String.eqb h_a h_b
  | _, _ => false
  end.

Definition sig_call_sequence (uid_a uid_b : string) (cg : dict callvec) : R :=
  let seq_a := match get cg uid_a with Some c => sequenceHashes c | None => [] end in
  let seq_b := match get cg uid_b with Some c => sequenceHashes c | None => [] end in
  let common_contexts := inter (keys seq_a) (keys seq_b) in
  if is_empty common_contexts then 0
  else if existsb (same_sequence seq_a seq_b) common_contexts then 1
  else 0.3 * INR (card common_contexts)
       / INR (Nat.max (List.length seq_a) (List.length seq_b)).

(** [_extract_consumer_ids(units_by_id.get(uid, {}))] *)
Definition _extract_consumer_ids (units_by_id : dict code_unit)
    (uid : string) : pyset :=
  match get units_by_id uid with
  | Some u => consumer_ids (u_consumers u)
  | None => []
  end.

(** The parent directories of the shared consumers whose path has a
    slash. *)
Definition shared_dirs (units_by_id : dict code_unit) (shared : pyset)
    : pyset :=
  map (Str.rsplit1_head Str.slash)
    (filter (Str.contains_char Str.slash)
       (map (fun cid => match get units_by_id cid with
                        | Some cu => u_filePath cu
                        | None => ""
                        end)
          shared)).

Definition sig_consumer_set (uid_a uid_b : string)
    (units_by_id : dict code_unit) : R :=
  let consumers_a := _extract_consumer_ids units_by_id uid_a in
  let consumers_b := _extract_consumer_ids units_by_id uid_b in
  if is_empty consumers_a && is_empty consumers_b then 0
  else
    let base := jaccard_sim consumers_a consumers_b in
    let shared := inter consumers_a consumers_b in
    if negb (is_empty shared)
       && Nat.ltb 1 (card (shared_dirs units_by_id shared))
    then Rmin 1 (base * 1.2)
    else base.

Definition sig_cooccurrence (uid_a uid_b : string) (dc : dict depctx) : R :=
  let cv_a :=
    match get dc uid_a with Some d => cooccurrenceVector d | None => [] end in
  let cv_b :=
    match get dc uid_b with Some d => cooccurrenceVector d | None => [] end in
  cosine_sim cv_a cv_b.

Definition sig_neighborhood (uid_a uid_b : string) (dc : dict depctx) : R :=
  let r1_a := option_map neighborhoodHash_r1 (get dc uid_a) in
  let r1_b := option_map neighborhoodHash_r1 (get dc uid_b) in
  if same_hash_opt r1_a r1_b then 1
  else
    let r2_a := option_map neighborhoodHash_r2 (get dc uid_a) in
    let r2_b := option_map neighborhoodHash_r2 (get dc uid_b) in
    if same_hash_opt r2_a r2_b then 0.6 else 0.

Definition sig_structural_pattern (uid_a uid_b : string)
    (patterns : dict (list string)) : R :=
  let pa := get_or patterns uid_a [] in
  let pb := get_or patterns uid_b [] in
  if is_empty pa && is_empty pb then 0
  else jaccard_sim pa pb.

(** The thirteen signals in the order [compute_scores] tests them. *)
Definition all_signals (arts : artifacts) (units_by_id : dict code_unit)
    (uid_a uid_b : string) : dict R :=
  [ ("semantic", sig_semantic uid_a uid_b (embeddings arts));
    ("typeSignature", sig_type_signature uid_a uid_b (typesigs arts));
    ("jsxStructure", sig_jsx_structure uid_a uid_b (fps arts) units_by_id);
    ("hookProfile", sig_hook_profile uid_a uid_b (fps arts));
    ("imports", sig_imports uid_a uid_b (fps arts));
    ("dataAccess", sig_data_access uid_a uid_b (fps arts));
    ("behavior", sig_behavior uid_a uid_b (fps arts));
    ("calleeSet", sig_callee_set uid_a uid_b (cg arts));
    ("callSequence", sig_call_sequence uid_a uid_b (cg arts));
    ("consumerSet", sig_consumer_set uid_a uid_b units_by_id);
    ("coOccurrence", sig_cooccurrence uid_a uid_b (dc arts));
    ("neighborhood", sig_neighborhood uid_a uid_b (dc arts));
    ("structuralPattern",
       sig_structural_pattern uid_a uid_b (structural_patterns arts)) ].

(** [if name in weights: signals[name] = sig_name(...)], thirteen times. *)
Definition compute_signals (weights : dict R) (arts : artifacts)
    (units_by_id : dict code_unit) (uid_a uid_b : string) : dict R :=
  fold_left
    (fun signals name_val =>
       if contains weights (fst name_val)
       then setitem signals (fst name_val) (snd name_val)
       else signals)
    (all_signals arts units_by_id uid_a uid_b) [].

(** [sum(weights.get(name, 0.0) * val for name, val in signals.items())] *)
Definition weighted_sum (weights signals : dict R) : R :=
  Rsum (map (fun name_val => get_or weights (fst name_val) 0 * snd name_val)
          signals).

(** [max(signals, key=lambda s: signals[s]) if signals else ""]: the first
    key that carries the largest value. *)
Fixpoint first_max (best : string) (best_val : R) (rest : dict R) : string :=
  match rest with
  | [] => best
  | (name, val) :: rest' =>
      if Rltb best_val val then first_max name val rest'
      else first_max best best_val rest'
  end.

Definition dominant_signal (signals : dict R) : string :=
  match signals with
  | [] => ""
  | (name, val) :: rest => first_max name val rest
  end.

(** The body of the double loop for one pair [(i, j)], [i < j]: [None] when
    the pair is skipped or scores below the threshold. *)
Definition score_pair (arts : artifacts) (units_by_id : dict code_unit)
    (threshold : R) (a b : string * code_unit) : option scored_pair :=
  let '(uid_a, unit_a) := a in
  let '(uid_b, unit_b) := b in
  let kind_a := kind_of unit_a in
  let file_a := u_filePath unit_a in
  let kind_b := kind_of unit_b in
  let file_b := u_filePath unit_b in
  if truthy file_a && truthy file_b && String.eqb file_a file_b then None
  else if negb (_is_comparable kind_a kind_b) then None
  else
    let weights :=
      Weights._get_weights
        (negb (is_empty (embeddings arts)))
        (negb (is_empty (structural_patterns arts)))
        kind_a kind_b in
    let signals := compute_signals weights arts units_by_id uid_a uid_b in
    let score := weighted_sum weights signals in
    if Rleb threshold score then
      Some {| unitA := uid_a;
              unitB := uid_b;
              score := round4 score;
              signals := map_values round4 signals;
              dominantSignal := dominant_signal signals |}
    else None.

(** [(l[i], l[j])] for [i < j], in loop order. *)
Fixpoint pairs_in_order {A} (l : list A) : list (A * A) :=
  match l with
  | [] => []
  | a :: rest => map (fun b => (a, b)) rest ++ pairs_in_order rest
  end.

(** The units that take part: those of [units_by_id] whose kind is not
    skipped. *)
Definition candidates (units_by_id : dict code_unit)
    : list (string * code_unit) :=
  filter (fun uid_u => negb (mem (kind_of (snd uid_u)) _SKIP_KINDS))
    units_by_id.

(** The content of [similarity-matrix.json]. *)
Definition compute_scores (arts : artifacts) (threshold : R)
    : list scored_pair :=
  let units_by_id := build_units_by_id (units arts) in
  let scored_pairs :=
    flat_map
      (fun ab =>
         match score_pair arts units_by_id threshold (fst ab) (snd ab) with
         | Some p => [p]
         | None => []
         end)
      (pairs_in_order (candidates units_by_id)) in
  sort_desc score scored_pairs.

(** The representation invariant of the artifacts that scoring relies on:
    each stored sparse vector is a dict, with every key once. *)
Definition sparse_vectors_wf (arts : artifacts) : Prop :=
  Forall (fun kv => wf_dict (importConstellation (snd kv))) (fps arts)
  /\ Forall (fun kv => wf_dict (calleeSetVector (snd kv))) (cg arts)
  /\ Forall (fun kv => wf_dict (cooccurrenceVector (snd kv))) (dc arts).

(** What a pair's entry says apart from the order of its two ids. *)
Definition pair_outcome (p : scored_pair) : R * dict R * string :=
  (score p, signals p, dominantSignal p).

End Score.

(* ================================================================== *)
(** * __main__.py: the stages up to scoring *)
(* ================================================================== *)

Module Pipeline.
Import Py.

Section Run.
Variable _sha256 : json -> string.

(** The artifacts in the output directory once the stages fingerprint,
    typesig, callgraph and depcontext have run on [code-units.json]; the
    two optional artifacts are whatever the directory holds. *)
Definition stage_artifacts (units : list code_unit)
    (embeddings : dict (list R)) (structural_patterns : dict (list string))
    : artifacts :=
  {| units := units;
     fps := Fingerprint.compute_fingerprints _sha256 units;
     typesigs := Typesig.compute_type_signatures _sha256 units;
     cg := Callgraph.compute_call_vectors _sha256 units;
     dc := Depcontext.compute_dep_context _sha256 units;
     embeddings := embeddings;
     structural_patterns := structural_patterns |}.

(** [run] up to the score stage, without optional artifacts: the content
    of [similarity-matrix.json]. *)
Definition similarity_matrix (units : list code_unit) (threshold : R)
    : list scored_pair :=
  Score.compute_scores (stage_artifacts units [] []) threshold.

End Run.
End Pipeline.

(** ** The specification's first scenario *)

Module Scenario.
Import Py.
Local Open Scope R_scope.

(** "Two identical unary functions in different files": a function with
    [parameters = [{type: "string"}]], [returnType = "number"], no JSX
    tree, no callees and no consumers. *)
Definition unary_function (uid filePath : string) : code_unit :=
  {| u_id := uid;
     u_kind := Some "function";
     u_filePath := filePath;
     u_parameters := Some [{| p_name := None; p_type := Some "string" |}];
     u_props := None;
     u_returnType := Some "number";
     u_jsxTree := None;
     u_hookCalls := [];
     u_imports := [];
     u_storeAccess := [];
     u_dataSourceAccess := [];
     u_isAsync := false;
     u_hasErrorHandling := false;
     u_hasLoadingState := false;
     u_hasEmptyState := false;
     u_hasRetryLogic := false;
     u_rendersIteration := false;
     u_rendersConditional := false;
     u_sideEffects := false;
     u_callees := [];
     u_calleeSequence := [];
     u_consumers := [];
     u_consumerCount := None;
     u_consumerKinds := KindsDict [];
     u_consumerDirectories := DirsList [];
     u_coOccurrences := CoDict [] |}.

(** The signals the scenario yields, in the order they are recorded. *)
Definition scenario_signals : dict R :=
  [ ("typeSignature", 1); ("imports", 0); ("dataAccess", 0);
    ("behavior", 1); ("calleeSet", 0); ("callSequence", 0);
    ("consumerSet", 0); ("coOccurrence", 0); ("neighborhood", 1) ].

(** The scenario's entry of the similarity matrix. *)
Definition scenario_pair (uid_a uid_b : string) : scored_pair :=
  {| unitA := uid_a;
     unitB := uid_b;
     score := 0.3077;
     signals := scenario_signals;
     dominantSignal := "typeSignature" |}.

(** The scenario as the specification expects it: [typeSignature] is 1 and
    every other recorded signal is 0. *)
Definition only_type_signature (p : scored_pair) : Prop :=
  get (signals p) "typeSignature" = Some 1
  /\ forall name value,
       In (name, value) (signals p) -> name <> "typeSignature" -> value = 0.

(** Two units with hand-written artifacts, to run the scoring on. *)
Definition sample_artifacts : artifacts :=
  {| units := [plain_unit "a.tsx::List" "component" "a.tsx";
               plain_unit "b.tsx::Grid" "component" "b.tsx"];
     fps :=
       [ ("a.tsx::List",
          {| jsxHash := {| exact := None; fuzzy := None |};
             hookProfile := [1; 2; 0; 0; 0; 0; 0; 0; 0; 0]%Z;
             importConstellation := [("react", 0.5); ("zustand", 1.5)];
             behaviorFlags := [1; 0; 0; 0; 0; 1; 0; 0]%Z;
             dataAccessPattern := [("store:cart", 1)] |});
         ("b.tsx::Grid",
          {| jsxHash := {| exact := None; fuzzy := None |};
             hookProfile := [1; 0; 1; 0; 0; 0; 0; 0; 0; 0]%Z;
             importConstellation := [("zustand", 1.5); ("lodash", 2)];
             behaviorFlags := [1; 0; 0; 0; 0; 0; 1; 0]%Z;
             dataAccessPattern := [("store:cart", 2); ("ds:api", 1)] |}) ];
     typesigs := [];
     cg :=
       [ ("a.tsx::List",
          {| calleeSetVector := [("fetchItems", 0.7)];
             sequenceHashes := [("render", "h1")] |});
         ("b.tsx::Grid",
          {| calleeSetVector := [("fetchItems", 0.7); ("sortBy", 0.7)];
             sequenceHashes := [("render", "h2")] |}) ];
     dc := [];
     embeddings := [];
     structural_patterns := [] |}.

End Scenario.

(* ================================================================== *)
(** * cluster.py *)
(* ================================================================== *)

(** An edge of the similarity graph with its [weight] attribute. *)
Record edge : Type := {
  e_a : string;
  e_b : string;
  e_weight : R
}.

Definition graph : Type := list edge.

(** What [enrich_cluster] returns. *)
Record enriched : Type := {
  members : list string;
  memberCount : nat;
  avgSimilarity : R;
  signalBreakdown : Py.dict R;
  directorySpread : nat;
  kindMix : Py.dict nat;
  sharedCallees : list string;
  consumerOverlap : R
}.

(** An entry of [clusters.json]: the enriched cluster with the two keys
    [rank_clusters] adds. *)
Record cluster : Type := {
  c_info : enriched;
  rankScore : R;
  c_id : string
}.

Module Cluster.
Import Py.
Local Open Scope R_scope.

Definition same_edge (a b : string) (e : edge) : bool :=
  (String.eqb (e_a e) a && String.eqb (e_b e) b)
  || (String.eqb (e_a e) b && String.eqb (e_b e) a).

(** [G.add_edge(a, b, weight=w)]: a second edge between the same two nodes
    replaces the attributes of the first. *)
Fixpoint add_edge (G : graph) (a b : string) (w : R) : graph :=
  match G with
  | [] => [{| e_a := a; e_b := b; e_weight := w |}]
  | e :: rest =>
      if same_edge a b e
      then {| e_a := e_a e; e_b := e_b e; e_weight := w |} :: rest
      else e :: add_edge rest a b w
  end.

Definition _build_graph (scored_pairs : list scored_pair) (threshold : R)
    : graph :=
  fold_left
    (fun G pair =>
       if Rleb threshold (score pair)
       then add_edge G (unitA pair) (unitB pair) (score pair)
       else G)
    scored_pairs [].

(** [G.subgraph(component)]: the edges with both ends in the component. *)
Definition subgraph (G : graph) (component : pyset) : graph :=
  filter (fun e => mem (e_a e) component && mem (e_b e) component) G.

Section Networkx.
(** The two graph-library calls.  [greedy_modularity_communities] returns
    [None] when it raises. *)
Variable connected_components : graph -> list pyset.
Variable greedy_modularity_communities : graph -> option (list pyset).

Definition detect_communities (G : graph) : list pyset :=
  flat_map
    (fun component =>
       if Nat.leb (card component) 5 then [component]
       else
         match greedy_modularity_communities (subgraph G component) with
         | Some sub_communities =>
             (* singletons from sub-clustering are dropped *)
             filter (fun sc => Nat.leb 2 (card sc)) sub_communities
         | None => [component]
         end)
    (connected_components G).

End Networkx.

(** The pairs with both units among the members. *)
Definition intra_pairs (members : pyset) (scored_pairs : list scored_pair)
    : list scored_pair :=
  filter (fun pair => mem (unitA pair) members && mem (unitB pair) members)
    scored_pairs.

Definition _get_signal_breakdown (members : pyset)
    (scored_pairs : list scored_pair) : dict R :=
  let inside := intra_pairs members scored_pairs in
  let signal_totals :=
    fold_left
      (fun totals pair =>
         fold_left
           (fun totals name_val =>
              setitem totals (fst name_val)
                (get_or totals (fst name_val) 0 + snd name_val))
           (signals pair) totals)
      inside [] in
  let edge_count := List.length inside in
  if Nat.eqb edge_count 0 then []
  else map_values (fun v => round4 (v / INR edge_count)) signal_totals.

(** The directory a member adds to [directories], if any. *)
Definition member_directory (fp : string) : option string :=
  if Str.contains_char Str.slash fp then
    let parts := Str.split Str.slash fp in
    match Str.index "apps" parts with
    | Some idx =>
        if Nat.ltb (idx + 1) (List.length parts)
        then Some (nth (idx + 1) parts "")
        else Some (Str.rsplit1_head Str.slash fp)
    | None =>
        Some (match parts with p :: _ => p | [] => fp end)
    end
  else None.

(** [units_by_id.get(uid, {}).get("filePath", "")] *)
Definition filePath_of (units_by_id : dict code_unit) (uid : string)
    : string :=
  match get units_by_id uid with Some u => u_filePath u | None => "" end.

(** The members of a set, each visited once. *)
Definition elements (members : pyset) : list string :=
  nodup string_dec members.

Definition directories (members : pyset) (units_by_id : dict code_unit)
    : pyset :=
  fold_left
    (fun dirs uid =>
       match member_directory (filePath_of units_by_id uid) with
       | Some d => d :: dirs
       | None => dirs
       end)
    (elements members) [].

Definition kind_mix (members : pyset) (units_by_id : dict code_unit)
    : dict nat :=
  fold_left
    (fun kind_counts uid =>
       let kind :=
         match get units_by_id uid with
         | Some u => match u_kind u with Some k => k | None => "unknown" end
         | None => "unknown"
         end in
       setitem kind_counts kind (get_or kind_counts kind 0 + 1)%nat)
    (elements members) [].

Definition shared_callees (members : pyset) (units_by_id : dict code_unit)
    : list string :=
  let callee_counts :=
    fold_left
      (fun counts uid =>
         match get units_by_id uid with
         | Some u => Fingerprint.count_each counts (Callgraph.unit_targets u)
         | None => counts
         end)
      (elements members) [] in
  (* count > len(members) / 2.0 *)
  sorted
    (keys (filter (fun name_count =>
                     Nat.ltb (card members) (2 * snd name_count))
             callee_counts)).

(** The loop over [i < j]: the sum of the Jaccard indices of the pairs with
    a non-empty union, and how many such pairs there are. *)
Definition overlap_terms (all_consumer_sets : list pyset) : list R :=
  flat_map
    (fun ab =>
       let '(a, b) := ab in
       if negb (is_empty (union a b))
       then [INR (card (inter a b)) / INR (card (union a b))]
       else [])
    (Score.pairs_in_order all_consumer_sets).

Definition consumer_overlap (members : pyset) (units_by_id : dict code_unit)
    : R :=
  let all_consumer_sets :=
    map (Score._extract_consumer_ids units_by_id) (elements members) in
  let terms := overlap_terms all_consumer_sets in
  let overlap_count := List.length terms in
  if Nat.ltb 0 overlap_count then Rsum terms / INR overlap_count
  else Rsum terms.

Definition enrich_cluster (members : pyset) (scored_pairs : list scored_pair)
    (units_by_id : dict code_unit) : enriched :=
  let weights := map score (intra_pairs members scored_pairs) in
  let avg_similarity :=
    if negb (is_empty weights) then Rsum weights / INR (List.length weights)
    else 0 in
  {| members := sorted (elements members);
     memberCount := card members;
     avgSimilarity := round4 avg_similarity;
     signalBreakdown := _get_signal_breakdown members scored_pairs;
     directorySpread := card (directories members units_by_id);
     kindMix := kind_mix members units_by_id;
     sharedCallees := shared_callees members units_by_id;
     consumerOverlap := round4 (consumer_overlap members units_by_id) |}.

(** [f"cluster-{i + 1:03d}"] *)
Definition cluster_name (i : nat) : string :=
  let digits := str_of_nat (i + 1) in
  "cluster-"
  ++ match String.length digits with
     | 0%nat => "000"
     | 1%nat => "00"
     | 2%nat => "0"
     | _ => ""
     end
  ++ digits.

Definition rank_score (c : enriched) : R :=
  let dir_spread := Nat.max (directorySpread c) 1 in
  let kind_bonus :=
    if Nat.ltb 1 (List.length (kindMix c)) then 1.2 else 1 in
  round4 (INR (memberCount c) * avgSimilarity c * INR dir_spread * kind_bonus).

Definition rank_clusters (clusters : list enriched) : list cluster :=
  let ranked := sort_desc rank_score clusters in
  map (fun ic =>
         {| c_info := snd ic;
            rankScore := rank_score (snd ic);
            c_id := cluster_name (fst ic) |})
    (enumerate ranked).

Section Pipeline.
Variable connected_components : graph -> list pyset.
Variable greedy_modularity_communities : graph -> option (list pyset).

(** The content of [clusters.json]. *)
Definition compute_clusters (scored_pairs : list scored_pair)
    (units : list code_unit) (threshold : R) : list cluster :=
  let units_by_id := build_units_by_id units in
  let G := _build_graph scored_pairs threshold in
  let communities :=
    detect_communities connected_components greedy_modularity_communities G in
  (* filter out singletons *)
  let communities := filter (fun c => Nat.leb 2 (card c)) communities in
  rank_clusters
    (map (fun community => enrich_cluster community scored_pairs units_by_id)
       communities).

End Pipeline.
End Cluster.

(** ** directorySpread, as the specification words it *)

Module ClusterSpec.
Import Py.

(** The segment that follows the first ["apps"] segment: [None] when no
    segment is ["apps"], [Some None] when ["apps"] is the last segment. *)
Fixpoint after_apps (parts : list string) : option (option string) :=
  match parts with
  | [] => None
  | p :: rest =>
      if String.eqb p "apps" then Some (hd_error rest) else after_apps rest
  end.

(** The specification's sentence, read literally: "A file path containing
    the segment [apps] uses the immediately following segment; otherwise
    the first path segment" -- for every member, a path of one segment
    included. *)
Definition claimed_directory (fp : string) : string :=
  let parts := Str.split Str.slash fp in
  match after_apps parts with
  | Some (Some following) => following
  | _ => hd fp parts
  end.

Definition claimed_directory_spread (members : pyset)
    (units_by_id : dict code_unit) : nat :=
  card (map (fun uid => claimed_directory (Cluster.filePath_of units_by_id uid))
          members).

(** The sentence as the code implements it: only a path with at least two
    segments (one that contains a slash) names a directory; when ["apps"]
    is the last segment the directory is the path up to the last slash. *)
Definition app_directory (fp : string) : option string :=
  match Str.split Str.slash fp with
  | (first :: _ :: _) as parts =>
      match after_apps parts with
      | Some (Some following) => Some following
      | Some None => Some (Str.rsplit1_head Str.slash fp)
      | None => Some first
      end
  | _ => None
  end.

Definition app_directories (members : pyset) (units_by_id : dict code_unit)
    : pyset :=
  flat_map
    (fun uid =>
       match app_directory (Cluster.filePath_of units_by_id uid) with
       | Some d => [d]
       | None => []
       end)
    members.

End ClusterSpec.

(* ================================================================== *)
(** * io_utils.py *)
(* ================================================================== *)

Module IoUtils.
Import Py.

(** The output directory as the file system shows it: which directories
    exist, and the content of each file by path. *)
Record filesystem : Type := {
  dirs : list string;
  files : dict string
}.

(** [output_dir / name] *)
Definition path_join (output_dir name : string) : string :=
  output_dir ++ "/" ++ name.

(** [output_dir.mkdir(parents=True, exist_ok=True)] *)
Definition ensure_output_dir (output_dir : string) (fs : filesystem)
    : filesystem :=
  if mem output_dir (dirs fs) then fs
  else {| dirs := output_dir :: dirs fs; files := files fs |}.

(** [open(path, "w")]: the file exists from now on, and is empty. *)
Definition open_w (path : string) (fs : filesystem) : filesystem :=
  {| dirs := dirs fs; files := setitem (files fs) path "" |}.

(** [f.write(chunk)] *)
Definition write_chunk (path chunk : string) (fs : filesystem) : filesystem :=
  {| dirs := dirs fs;
     files :=
       setitem (files fs) path (get_or (files fs) path "" ++ chunk)%string |}.

(** The states the file system goes through while [write_artifact] runs,
    in order: after [ensure_output_dir], after [open], and after each chunk
    that [json.dump] writes ([chunks] is what the encoder yields for
    [data]).  Closing the file changes nothing that is visible here. *)
Fixpoint write_chunks (path : string) (chunks : list string) (fs : filesystem)
    : list filesystem :=
  match chunks with
  | [] => []
  | chunk :: rest =>
      let fs' := write_chunk path chunk fs in
      fs' :: write_chunks path rest fs'
  end.

Definition write_artifact_states (name : string) (chunks : list string)
    (output_dir : string) (fs : filesystem) : list filesystem :=
  let fs1 := ensure_output_dir output_dir fs in
  let path := path_join output_dir name in
  let fs2 := open_w path fs1 in
  fs1 :: fs2 :: write_chunks path chunks fs2.

(** The file system once [write_artifact] has returned. *)
Definition write_artifact (name : string) (chunks : list string)
    (output_dir : string) (fs : filesystem) : filesystem :=
  last (write_artifact_states name chunks output_dir fs) fs.

(** What a reader finds at [path]. *)
Definition content (fs : filesystem) (path : string) : option string :=
  get (files fs) path.

(** The chunks written so far, as one string. *)
Definition joined (chunks : list string) : string :=
  fold_right String.append "" chunks.

(** Atomic replacement, as the specification promises it: whenever the
    artifact path is read during the write, it shows either what it showed
    before or the complete new content. *)
Definition atomic_write (name : string) (chunks : list string)
    (output_dir : string) (fs : filesystem) : Prop :=
  let path := path_join output_dir name in
  forall fs',
    In fs' (write_artifact_states name chunks output_dir fs) ->
    content fs' path = content fs path
    \/ content fs' path = Some (joined chunks).

End IoUtils.

(* ================================================================== *)
(** * io_utils.py: reading artifacts; ingest.py *)
(* ================================================================== *)

(** What [json.load] returns. *)
Inductive value : Type :=
  | VNull
  | VBool (b : bool)
  | VInt (n : Z)
  | VFloat (x : float)
  | VStr (s : string)
  | VList (l : list value)
  | VObject (fields : Py.dict value).

Module IoRead.
Import Py IoUtils.

Definition stage_hints : dict string :=
  [ ("code-units.json", "extract (TypeScript extractor)");
    ("structural-fingerprints.json", "fingerprint");
    ("type-signatures.json", "typesig");
    ("call-graph.json", "callgraph");
    ("dependency-context.json", "depcontext");
    ("semantic-embeddings.json", "embed");
    ("similarity-matrix.json", "score");
    ("clusters.json", "cluster");
    ("purpose-statements.json", "ingest-purposes (written by Claude)");
    ("findings.json", "ingest-findings (written by Claude)") ].

(** How [read_artifact] ends: with the parsed content, or with one of the
    two exceptions that can leave it. *)
Inductive read_result : Type :=
  | Loaded (data : value)
  | FileNotFoundError (message : string)
  | JSONDecodeError (message : string).

Section Json.
(** The parser: the value of a well-formed text, or the decoder's
    complaint. *)
Variable json_load : string -> value + string.

Definition read_artifact (name output_dir : string) (fs : filesystem)
    : read_result :=
  let path := path_join output_dir name in
  match content fs path with
  | None =>
      let hint := get_or stage_hints name "unknown" in
      FileNotFoundError
        ("Artifact '" ++ name ++ "' not found at " ++ path ++ ". "
         ++ "Run the '" ++ hint ++ "' stage first.")%string
  | Some text =>
      match json_load text with
      | inl data => Loaded data
      | inr complaint => JSONDecodeError complaint
      end
  end.

End Json.
End IoRead.

Module Ingest.
Import Py IoUtils.

Definition newline : string := String (ascii_of_nat 10) EmptyString.

Definition _VALID_VERDICTS : pyset :=
  ["DUPLICATE"; "OVERLAPPING"; "RELATED"; "FALSE_POSITIVE"].

(** How an ingest command ends.  [TypeError] is what the membership test
    [x not in _VALID_VERDICTS] raises for an unhashable [x];
    [SameFileError] and [FileNotFoundError] are [shutil.copy2]'s. *)
Inductive result : Type :=
  | Done
  | ValueError (message : string)
  | TypeError
  | SameFileError
  | FileNotFoundError.

(** [shutil.copy2(src, dst)], a path standing for one file. *)
Definition copy2 (src dst : string) (fs : filesystem) : result * filesystem :=
  if String.eqb src dst then (SameFileError, fs)
  else
    match content fs src with
    | Some text =>
        (Done, {| dirs := dirs fs; files := setitem (files fs) dst text |})
    | None => (FileNotFoundError, fs)
    end.

(** [isinstance(entry.get(key), str)] *)
Definition is_str_field (entry : dict value) (key : string) : bool :=
  match get entry key with
  | Some (VStr _) => true
  | _ => false
  end.

(** [f"  Entry {i}"] *)
Definition entry_label (i : nat) : string := "  Entry " ++ str_of_nat i.

Definition purpose_entry_errors (i : nat) (entry : value) : list string :=
  match entry with
  | VObject fields =>
      (if is_str_field fields "unitId" then []
       else [(entry_label i ++ ": missing or non-string 'unitId'")%string])
      ++ (if is_str_field fields "purpose" then []
          else [(entry_label i ++ ": missing or non-string 'purpose'")%string])
  | _ => [(entry_label i ++ ": not an object")%string]
  end.

(** Lists and objects cannot be hashed. *)
Definition hashable (v : value) : bool :=
  match v with
  | VList _ | VObject _ => false
  | _ => true
  end.

(** [verdict in _VALID_VERDICTS], for a hashable verdict: only a string
    equals a string. *)
Definition is_valid_verdict (verdict : value) : bool :=
  match verdict with
  | VStr s => mem s _VALID_VERDICTS
  | _ => false
  end.

Section Json.
(** The parser, and [str] on floats. *)
Variable json_load : string -> value + string.
Variable str_of_float : float -> string.

(** The parsed content, or the message of the [ValueError]. *)
Definition _read_json (file_path : string) (fs : filesystem)
    : value + string :=
  match content fs file_path with
  | None => inr ("File not found: " ++ file_path)%string
  | Some text =>
      match json_load text with
      | inl data => inl data
      | inr complaint =>
          inr ("Invalid JSON in " ++ file_path ++ ": " ++ complaint)%string
      end
  end.

Definition ingest_purposes (file_path output_dir : string) (fs : filesystem)
    : result * filesystem :=
  match _read_json file_path fs with
  | inr message => (ValueError message, fs)
  | inl (VList data) =>
      let errors :=
        flat_map (fun ie => purpose_entry_errors (fst ie) (snd ie))
          (enumerate data) in
      if negb (is_empty errors) then
        (ValueError ("Validation errors in purpose-statements.json:"
                     ++ newline ++ Str.join newline errors)%string, fs)
      else
        let fs := ensure_output_dir output_dir fs in
        let dest := path_join output_dir "purpose-statements.json" in
        copy2 file_path dest fs
  | inl _ => (ValueError "purpose-statements.json must be a JSON array.", fs)
  end.

(** [f"{verdict}"] for a hashable verdict. *)
Definition format_value (v : value) : string :=
  match v with
  | VNull => "None"
  | VBool true => "True"
  | VBool false => "False"
  | VInt n => Digest.string_of_Z n
  | VFloat x => str_of_float x
  | VStr s => s
  | VList _ | VObject _ => ""
  end.

(** The errors one entry adds; [None] when the membership test raises. *)
Definition finding_entry_errors (i : nat) (entry : value)
    : option (list string) :=
  match entry with
  | VObject fields =>
      let cluster_errors :=
        if is_str_field fields "clusterId" then []
        else [(entry_label i ++ ": missing or non-string 'clusterId'")%string] in
      let confidence_errors :=
        if contains fields "confidence" then []
        else [(entry_label i ++ ": missing 'confidence'")%string] in
      match get fields "verdict" with
      | None =>
          Some (cluster_errors ++ [(entry_label i ++ ": missing 'verdict'")%string]
                ++ confidence_errors)
      | Some verdict =>
          if negb (hashable verdict) then None
          else if negb (is_valid_verdict verdict) then
            Some (cluster_errors
                  ++ [(entry_label i ++ ": invalid verdict '"
                       ++ format_value verdict ++ "'. "
                       ++ "Must be one of: "
                       ++ Str.join ", " (sorted _VALID_VERDICTS))%string]
                  ++ confidence_errors)
          else Some (cluster_errors ++ confidence_errors)
      end
  | _ => Some [(entry_label i ++ ": not an object")%string]
  end.

(** The validation loop of [ingest_findings]. *)
Fixpoint finding_errors (entries : list (nat * value)) (errors : list string)
    : option (list string) :=
  match entries with
  | [] => Some errors
  | (i, entry) :: rest =>
      match finding_entry_errors i entry with
      | Some more => finding_errors rest (errors ++ more)
      | None => None
      end
  end.

Definition ingest_findings (file_path output_dir : string) (fs : filesystem)
    : result * filesystem :=
  match _read_json file_path fs with
  | inr message => (ValueError message, fs)
  | inl (VList data) =>
      match finding_errors (enumerate data) [] with
      | None => (TypeError, fs)
      | Some errors =>
          if negb (is_empty errors) then
            (ValueError ("Validation errors in findings.json:"
                         ++ newline ++ Str.join newline errors)%string, fs)
          else
            let fs := ensure_output_dir output_dir fs in
            let dest := path_join output_dir "findings.json" in
            copy2 file_path dest fs
      end
  | inl _ => (ValueError "findings.json must be a JSON array.", fs)
  end.

End Json.
End Ingest.

(* ================================================================== *)
(** * Theorems *)
(* ================================================================== *)

(** ** Real numbers *)

Module NumFacts.
Local Open Scope R_scope.

Lemma Rltb_true (x y : R) : x < y -> Rltb x y = true.
Proof. unfold Rltb. destruct (Rlt_dec x y); tauto. Qed.

Lemma Rltb_false (x y : R) : ~ x < y -> Rltb x y = false.
Proof. unfold Rltb. destruct (Rlt_dec x y); tauto. Qed.

Lemma Rleb_true (x y : R) : x <= y -> Rleb x y = true.
Proof. unfold Rleb. destruct (Rle_dec x y); tauto. Qed.

Lemma Rleb_false (x y : R) : ~ x <= y -> Rleb x y = false.
Proof. unfold Rleb. destruct (Rle_dec x y); tauto. Qed.

Lemma Rleb_spec (x y : R) : Rleb x y = true <-> x <= y.
Proof. unfold Rleb. destruct (Rle_dec x y); split; intros; tauto || discriminate. Qed.

Lemma fold_left_Rplus (l : list R) (a : R) :
  fold_left Rplus l a = a + Rsum l.
Proof.
  unfold Rsum. revert a. induction l as [|x l IH]; intros a; simpl.
  - lra.
  - rewrite IH, (IH (0 + x)). lra.
Qed.

Lemma Rsum_nil : Rsum [] = 0.
Proof. reflexivity. Qed.

Lemma Rsum_cons (x : R) (l : list R) : Rsum (x :: l) = x + Rsum l.
Proof. unfold Rsum at 1. simpl. rewrite fold_left_Rplus. lra. Qed.

Lemma Rsum_app (l1 l2 : list R) : Rsum (l1 ++ l2) = Rsum l1 + Rsum l2.
Proof.
  induction l1 as [|x l1 IH]; simpl.
  - rewrite Rsum_nil. lra.
  - rewrite !Rsum_cons, IH. lra.
Qed.

Lemma Rsum_map_div (t : R) (l : list R) :
  Rsum (map (fun w => w / t) l) = Rsum l / t.
Proof.
  induction l as [|x l IH]; simpl.
  - rewrite Rsum_nil. unfold Rdiv. lra.
  - rewrite !Rsum_cons, IH. unfold Rdiv. lra.
Qed.

Lemma Rsum_pos (l : list R) :
  l <> [] -> Forall (fun w => 0 < w) l -> 0 < Rsum l.
Proof.
  intros Hne Hall. induction Hall as [|x l Hx Hall IH].
  - congruence.
  - rewrite Rsum_cons. destruct l as [|y l'].
    + rewrite Rsum_nil. lra.
    + assert (0 < Rsum (y :: l')) by (apply IH; discriminate). lra.
Qed.

Lemma Rsum_nonneg (l : list R) : Forall (fun w => 0 <= w) l -> 0 <= Rsum l.
Proof.
  induction 1 as [|x l Hx Hall IH].
  - rewrite Rsum_nil. lra.
  - rewrite Rsum_cons. lra.
Qed.

(** A sum of [n] terms, each at most 1, is at most [n]. *)
Lemma Rsum_le_length (l : list R) :
  Forall (fun w => w <= 1) l -> Rsum l <= INR (List.length l).
Proof.
  induction 1 as [|x l Hx Hall IH].
  - rewrite Rsum_nil. simpl. lra.
  - rewrite Rsum_cons. cbn [List.length]. rewrite S_INR. lra.
Qed.

(** The mean of numbers in [[0, 1]] is in [[0, 1]]. *)
Lemma mean_unit_interval (l : list R) :
  l <> [] -> Forall (fun w => 0 <= w <= 1) l ->
  0 <= Rsum l / INR (List.length l) <= 1.
Proof.
  intros Hne Hall.
  assert (0 < INR (List.length l)) as Hlen.
  { destruct l; [congruence|]. apply lt_0_INR. simpl. lia. }
  assert (0 <= Rsum l) as Hlo.
  { apply Rsum_nonneg. eapply Forall_impl; [|exact Hall]. simpl. intros; lra. }
  assert (Rsum l <= INR (List.length l)) as Hhi.
  { apply Rsum_le_length. eapply Forall_impl; [|exact Hall]. simpl. intros; lra. }
  split.
  - apply Rmult_le_pos; [assumption|]. left. apply Rinv_0_lt_compat, Hlen.
  - apply Rmult_le_reg_r with (INR (List.length l)); [assumption|].
    unfold Rdiv. rewrite Rmult_assoc, Rinv_l by lra. lra.
Qed.

Lemma Rsum_map_le {A} (f g : A -> R) (l : list A) :
  (forall x, In x l -> f x <= g x) ->
  Rsum (map f l) <= Rsum (map g l).
Proof.
  induction l as [|x l IH]; intros H; simpl.
  - rewrite Rsum_nil. lra.
  - rewrite !Rsum_cons.
    assert (f x <= g x) by (apply H; now left).
    assert (Rsum (map f l) <= Rsum (map g l)) by (apply IH; intros; apply H; now right).
    lra.
Qed.

Lemma Rsum_map_ext {A} (f g : A -> R) (l : list A) :
  (forall x, In x l -> f x = g x) ->
  Rsum (map f l) = Rsum (map g l).
Proof.
  intros H. apply Rle_antisym; apply Rsum_map_le; intros x Hx;
    rewrite (H x Hx); lra.
Qed.

Lemma Rsum_map_zero {A} (l : list A) : Rsum (map (fun _ => 0) l) = 0.
Proof.
  induction l as [|x l IH]; simpl; [apply Rsum_nil|].
  rewrite Rsum_cons, IH. lra.
Qed.

Lemma Q2R_zero : Q2R 0 = 0.
Proof. unfold Q2R. simpl. lra. Qed.

(** [Int_part] of a number known between two consecutive integers. *)
Lemma Int_part_between (y : R) (n : Z) :
  IZR n <= y < IZR n + 1 -> Int_part y = n.
Proof.
  intros [Hlo Hhi]. unfold Int_part.
  assert (up y = (n + 1)%Z) as ->; [|lia].
  symmetry. apply tech_up; rewrite plus_IZR; simpl; lra.
Qed.

Lemma Int_part_bounds (y : R) : IZR (Int_part y) <= y < IZR (Int_part y) + 1.
Proof.
  destruct (base_Int_part y) as [H1 H2]. lra.
Qed.

(** [round_half_even] stays within one half of its argument. *)
Lemma round_half_even_close (y : R) :
  y - 1 / 2 <= IZR (round_half_even y) <= y + 1 / 2.
Proof.
  unfold round_half_even.
  pose proof (Int_part_bounds y) as [Hlo Hhi].
  destruct (Rlt_dec (y - IZR (Int_part y)) (1 / 2)) as [H1|H1].
  - lra.
  - destruct (Rlt_dec (1 / 2) (y - IZR (Int_part y))) as [H2|H2].
    + rewrite plus_IZR. simpl. lra.
    + destruct (Z.even (Int_part y)).
      * lra.
      * rewrite plus_IZR. simpl. lra.
Qed.

(** Rounding to an integer is monotone at integer bounds. *)
Lemma round_half_even_ge (y : R) (n : Z) :
  IZR n <= y -> (n <= round_half_even y)%Z.
Proof.
  intros Hn. pose proof (round_half_even_close y) as [Hlo _].
  apply Z.lt_succ_r. apply lt_IZR. rewrite succ_IZR. lra.
Qed.

Lemma round_half_even_le (y : R) (n : Z) :
  y <= IZR n -> (round_half_even y <= n)%Z.
Proof.
  intros Hn. pose proof (round_half_even_close y) as [_ Hhi].
  apply Z.lt_succ_r. apply lt_IZR. rewrite succ_IZR. lra.
Qed.

(** [round(x, 4)] keeps a value of [[0, 1]] in [[0, 1]]. *)
Lemma round4_unit_interval (x : R) : 0 <= x <= 1 -> 0 <= round4 x <= 1.
Proof.
  intros [Hlo Hhi]. unfold round4.
  assert (0 <= round_half_even (x * 10000))%Z as H0
    by (apply round_half_even_ge; simpl; lra).
  assert (round_half_even (x * 10000) <= 10000)%Z as H1
    by (apply round_half_even_le; lra).
  apply IZR_le in H0, H1. lra.
Qed.

End NumFacts.

(** ** Dictionaries and sets *)

Module PyFacts.
Import Py.

Lemma values_map_values {V W} (f : V -> W) (d : dict V) :
  values (map_values f d) = map f (values d).
Proof. unfold values, map_values. rewrite !map_map. reflexivity. Qed.

Lemma keys_map_values {V W} (f : V -> W) (d : dict V) :
  keys (map_values f d) = keys d.
Proof. unfold keys, map_values. rewrite map_map. reflexivity. Qed.

Lemma Forall_values_setitem {V} (P : V -> Prop) (d : dict V) k v :
  Forall P (values d) -> P v -> Forall P (values (setitem d k v)).
Proof.
  intros Hd Hv. induction d as [|[k' v'] d IH]; simpl.
  - constructor; [assumption|constructor].
  - simpl in Hd. inversion Hd; subst.
    destruct (String.eqb k' k); simpl; constructor; auto.
Qed.

Lemma Forall_values_delitem {V} (P : V -> Prop) (d : dict V) k :
  Forall P (values d) -> Forall P (values (delitem d k)).
Proof.
  intros Hd. induction d as [|[k' v'] d IH]; simpl; [constructor|].
  simpl in Hd. inversion Hd; subst. destruct (String.eqb k' k); simpl; auto.
Qed.

Lemma get_In {V} (d : dict V) k v : get d k = Some v -> In (k, v) d.
Proof.
  induction d as [|[k' v'] d IH]; simpl; [discriminate|].
  destruct (String.eqb_spec k' k) as [->|Hne].
  - intros [= ->]. now left.
  - intros H. right. auto.
Qed.

Lemma get_None_keys {V} (d : dict V) k : get d k = None <-> ~ In k (keys d).
Proof.
  induction d as [|[k' v'] d IH]; simpl; [tauto|].
  destruct (String.eqb_spec k' k) as [->|Hne].
  - split; [discriminate|]. intros H. exfalso. apply H. now left.
  - rewrite IH. split; [|tauto]. intros H [Heq|Hin]; [congruence|tauto].
Qed.

Lemma In_get {V} (d : dict V) k v :
  wf_dict d -> In (k, v) d -> get d k = Some v.
Proof.
  unfold wf_dict. induction d as [|[k' v'] d IH]; simpl; [tauto|].
  intros Hnd [Heq|Hin]; inversion Hnd as [|? ? Hnotin Hnd']; subst.
  - inversion Heq; subst. now rewrite String.eqb_refl.
  - destruct (String.eqb_spec k' k) as [->|Hne]; [|auto].
    exfalso. apply Hnotin. change (In (fst (k, v)) (map fst d)).
    now apply in_map.
Qed.

Lemma get_setitem_same {V} (d : dict V) k v : get (setitem d k v) k = Some v.
Proof.
  induction d as [|[k' v'] d IH]; simpl.
  - now rewrite String.eqb_refl.
  - destruct (String.eqb_spec k' k) as [->|Hne]; simpl.
    + now rewrite String.eqb_refl.
    + destruct (String.eqb_spec k' k); [congruence|assumption].
Qed.

Lemma get_setitem_other {V} (d : dict V) k k' v :
  k <> k' -> get (setitem d k v) k' = get d k'.
Proof.
  intros Hne. induction d as [|[k0 v0] d IH]; simpl.
  - destruct (String.eqb_spec k k'); [congruence|reflexivity].
  - destruct (String.eqb_spec k0 k) as [->|Hne0]; simpl.
    + destruct (String.eqb_spec k k'); [congruence|reflexivity].
    + destruct (String.eqb_spec k0 k'); [reflexivity|assumption].
Qed.

Lemma keys_setitem_In {V} (d : dict V) k v x :
  In x (keys (setitem d k v)) <-> x = k \/ In x (keys d).
Proof.
  induction d as [|[k0 v0] d IH]; simpl.
  - intuition.
  - destruct (String.eqb_spec k0 k) as [->|Hne]; simpl.
    + intuition.
    + rewrite IH. intuition.
Qed.

Lemma wf_setitem {V} (d : dict V) k v : wf_dict d -> wf_dict (setitem d k v).
Proof.
  unfold wf_dict. induction d as [|[k0 v0] d IH]; simpl; intros Hnd.
  - constructor; [simpl; tauto|constructor].
  - inversion Hnd as [|? ? Hnotin Hnd']; subst.
    destruct (String.eqb_spec k0 k) as [->|Hne]; simpl.
    + constructor; assumption.
    + constructor; [|auto]. rewrite keys_setitem_In. intros [->|Hin]; tauto.
Qed.

Lemma mem_In (x : string) (s : pyset) : mem x s = true <-> In x s.
Proof.
  unfold mem. rewrite existsb_exists. split.
  - intros [y [Hin Heq]]. apply String.eqb_eq in Heq. now subst.
  - intros Hin. exists x. split; [assumption|apply String.eqb_refl].
Qed.

Lemma In_inter (x : string) (a b : pyset) :
  In x (inter a b) <-> In x a /\ In x b.
Proof. unfold inter. rewrite filter_In, mem_In. tauto. Qed.

Lemma In_union (x : string) (a b : pyset) :
  In x (union a b) <-> In x a \/ In x b.
Proof. unfold union. apply in_app_iff. Qed.

(** [len] of a set depends on its elements only. *)
Lemma card_ext (a b : pyset) :
  (forall x, In x a <-> In x b) -> card a = card b.
Proof.
  intros H. unfold card. apply Permutation_length, NoDup_Permutation.
  - apply NoDup_nodup.
  - apply NoDup_nodup.
  - intros x. rewrite !nodup_In. apply H.
Qed.

Lemma card_incl (a b : pyset) : incl a b -> card a <= card b.
Proof.
  intros H. unfold card. apply NoDup_incl_length.
  - apply NoDup_nodup.
  - intros x. rewrite !nodup_In. apply H.
Qed.

Lemma card_le_length (a : pyset) : card a <= List.length a.
Proof.
  unfold card. induction a as [|x a IH]; simpl; [lia|].
  destruct (in_dec string_dec x a); simpl; lia.
Qed.

Lemma card_zero (a : pyset) : card a = 0 -> a = [].
Proof.
  unfold card. destruct a as [|x a]; [reflexivity|].
  intros H. apply length_zero_iff_nil in H.
  assert (In x (nodup string_dec (x :: a))) as Hin
    by (apply nodup_In; now left).
  rewrite H in Hin. destruct Hin.
Qed.

Lemma is_empty_true {A} (l : list A) : is_empty l = true <-> l = [].
Proof. destruct l; simpl; split; congruence. Qed.

Lemma is_empty_ext (a b : pyset) :
  (forall x, In x a <-> In x b) -> is_empty a = is_empty b.
Proof.
  intros H. destruct a as [|x a], b as [|y b]; simpl; try reflexivity.
  - exfalso. apply (H y). now left.
  - exfalso. apply (H x). now left.
Qed.

Lemma In_values_get {V} (d : dict V) (k : string) (v : V) :
  get d k = Some v -> In v (values d).
Proof.
  intros H. apply get_In in H. unfold values.
  change v with (snd (k, v)). now apply in_map.
Qed.

Lemma Forall_snd_values {V} (P : V -> Prop) (d : dict V) :
  Forall P (values d) <-> Forall (fun kv => P (snd kv)) d.
Proof. unfold values. now rewrite Forall_map. Qed.

Lemma get_or_nonneg (vec : dict R) (k : string) :
  Forall (fun v => 0 <= v)%R (values vec) -> (0 <= get_or vec k 0)%R.
Proof.
  intros H. unfold get_or. destruct (get vec k) as [v|] eqn:E; [|lra].
  rewrite Forall_forall in H. apply H. eapply In_values_get, E.
Qed.

Lemma NoDup_by_nodup (l : list string) : nodup string_dec l = l -> NoDup l.
Proof. intros <-. apply NoDup_nodup. Qed.

End PyFacts.

(** ** Weight adaptation *)

Module WeightsFacts.
Import Py Weights NumFacts PyFacts.
Local Open Scope R_scope.

Lemma sum_values_R (d : dict R) : sum_values d = Rsum (values d).
Proof.
  unfold sum_values. simpl. rewrite fold_left_Rplus, Q2R_zero. lra.
Qed.

Lemma Forall_values_drop {V} (P : V -> Prop) (sigs : list string)
    (d : dict V) :
  Forall P (values d) ->
  Forall P (values (fold_left
     (fun b sig => if contains b sig then delitem b sig else b) sigs d)).
Proof.
  revert d. induction sigs as [|s sigs IH]; intros d Hd; simpl; auto.
  apply IH. destruct (contains d s); auto using Forall_values_delitem.
Qed.

Lemma base_weights_pos (he : bool) :
  Forall (fun w => 0 < w) (values (base_weights (T:=R) he)).
Proof.
  destruct he; unfold base_weights; rewrite values_map_values; simpl;
    repeat constructor; unfold Q2R; simpl; lra.
Qed.

Lemma base_weights_sum (he : bool) :
  sum_values (base_weights (T:=R) he) = 1.
Proof.
  rewrite sum_values_R.
  destruct he; unfold base_weights; rewrite values_map_values; simpl;
    rewrite !Rsum_cons, Rsum_nil; unfold Q2R; simpl; lra.
Qed.

Lemma take_structural_pos (hs : bool) (d : dict R) :
  sum_values d = 1 ->
  Forall (fun w => 0 < w) (values d) ->
  Forall (fun w => 0 < w) (values (take_structural hs d)).
Proof.
  intros Hs Hd. destruct hs; simpl; auto.
  apply Forall_values_setitem.
  - rewrite values_map_values. apply Forall_forall. intros x Hx.
    apply in_map_iff in Hx. destruct Hx as [w [<- Hw]].
    rewrite Forall_forall in Hd. specialize (Hd w Hw).
    rewrite Hs. unfold Q2R; simpl.
    assert ((1 - 5 * / 100) / 1 = 95 / 100) as -> by lra. lra.
  - unfold Q2R; simpl; lra.
Qed.

Lemma drop_inapplicable_pos (ka kb : string) (d : dict R) :
  Forall (fun w => 0 < w) (values d) ->
  Forall (fun w => 0 < w) (values (drop_inapplicable ka kb d)).
Proof. intros Hd. unfold drop_inapplicable. apply Forall_values_drop, Hd. Qed.

(** The weights before renormalisation, all positive. *)
Lemma adapted_pos (he hs : bool) (ka kb : string) :
  Forall (fun w => 0 < w)
    (values (drop_inapplicable ka kb
               (take_structural (T:=R) hs (base_weights he)))).
Proof.
  apply drop_inapplicable_pos, take_structural_pos.
  - apply base_weights_sum.
  - apply base_weights_pos.
Qed.

(** [typeSignature] is never dropped, so the weight set is never empty. *)
Lemma adapted_has_typeSignature (he hs : bool) (ka kb : string) :
  contains
    (drop_inapplicable ka kb (take_structural (T:=R) hs (base_weights he)))
    "typeSignature" = true.
Proof.
  unfold drop_inapplicable.
  generalize (String.eqb ka "component" && String.eqb kb "component")%bool.
  generalize ((String.eqb ka "component" || String.eqb ka "hook")
    && (String.eqb kb "component" || String.eqb kb "hook"))%bool.
  intros b2 b1. destruct he, hs, b1, b2; reflexivity.
Qed.

Lemma contains_nonempty {V} (d : dict V) (k : string) :
  contains d k = true -> values d <> [].
Proof. destruct d; discriminate. Qed.

Lemma adapted_total_pos (he hs : bool) (ka kb : string) :
  0 < sum_values
        (drop_inapplicable ka kb (take_structural (T:=R) hs (base_weights he))).
Proof.
  rewrite sum_values_R. apply Rsum_pos.
  - eapply contains_nonempty, adapted_has_typeSignature.
  - apply adapted_pos.
Qed.

Lemma renormalize_sum (d : dict R) :
  0 < sum_values d -> sum_values (renormalize d) = 1.
Proof.
  intros Ht. unfold renormalize. simpl pos. rewrite Rltb_true by assumption.
  rewrite sum_values_R, values_map_values. simpl div. rewrite Rsum_map_div.
  rewrite <- sum_values_R. field. lra.
Qed.

Lemma weights_sum_R (he hs : bool) (ka kb : string) :
  sum_values (_get_weights (T:=R) he hs ka kb) = 1.
Proof. unfold _get_weights. apply renormalize_sum, adapted_total_pos. Qed.

Lemma weights_pos_R (he hs : bool) (ka kb : string) :
  Forall (fun w => 0 < w) (values (_get_weights (T:=R) he hs ka kb)).
Proof.
  unfold _get_weights, renormalize.
  pose proof (adapted_total_pos he hs ka kb) as Ht.
  pose proof (adapted_pos he hs ka kb) as Hp.
  simpl pos. rewrite Rltb_true by assumption.
  rewrite values_map_values. apply Forall_forall. intros x Hx.
  apply in_map_iff in Hx. destruct Hx as [w [<- Hw]].
  rewrite Forall_forall in Hp. specialize (Hp w Hw). simpl div.
  apply Rdiv_lt_0_compat; assumption.
Qed.

(** C7.  For every combination of [has_embeddings],
    [has_structural_patterns] and the kinds of the two units, the weights
    that [_get_weights] returns sum to 1: exactly in real arithmetic, and
    within 1e-9 when the function is run in IEEE binary64, summing in the
    dict's order as Python's [sum] does. *)
Theorem get_weights_sum_to_one (he hs : bool) (ka kb : string) :
  sum_values (_get_weights (T:=R) he hs ka kb) = 1
  /\ sums_to_one_b64 (_get_weights (T:=float) he hs ka kb) = true.
Proof.
  split.
  - apply weights_sum_R.
  - unfold _get_weights, drop_inapplicable.
    generalize (String.eqb ka "component" && String.eqb kb "component")%bool.
    generalize ((String.eqb ka "component" || String.eqb ka "hook")
      && (String.eqb kb "component" || String.eqb kb "hook"))%bool.
    intros b2 b1. destruct he, hs, b1, b2; vm_compute; reflexivity.
Qed.

End WeightsFacts.

(** ** Strings *)

Module StrFacts.

Lemma split_not_nil (c : ascii) (s : string) : Str.split c s <> [].
Proof.
  induction s as [|x rest IH]; simpl; [discriminate|].
  destruct (Ascii.eqb x c); [discriminate|].
  destruct (Str.split c rest); [congruence|discriminate].
Qed.

(** Without the separator, [split] returns the string itself. *)
Lemma split_no_sep (c : ascii) (s : string) :
  Str.contains_char c s = false -> Str.split c s = [s].
Proof.
  induction s as [|x rest IH]; simpl; [reflexivity|].
  destruct (Ascii.eqb x c); simpl; [discriminate|].
  intros H. now rewrite (IH H).
Qed.

(** With the separator, [split] returns at least two pieces. *)
Lemma split_with_sep (c : ascii) (s : string) :
  Str.contains_char c s = true ->
  exists p q rest, Str.split c s = p :: q :: rest.
Proof.
  induction s as [|x rest IH]; simpl; [discriminate|].
  destruct (Ascii.eqb x c); simpl.
  - intros _. destruct (Str.split c rest) as [|q qs] eqn:E.
    + now apply split_not_nil in E.
    + now exists EmptyString, q, qs.
  - intros H. destruct (IH H) as [p [q [qs ->]]].
    now exists (String x p), q, qs.
Qed.

End StrFacts.

(** ** Clustering: directory spread *)

Module DirectoryFacts.
Import Py PyFacts StrFacts Cluster ClusterSpec.

(** [parts.index("apps")] and the segment after it, against the direct
    recursion of [after_apps]. *)
Lemma index_after_apps (parts : list string) :
  match Str.index "apps" parts with
  | Some idx => after_apps parts = Some (nth_error parts (idx + 1))
  | None => after_apps parts = None
  end.
Proof.
  induction parts as [|p rest IH]; simpl; [reflexivity|].
  destruct (String.eqb p "apps").
  - simpl. now destruct rest.
  - destruct (Str.index "apps" rest) as [idx|]; simpl; assumption.
Qed.

Lemma nth_error_nth_default (parts : list string) (i : nat) :
  nth_error parts i =
  if Nat.ltb i (List.length parts) then Some (nth i parts "") else None.
Proof.
  revert i. induction parts as [|p rest IH]; intros [|i]; simpl; try reflexivity.
  rewrite IH. reflexivity.
Qed.

(** The code's choice of directory is the one [app_directory] describes. *)
Lemma member_directory_spec (fp : string) :
  member_directory fp = app_directory fp.
Proof.
  unfold member_directory, app_directory.
  destruct (Str.contains_char Str.slash fp) eqn:Hslash.
  - destruct (split_with_sep _ _ Hslash) as [p [q [rest Hsplit]]].
    rewrite Hsplit. cbv beta iota zeta.
    pose proof (index_after_apps (p :: q :: rest)) as Hidx.
    destruct (Str.index "apps" (p :: q :: rest)) as [idx|].
    + rewrite Hidx, nth_error_nth_default.
      destruct (Nat.ltb (idx + 1) (List.length (p :: q :: rest))); reflexivity.
    + rewrite Hidx. reflexivity.
  - rewrite (split_no_sep _ _ Hslash). reflexivity.
Qed.

Lemma In_directories (members : pyset) (units_by_id : dict code_unit)
    (acc : pyset) (d : string) :
  In d (fold_left
          (fun dirs uid =>
             match member_directory (filePath_of units_by_id uid) with
             | Some d => d :: dirs
             | None => dirs
             end)
          members acc)
  <-> In d acc
      \/ exists uid, In uid members
                     /\ member_directory (filePath_of units_by_id uid) = Some d.
Proof.
  revert acc. induction members as [|m members IH]; intros acc; simpl.
  - split; [tauto|]. intros [H|[uid [[] _]]]. assumption.
  - rewrite IH. split.
    + intros [Hacc|[uid [Hin Hd]]].
      * destruct (member_directory (filePath_of units_by_id m)) eqn:E.
        -- destruct Hacc as [<-|Hacc]; [right; exists m; auto|now left].
        -- now left.
      * right. exists uid. auto.
    + intros [Hacc|[uid [[<-|Hin] Hd]]].
      * left. destruct (member_directory (filePath_of units_by_id m));
          [now right|assumption].
      * left. rewrite Hd. now left.
      * right. exists uid. auto.
Qed.

(** C9 (as amended).  [directorySpread] is the number of distinct
    directories over the members whose file path contains a slash: the
    segment after the first [apps] segment when there is one, the path up
    to the last slash when [apps] is the last segment, and the first
    segment otherwise.  A member whose path has no slash (a single
    segment), or that is not in the inventory, adds no directory. *)
Theorem directory_spread_counts_app_directories (members : pyset)
    (scored_pairs : list scored_pair) (units_by_id : dict code_unit) :
  directorySpread (enrich_cluster members scored_pairs units_by_id)
  = card (app_directories members units_by_id).
Proof.
  unfold enrich_cluster. cbn [directorySpread].
  apply card_ext. intros d. unfold directories, elements, app_directories.
  rewrite In_directories, in_flat_map. split.
  - intros [[]|[uid [Hin Hd]]]. exists uid. rewrite nodup_In in Hin.
    split; [assumption|]. rewrite <- member_directory_spec, Hd. now left.
  - intros [uid [Hin Hd]]. right. exists uid. rewrite nodup_In.
    split; [assumption|]. rewrite member_directory_spec.
    destruct (app_directory (filePath_of units_by_id uid)); simpl in Hd;
      [destruct Hd as [->|[]]; reflexivity|destruct Hd].
Qed.

(** C9, as stated, fails: two members in the files [a.ts] and [b.ts]
    (single segments) have directory spread 0, where the claim counts the
    two first segments. *)
Lemma directory_spread_single_segment_counterexample :
  let units_by_id :=
    build_units_by_id
      [plain_unit "a" "function" "a.ts"; plain_unit "b" "function" "b.ts"] in
  directorySpread (enrich_cluster ["a"; "b"] [] units_by_id) = 0
  /\ claimed_directory_spread ["a"; "b"] units_by_id = 2
  /\ directorySpread (enrich_cluster ["a"; "b"] [] units_by_id)
     <> claimed_directory_spread ["a"; "b"] units_by_id.
Proof.
  cbv zeta. unfold enrich_cluster. cbn [directorySpread].
  repeat split; try (vm_compute; reflexivity).
  vm_compute. discriminate.
Qed.

End DirectoryFacts.

(** ** Sorting and enumeration *)

Module SortFacts.
Import Py.

Lemma length_insert_sorted (x : string) (l : list string) :
  List.length (insert_sorted x l) = S (List.length l).
Proof.
  induction l as [|y l IH]; simpl; [reflexivity|].
  destruct (String.leb x y); simpl; [reflexivity|now rewrite IH].
Qed.

Lemma length_sorted (l : list string) :
  List.length (sorted l) = List.length l.
Proof.
  unfold sorted. induction l as [|x l IH]; simpl; [reflexivity|].
  now rewrite length_insert_sorted, IH.
Qed.

Lemma In_insert_desc {A} (key : A -> R) (x y : A) (l : list A) :
  In y (insert_desc key x l) <-> y = x \/ In y l.
Proof.
  induction l as [|z l IH]; simpl.
  - intuition.
  - destruct (Rltb (key z) (key x)); simpl; [intuition|].
    rewrite IH. intuition.
Qed.

Lemma In_sort_desc_acc {A} (key : A -> R) (y : A) (l acc : list A) :
  In y (fold_left (fun acc x => insert_desc key x acc) l acc)
  <-> In y l \/ In y acc.
Proof.
  revert acc. induction l as [|x l IH]; intros acc; simpl; [tauto|].
  rewrite IH, In_insert_desc. intuition.
Qed.

(** Sorting keeps exactly the elements it was given. *)
Lemma In_sort_desc {A} (key : A -> R) (y : A) (l : list A) :
  In y (sort_desc key l) <-> In y l.
Proof. unfold sort_desc. rewrite In_sort_desc_acc. simpl. tauto. Qed.

Lemma In_enumerate_from {A} (i n : nat) (x : A) (l : list A) :
  In (i, x) (enumerate_from n l) -> In x l.
Proof.
  revert n. induction l as [|y l IH]; intros n; simpl; [tauto|].
  intros [[= _ ->]|H]; [now left|right; eauto].
Qed.

End SortFacts.

(** ** Clustering: cluster sizes *)

Module ClusterSizeFacts.
Import Py PyFacts SortFacts Cluster.

Lemma memberCount_enrich (members : pyset) (scored_pairs : list scored_pair)
    (units_by_id : dict code_unit) :
  memberCount (enrich_cluster members scored_pairs units_by_id) = card members.
Proof. reflexivity. Qed.

Lemma members_enrich_length (community : pyset)
    (scored_pairs : list scored_pair) (units_by_id : dict code_unit) :
  List.length (members (enrich_cluster community scored_pairs units_by_id))
  = card community.
Proof. unfold enrich_cluster. cbn [members]. apply length_sorted. Qed.

(** Every ranked cluster is one of the enriched clusters. *)
Lemma rank_clusters_from (clusters : list enriched) (c : cluster) :
  In c (rank_clusters clusters) -> In (c_info c) clusters.
Proof.
  unfold rank_clusters. rewrite in_map_iff. intros [[i e] [<- Hin]].
  cbn [c_info snd]. apply In_enumerate_from in Hin.
  now apply In_sort_desc in Hin.
Qed.

(** C8.  Whatever the graph library returns for the connected components
    and for the sub-communities of a large component, every cluster that
    [compute_clusters] writes has at least two members: [memberCount] is at
    least 2 and [members] lists at least two ids. *)
Theorem clusters_have_at_least_two_members
    (connected_components : graph -> list pyset)
    (greedy_modularity_communities : graph -> option (list pyset))
    (scored_pairs : list scored_pair) (units : list code_unit)
    (threshold : R) :
  Forall (fun c => 2 <= memberCount (c_info c)
                   /\ 2 <= List.length (members (c_info c)))
    (compute_clusters connected_components greedy_modularity_communities
       scored_pairs units threshold).
Proof.
  apply Forall_forall. intros c Hc. unfold compute_clusters in Hc.
  apply rank_clusters_from in Hc. apply in_map_iff in Hc.
  destruct Hc as [community [Heq Hin]]. apply filter_In in Hin.
  destruct Hin as [_ Hsize]. apply Nat.leb_le in Hsize.
  rewrite <- Heq, memberCount_enrich, members_enrich_length. split; assumption.
Qed.

End ClusterSizeFacts.

(** ** Artifact writing *)

Module IoFacts.
Import Py PyFacts IoUtils.

Lemma append_assoc (a b c : string) : ((a ++ b) ++ c = a ++ (b ++ c))%string.
Proof. induction a as [|x a IH]; simpl; [reflexivity|now rewrite IH]. Qed.

Lemma append_empty_r (a : string) : (a ++ "" = a)%string.
Proof. induction a as [|x a IH]; simpl; [reflexivity|now rewrite IH]. Qed.

Lemma content_write_chunk_same (path chunk : string) (fs : filesystem) :
  content (write_chunk path chunk fs) path
  = Some (get_or (files fs) path "" ++ chunk)%string.
Proof. unfold content, write_chunk. simpl. apply get_setitem_same. Qed.

Lemma content_write_chunk_other (path chunk p : string) (fs : filesystem) :
  p <> path -> content (write_chunk path chunk fs) p = content fs p.
Proof.
  intros Hne. unfold content, write_chunk. simpl.
  apply get_setitem_other. congruence.
Qed.

(** While the chunks are written, the destination holds what was there
    when the loop started followed by the chunks written so far, and no
    other path changes. *)
Lemma write_chunks_states (path : string) (chunks : list string)
    (fs : filesystem) (c : string) :
  content fs path = Some c ->
  forall fs', In fs' (write_chunks path chunks fs) ->
    (exists k, content fs' path = Some (c ++ joined (firstn k chunks))%string)
    /\ (forall p, p <> path -> content fs' p = content fs p).
Proof.
  revert fs c. induction chunks as [|chunk rest IH]; intros fs c Hc fs' Hin;
    simpl in Hin; [destruct Hin|].
  assert (content (write_chunk path chunk fs) path = Some (c ++ chunk)%string)
    as Hstep.
  { rewrite content_write_chunk_same. unfold content in Hc.
    unfold get_or. now rewrite Hc. }
  destruct Hin as [<-|Hin].
  - split.
    + exists 1. simpl. now rewrite append_empty_r.
    + intros p Hp. now apply content_write_chunk_other.
  - destruct (IH _ _ Hstep fs' Hin) as [[k Hk] Hother]. split.
    + exists (S k). simpl. now rewrite <- append_assoc.
    + intros p Hp. rewrite (Hother p Hp).
      now apply content_write_chunk_other.
Qed.

Lemma last_cons {A} (x d : A) (l : list A) : last (x :: l) d = last l x.
Proof.
  revert x d. induction l as [|y l IH]; intros x d; [reflexivity|].
  change (last (x :: y :: l) d) with (last (y :: l) d).
  now rewrite !IH.
Qed.

Lemma write_chunks_last (path : string) (chunks : list string)
    (fs : filesystem) (c : string) :
  content fs path = Some c ->
  content (last (write_chunks path chunks fs) fs) path
  = Some (c ++ joined chunks)%string.
Proof.
  revert fs c. induction chunks as [|chunk rest IH]; intros fs c Hc.
  - simpl. now rewrite append_empty_r.
  - assert (content (write_chunk path chunk fs) path
            = Some (c ++ chunk)%string) as Hstep.
    { rewrite content_write_chunk_same. unfold content in Hc.
      unfold get_or. now rewrite Hc. }
    cbn [write_chunks joined fold_right]. rewrite last_cons.
    rewrite (IH _ _ Hstep). now rewrite append_assoc.
Qed.

Lemma content_open_w_same (path : string) (fs : filesystem) :
  content (open_w path fs) path = Some "".
Proof. unfold content, open_w. simpl. apply get_setitem_same. Qed.

Lemma content_open_w_other (path p : string) (fs : filesystem) :
  p <> path -> content (open_w path fs) p = content fs p.
Proof.
  intros Hne. unfold content, open_w. simpl.
  apply get_setitem_other. congruence.
Qed.

Lemma content_ensure_output_dir (output_dir p : string) (fs : filesystem) :
  content (ensure_output_dir output_dir fs) p = content fs p.
Proof.
  unfold ensure_output_dir. now destruct (mem output_dir (dirs fs)).
Qed.

(** C4 (as amended).  [write_artifact] writes in place.  When it returns,
    the artifact path holds the complete serialisation.  While it runs, no
    other path changes (there is no temporary file, hence no rename), and
    from the moment the destination is opened it holds a prefix of the
    serialisation: first nothing, then the chunks written so far. *)
Theorem write_artifact_in_place (name : string) (chunks : list string)
    (output_dir : string) (fs : filesystem) :
  let path := path_join output_dir name in
  content (write_artifact name chunks output_dir fs) path
    = Some (joined chunks)
  /\ (forall fs' p,
        In fs' (write_artifact_states name chunks output_dir fs) ->
        p <> path -> content fs' p = content fs p)
  /\ (forall fs',
        In fs' (tl (write_artifact_states name chunks output_dir fs)) ->
        exists k, content fs' path = Some (joined (firstn k chunks))).
Proof.
  intros path. unfold write_artifact, write_artifact_states. fold path.
  set (fs1 := ensure_output_dir output_dir fs).
  set (fs2 := open_w path fs1).
  assert (content fs2 path = Some "") as H2
    by (apply content_open_w_same).
  assert (forall p, p <> path -> content fs2 p = content fs p) as H2o.
  { intros p Hp. unfold fs2. rewrite content_open_w_other by assumption.
    apply content_ensure_output_dir. }
  split; [|split].
  - rewrite !last_cons.
    now rewrite (write_chunks_last path chunks fs2 "" H2).
  - intros fs' p [<-|[<-|Hin]] Hp.
    + apply content_ensure_output_dir.
    + now apply H2o.
    + destruct (write_chunks_states path chunks fs2 "" H2 fs' Hin) as [_ Ho].
      rewrite (Ho p Hp). now apply H2o.
  - cbn [tl]. intros fs' [<-|Hin].
    + exists 0. exact H2.
    + destruct (write_chunks_states path chunks fs2 "" H2 fs' Hin) as [Hk _].
      exact Hk.
Qed.

(** C4, as stated, fails: rewriting an artifact that held ["[]"] with the
    chunks ["["], ["1"], ["]"] passes through states in which the artifact
    path holds neither the old content nor the new one. *)
Lemma write_artifact_not_atomic_counterexample :
  ~ atomic_write "clusters.json" ["["; "1"; "]"] "out"
      {| dirs := ["out"]; files := [("out/clusters.json", "[]")] |}.
Proof.
  unfold atomic_write. intros H.
  specialize (H {| dirs := ["out"]; files := [("out/clusters.json", "")] |}).
  destruct H as [H|H].
  - right. left. reflexivity.
  - vm_compute in H. discriminate.
  - vm_compute in H. discriminate.
Qed.

End IoFacts.

(** ** Results keyed by unit id *)

Module ByIdFacts.
Import Py PyFacts.

Lemma truthy_true (s : string) : s <> "" -> truthy s = true.
Proof. destruct s; [congruence|reflexivity]. Qed.

Lemma truthy_nonempty (s : string) : truthy s = true -> s <> "".
Proof. destruct s; [discriminate|discriminate]. Qed.

Section Fold.
Context {V : Type} (f : code_unit -> V).

(** The loop [for unit in units: if uid: result[uid] = f(unit)]. *)
Local Abbreviation by_id units acc :=
  (fold_left
     (fun result unit =>
        if truthy (u_id unit) then setitem result (u_id unit) (f unit)
        else result)
     units acc).

Lemma by_id_other (units : list code_unit) (acc : dict V) (k : string) :
  ~ In k (map u_id units) -> get (by_id units acc) k = get acc k.
Proof.
  revert acc. induction units as [|x units IH]; intros acc Hk; simpl;
    [reflexivity|].
  simpl in Hk. rewrite IH by tauto.
  destruct (truthy (u_id x)); [|reflexivity].
  apply get_setitem_other. tauto.
Qed.

(** With unique ids, the entry of a unit is what the loop computed for it. *)
Lemma by_id_get (units : list code_unit) (acc : dict V) (u : code_unit) :
  NoDup (map u_id units) -> In u units -> u_id u <> "" ->
  get (by_id units acc) (u_id u) = Some (f u).
Proof.
  revert acc. induction units as [|x units IH]; intros acc Hnd Hin Hid;
    [destruct Hin|].
  simpl in Hnd. inversion Hnd as [|? ? Hnotin Hnd']; subst.
  destruct Hin as [->|Hin].
  - simpl. rewrite by_id_other by assumption.
    rewrite truthy_true by assumption. apply get_setitem_same.
  - simpl. now apply IH.
Qed.

(** Every key of the result is the id of some unit, or was there before. *)
Lemma by_id_keys (units : list code_unit) (acc : dict V) (k : string) :
  In k (keys (by_id units acc)) ->
  In k (keys acc) \/ (In k (map u_id units) /\ k <> "").
Proof.
  revert acc. induction units as [|x units IH]; intros acc; simpl; [tauto|].
  intros H. apply IH in H.
  destruct H as [H|[H1 H2]]; [|tauto].
  destruct (truthy (u_id x)) eqn:E; [|tauto].
  apply keys_setitem_In in H. destruct H as [->|H]; [|tauto].
  right. split; [now left|now apply truthy_nonempty].
Qed.

End Fold.
End ByIdFacts.

(** ** Neighbourhood hashes *)

Module NeighborhoodFacts.
Import Py PyFacts ByIdFacts Depcontext.
Local Open Scope R_scope.

Section Hashing.
Variable _sha256 : json -> string.
(** A hex digest has 64 characters: it is never the empty string. *)
Hypothesis digest_nonempty : forall o, _sha256 o <> "".

(** A unit that nobody consumes has an empty neighbourhood at radius 1. *)
Lemma neighborhood_hash_no_consumers (uid : string) (consumer_graph : dict pyset) :
  get consumer_graph uid = Some [] ->
  neighborhood_hash _sha256 uid consumer_graph 1 = _sha256 (JList []).
Proof.
  intros Hg. unfold neighborhood_hash, search, expand. simpl.
  unfold get_or. rewrite Hg. simpl.
  unfold diff. simpl. unfold mem. simpl. rewrite String.eqb_refl. reflexivity.
Qed.

Lemma consumer_graph_get (units : list code_unit) (u : code_unit) :
  NoDup (map u_id units) -> In u units -> u_id u <> "" ->
  get (_build_consumer_graph units) (u_id u)
  = Some (consumer_ids (u_consumers u)).
Proof.
  intros. unfold _build_consumer_graph.
  exact (by_id_get (fun u => consumer_ids (u_consumers u)) units [] u
           ltac:(assumption) ltac:(assumption) ltac:(assumption)).
Qed.

Lemma dep_context_r1 (units : list code_unit) (u : code_unit) :
  NoDup (map u_id units) -> In u units -> u_id u <> "" ->
  option_map neighborhoodHash_r1
    (get (compute_dep_context _sha256 units) (u_id u))
  = Some (neighborhood_hash _sha256 (u_id u) (_build_consumer_graph units) 1).
Proof.
  intros Hnd Hin Hid. unfold compute_dep_context.
  rewrite (by_id_get
             (fun unit =>
                {| consumerProfile := consumer_profile unit;
                   cooccurrenceVector := cooccurrence_vector unit;
                   neighborhoodHash_r1 :=
                     neighborhood_hash _sha256 (u_id unit)
                       (_build_consumer_graph units) 1;
                   neighborhoodHash_r2 :=
                     neighborhood_hash _sha256 (u_id unit)
                       (_build_consumer_graph units) 2 |})
             units [] u Hnd Hin Hid).
  reflexivity.
Qed.

(** A unit without consumers gets the digest of the empty list. *)
Lemma dep_context_r1_no_consumers (units : list code_unit) (u : code_unit) :
  NoDup (map u_id units) -> In u units -> u_id u <> "" ->
  u_consumers u = [] ->
  option_map neighborhoodHash_r1
    (get (compute_dep_context _sha256 units) (u_id u))
  = Some (_sha256 (JList [])).
Proof.
  intros Hnd Hu Hid Hc. rewrite dep_context_r1 by assumption.
  f_equal. apply neighborhood_hash_no_consumers.
  rewrite consumer_graph_get by assumption. now rewrite Hc.
Qed.

(** Two units with the same digest at radius 1 have neighbourhood
    signal 1. *)
Lemma sig_neighborhood_same_r1 (dc : dict depctx) (uid_a uid_b : string)
    (o : json) :
  option_map neighborhoodHash_r1 (get dc uid_a) = Some (_sha256 o) ->
  option_map neighborhoodHash_r1 (get dc uid_b) = Some (_sha256 o) ->
  Score.sig_neighborhood uid_a uid_b dc = 1.
Proof.
  intros H1 H2. unfold Score.sig_neighborhood. rewrite H1, H2.
  unfold Score.same_hash_opt, Score.same_hash.
  rewrite truthy_true by apply digest_nonempty.
  now rewrite String.eqb_refl.
Qed.

(** C10.  In an inventory with unique, non-empty ids, two units whose
    [consumers] list is empty get the same [neighborhoodHash_r1], the
    digest of the empty list, and the neighbourhood signal of the pair
    is 1. *)
Theorem empty_consumers_same_neighborhood (units : list code_unit)
    (ua ub : code_unit) :
  NoDup (map u_id units) ->
  In ua units -> In ub units ->
  u_id ua <> "" -> u_id ub <> "" ->
  u_consumers ua = [] -> u_consumers ub = [] ->
  let dc := compute_dep_context _sha256 units in
  option_map neighborhoodHash_r1 (get dc (u_id ua)) = Some (_sha256 (JList []))
  /\ option_map neighborhoodHash_r1 (get dc (u_id ub))
     = Some (_sha256 (JList []))
  /\ Score.sig_neighborhood (u_id ua) (u_id ub) dc = 1.
Proof.
  intros Hnd Ha Hb Hida Hidb Hca Hcb dc.
  pose proof (dep_context_r1_no_consumers units ua Hnd Ha Hida Hca) as H1.
  pose proof (dep_context_r1_no_consumers units ub Hnd Hb Hidb Hcb) as H2.
  split; [assumption|split; [assumption|]].
  exact (sig_neighborhood_same_r1 dc (u_id ua) (u_id ub) (JList []) H1 H2).
Qed.

End Hashing.

(** C10 on an inventory of two functions without consumers. *)
Lemma empty_consumers_same_neighborhood_witness :
  let units :=
    [plain_unit "a.ts::f" "function" "a.ts";
     plain_unit "b.ts::g" "function" "b.ts"] in
  let dc := compute_dep_context Digest.digest units in
  option_map neighborhoodHash_r1 (get dc "a.ts::f")
    = Some (Digest.digest (JList []))
  /\ option_map neighborhoodHash_r1 (get dc "b.ts::g")
     = Some (Digest.digest (JList []))
  /\ Score.sig_neighborhood "a.ts::f" "b.ts::g" dc = 1.
Proof.
  apply (empty_consumers_same_neighborhood Digest.digest
           (fun o => ltac:(discriminate))
           [plain_unit "a.ts::f" "function" "a.ts";
            plain_unit "b.ts::g" "function" "b.ts"]
           (plain_unit "a.ts::f" "function" "a.ts")
           (plain_unit "b.ts::g" "function" "b.ts")).
  - repeat constructor; simpl; intuition discriminate.
  - simpl. tauto.
  - simpl. tauto.
  - discriminate.
  - discriminate.
  - reflexivity.
  - reflexivity.
Defined.

End NeighborhoodFacts.

(** ** Consumer profiles *)

Module ProfileFacts.
Import Py PyFacts NumFacts Depcontext DepcontextSpec.
Local Open Scope R_scope.

Lemma ln2_pos : 0 < ln 2.
Proof. rewrite <- ln_1. apply ln_increasing; lra. Qed.

Lemma ln_le (x y : R) : 0 < x -> x <= y -> ln x <= ln y.
Proof.
  intros Hx [Hlt|<-]; [|lra]. left. now apply ln_increasing.
Qed.

Lemma ln_nonneg (x : R) : 1 <= x -> 0 <= ln x.
Proof. intros Hx. rewrite <- ln_1. apply ln_le; lra. Qed.

(** [ln x <= x - 1] for positive [x]. *)
Lemma ln_le_minus_1 (x : R) : 0 < x -> ln x <= x - 1.
Proof.
  intros Hx. pose proof (exp_ineq1_le (ln x)) as H.
  rewrite exp_ln in H by assumption. lra.
Qed.

Lemma In_le_list_sum (c : nat) (l : list nat) :
  In c l -> (c <= list_sum l)%nat.
Proof.
  induction l as [|x l IH]; simpl; [tauto|].
  intros [->|H]; [lia|]. apply IH in H. lia.
Qed.

Lemma list_sum_zero (l : list nat) :
  list_sum l = 0%nat -> forall c, In c l -> c = 0%nat.
Proof.
  intros H c Hc. apply In_le_list_sum in Hc. lia.
Qed.

(** The loop of [_shannon_entropy], as a sum. *)
Lemma entropy_loop (total : nat) (l : list nat) (acc : R) :
  fold_left
    (fun entropy count =>
       if Nat.ltb 0 count
       then entropy - INR count / INR total * log2 (INR count / INR total)
       else entropy)
    l acc
  = acc - Rsum (map (fun count =>
                       if Nat.eqb count 0 then 0
                       else (INR count / INR total)
                            * log2 (INR count / INR total)) l).
Proof.
  revert acc. induction l as [|c l IH]; intros acc; cbn [fold_left map].
  - rewrite Rsum_nil. lra.
  - rewrite Rsum_cons, IH.
    destruct c as [|c']; cbn [Nat.ltb Nat.leb Nat.eqb]; lra.
Qed.

(** The code computes the entropy of the specification. *)
Lemma shannon_entropy_spec (counts : dict nat) :
  _shannon_entropy counts = shannon_entropy_base2 counts.
Proof.
  unfold _shannon_entropy, shannon_entropy_base2.
  destruct (Nat.eqb (list_sum (values counts)) 0) eqn:E.
  - apply Nat.eqb_eq in E.
    rewrite (Rsum_map_ext _ (fun _ => 0) (values counts)).
    + rewrite Rsum_map_zero. lra.
    + intros c Hc. rewrite (list_sum_zero _ E c Hc). reflexivity.
  - rewrite entropy_loop. lra.
Qed.

(** The share of a kind that occurs lies in (0, 1]. *)
Lemma share_bounds (c total : nat) :
  (0 < c)%nat -> (c <= total)%nat -> 0 < INR c / INR total <= 1.
Proof.
  intros Hc Hle.
  assert (0 < INR c) by (apply lt_0_INR; assumption).
  assert (INR c <= INR total) by (apply le_INR; assumption).
  split.
  - apply Rdiv_lt_0_compat; lra.
  - apply Rmult_le_reg_r with (INR total); [lra|].
    unfold Rdiv. rewrite Rmult_assoc, Rinv_l by lra. lra.
Qed.

Lemma entropy_nonneg (counts : dict nat) :
  0 <= shannon_entropy_base2 counts.
Proof.
  unfold shannon_entropy_base2.
  set (total := list_sum (values counts)).
  assert (Rsum (map (fun count =>
                       if Nat.eqb count 0 then 0
                       else INR count / INR total * log2 (INR count / INR total))
                  (values counts))
          <= Rsum (map (fun _ => 0) (values counts))) as H.
  { apply Rsum_map_le. intros c Hc. destruct (Nat.eqb_spec c 0); [lra|].
    destruct (share_bounds c total) as [Hp0 Hp1];
      [lia|now apply In_le_list_sum|].
    assert (ln (INR c / INR total) <= 0).
    { pose proof (ln_le_minus_1 _ Hp0). lra. }
    unfold log2. pose proof ln2_pos.
    assert (ln (INR c / INR total) / ln 2 <= 0).
    { apply Rmult_le_reg_r with (ln 2); [assumption|].
      unfold Rdiv. rewrite Rmult_assoc, Rinv_l by lra. lra. }
    nra. }
  rewrite Rsum_map_zero in H. lra.
Qed.

(** Sums over the kinds that occur. *)
Lemma Rsum_shares (total : nat) (l : list nat) :
  Rsum (map (fun c => if Nat.eqb c 0 then 0 else INR c / INR total) l)
  = INR (list_sum l) / INR total.
Proof.
  induction l as [|c l IH]; simpl.
  - rewrite Rsum_nil. unfold Rdiv. lra.
  - rewrite Rsum_cons, IH, plus_INR. destruct c.
    + simpl. unfold Rdiv. lra.
    + cbn [Nat.eqb]. unfold Rdiv. lra.
Qed.

Lemma Rsum_occurring (x : R) (l : list nat) :
  Rsum (map (fun c => if Nat.eqb c 0 then 0 else x) l)
  = INR (List.length (filter (fun c => Nat.ltb 0 c) l)) * x.
Proof.
  induction l as [|c l IH]; simpl.
  - rewrite Rsum_nil. lra.
  - rewrite Rsum_cons, IH. destruct c.
    + simpl. lra.
    + cbn [Nat.eqb Nat.ltb Nat.leb List.length]. rewrite S_INR. lra.
Qed.

Lemma Rsum_map_opp_occurring (f : nat -> R) (l : list nat) :
  - Rsum (map (fun c => if Nat.eqb c 0 then 0 else f c) l)
  = Rsum (map (fun c => if Nat.eqb c 0 then 0 else - f c) l).
Proof.
  induction l as [|c l IH]; simpl.
  - rewrite !Rsum_nil. lra.
  - rewrite !Rsum_cons, <- IH. destruct (Nat.eqb c 0); lra.
Qed.

Lemma Rsum_map_split {A} (f g h : A -> R) (k d : R) (l : list A) :
  Rsum (map (fun c => f c * k + (g c - h c) / d) l)
  = Rsum (map f l) * k + (Rsum (map g l) - Rsum (map h l)) / d.
Proof.
  induction l as [|c l IH]; simpl.
  - rewrite !Rsum_nil. unfold Rdiv. lra.
  - rewrite !Rsum_cons, IH. unfold Rdiv. lra.
Qed.

(** Gibbs' inequality: the entropy of a distribution over [k] occurring
    kinds is at most [log2 k]. *)
Lemma entropy_le_log2 (counts : dict nat) :
  shannon_entropy_base2 counts
  <= log2 (INR (Nat.max (occurring_kinds counts) 1)).
Proof.
  unfold shannon_entropy_base2, occurring_kinds.
  set (l := values counts). set (total := list_sum l).
  set (m := List.length (filter (fun c => Nat.ltb 0 c) l)).
  pose proof ln2_pos as Hln2.
  destruct (Nat.eq_dec total 0) as [Hz|Hnz].
  - (* nothing occurs *)
    rewrite (Rsum_map_ext _ (fun _ => 0) l).
    + rewrite Rsum_map_zero. unfold log2.
      assert (0 <= ln (INR (Nat.max m 1))).
      { apply ln_nonneg. change 1 with (INR 1). apply le_INR. lia. }
      assert (0 <= ln (INR (Nat.max m 1)) / ln 2); [|lra].
      apply Rmult_le_pos; [assumption|]. left. now apply Rinv_0_lt_compat.
    + intros c Hc. unfold total in Hz. rewrite (list_sum_zero _ Hz c Hc).
      reflexivity.
  - (* some kind occurs *)
    assert (0 < m)%nat as Hm.
    { unfold m. destruct (filter (fun c => Nat.ltb 0 c) l) as [|c0 f0] eqn:E;
        [|simpl; lia].
      exfalso. apply Hnz. unfold total.
      assert (forall c, In c l -> c = 0%nat) as Hall.
      { intros c Hc. destruct c; [reflexivity|].
        assert (In (S c) (filter (fun c => Nat.ltb 0 c) l)) as Hin
          by (apply filter_In; split; [assumption|reflexivity]).
        rewrite E in Hin. destruct Hin. }
      clear -Hall. induction l as [|c l IH]; [reflexivity|].
      simpl. rewrite (Hall c) by now left. apply IH. intros; apply Hall; now right. }
    replace (Nat.max m 1) with m by lia.
    assert (0 < INR m) as HmR by (apply lt_0_INR; assumption).
    assert (0 < INR total) as HtR by (apply lt_0_INR; lia).
    (* term by term: -p log2 p <= p log2 m + (1/m - p) / ln 2 *)
    rewrite (Rsum_map_opp_occurring
               (fun count => INR count / INR total
                             * log2 (INR count / INR total))).
    apply Rle_trans with
      (Rsum (map (fun c =>
                    (if Nat.eqb c 0 then 0 else INR c / INR total) * log2 (INR m)
                    + ((if Nat.eqb c 0 then 0 else / INR m)
                       - (if Nat.eqb c 0 then 0 else INR c / INR total)) / ln 2)
               l)).
    + apply Rsum_map_le. intros c Hc. destruct (Nat.eqb_spec c 0) as [->|Hc0].
      * unfold Rdiv. lra.
      * destruct (share_bounds c total) as [Hp0 Hp1];
          [lia|now apply In_le_list_sum|].
        set (p := INR c / INR total) in *.
        assert (ln (/ (INR m * p)) <= / (INR m * p) - 1) as Hln.
        { apply ln_le_minus_1. apply Rinv_0_lt_compat. nra. }
        rewrite ln_Rinv in Hln by nra. rewrite ln_mult in Hln by assumption.
        unfold log2.
        assert (p * (/ (INR m * p) - 1) = / INR m - p) as Hid
          by (field; lra).
        assert (- (p * (ln p / ln 2))
                - (p * (ln (INR m) / ln 2) + (/ INR m - p) / ln 2)
                = (p * (- (ln (INR m) + ln p)) - (/ INR m - p)) / ln 2) as Heq
          by (field; lra).
        assert (p * (- (ln (INR m) + ln p)) - (/ INR m - p) <= 0) by nra.
        assert ((p * (- (ln (INR m) + ln p)) - (/ INR m - p)) / ln 2 <= 0).
        { unfold Rdiv. apply Rmult_le_reg_r with (ln 2); [assumption|].
          rewrite Rmult_assoc, Rinv_l by lra. lra. }
        lra.
    + (* the bounding sum is log2 m *)
      rewrite (Rsum_map_split
                 (fun c => if Nat.eqb c 0 then 0 else INR c / INR total)
                 (fun c => if Nat.eqb c 0 then 0 else / INR m)
                 (fun c => if Nat.eqb c 0 then 0 else INR c / INR total)).
      rewrite Rsum_shares, Rsum_occurring. fold m. fold total.
      assert (INR total / INR total = 1) as -> by (field; lra).
      assert (INR m * / INR m = 1) as -> by (field; lra).
      unfold Rdiv. lra.
Qed.

Lemma log2_2 : log2 2 = 1.
Proof. unfold log2. field. pose proof ln2_pos. lra. Qed.



End ProfileFacts.

(** ** Sparse vectors: which values are stored *)

Module SparseFacts.
Import Py PyFacts NumFacts Fingerprint.
Local Open Scope R_scope.

(** What a loop with a [seen] set keeps. *)
Lemma In_unseen (x : string) (l : list string) :
  forall seen, In x (Callgraph.unseen seen l) <-> In x l /\ ~ In x seen.
Proof.
  induction l as [|y l IH]; intros seen; cbn [Callgraph.unseen].
  - simpl. tauto.
  - destruct (mem y seen) eqn:Hy.
    + apply mem_In in Hy. rewrite IH. simpl.
      split; [tauto|]. intros [[<-|H] Hx]; tauto.
    + assert (~ In y seen) as Hy'.
      { intros H. apply mem_In in H. congruence. }
      simpl. rewrite IH. simpl. split.
      * intros [<-|[H Hx]]; tauto.
      * intros [[<-|H] Hx]; [tauto|].
        destruct (string_dec y x) as [<-|Hne]; [tauto|right; tauto].
Qed.

Lemma NoDup_unseen (l : list string) :
  forall seen, NoDup (Callgraph.unseen seen l).
Proof.
  induction l as [|y l IH]; intros seen; cbn [Callgraph.unseen].
  - constructor.
  - destruct (mem y seen); [apply IH|].
    constructor; [|apply IH]. rewrite In_unseen. simpl. tauto.
Qed.

Lemma NoDup_unit_targets (u : code_unit) : NoDup (Callgraph.unit_targets u).
Proof. apply NoDup_unseen. Qed.

(** The targets of a unit are the non-empty targets of its callees. *)
Lemma In_unit_targets (u : code_unit) (k : string) :
  In k (Callgraph.unit_targets u)
  <-> truthy k = true /\ In k (map Callgraph.callee_target (u_callees u)).
Proof.
  unfold Callgraph.unit_targets. rewrite In_unseen, filter_In.
  simpl. tauto.
Qed.

Lemma get_map_values {V W} (f : V -> W) (d : dict V) (k : string) :
  get (map_values f d) k = option_map f (get d k).
Proof.
  induction d as [|[k' v] d IH]; simpl; [reflexivity|].
  destruct (String.eqb k' k); [reflexivity|assumption].
Qed.

Lemma count_access_ge_1 (prefix : string) (entries : list name_entry)
    (vec : dict R) :
  Forall (fun v => 1 <= v) (values vec) ->
  Forall (fun v => 1 <= v) (values (count_access prefix entries vec)).
Proof.
  unfold count_access. revert vec.
  induction entries as [|e entries IH]; intros vec Hvec; simpl; [assumption|].
  apply IH. destruct (truthy (entry_name e)); [|assumption].
  apply Forall_values_setitem; [assumption|].
  assert (0 <= get_or vec (prefix ++ entry_name e) 0).
  { apply get_or_nonneg. eapply Forall_impl; [|exact Hvec].
    simpl. intros; lra. }
  lra.
Qed.

Lemma idf_weighted_nonneg (idf : dict R) (ks : list string) :
  (forall k v, get idf k = Some v -> 0 <= v) ->
  Forall (fun v => 0 <= v) (values (idf_weighted idf ks)).
Proof.
  intros Hidf. unfold idf_weighted.
  assert (forall vec, Forall (fun v => 0 <= v) (values vec) ->
            Forall (fun v => 0 <= v)
              (values (fold_left
                 (fun vec k =>
                    if truthy k && contains idf k
                    then setitem vec k (get_or vec k 0 + get_or idf k 0)
                    else vec) ks vec))) as H.
  { induction ks as [|k ks IH]; intros vec Hvec; simpl; [assumption|].
    apply IH. destruct (truthy k && contains idf k); [|assumption].
    apply Forall_values_setitem; [assumption|].
    pose proof (get_or_nonneg vec k Hvec).
    assert (0 <= get_or idf k 0).
    { unfold get_or. destruct (get idf k) eqn:E; [eapply Hidf, E|lra]. }
    lra. }
  apply H. constructor.
Qed.

(** Counting each key of a duplicate-free list once raises a count by at
    most one. *)
Lemma count_each_bounds (xs : list string) (counts : dict nat) (n : nat) :
  NoDup xs ->
  (forall k c, get counts k = Some c ->
     (1 <= c <= S n)%nat /\ (In k xs -> (c <= n)%nat)) ->
  forall k c, get (count_each counts xs) k = Some c -> (1 <= c <= S n)%nat.
Proof.
  unfold count_each. revert counts.
  induction xs as [|x xs IH]; intros counts Hnd Hinv k c; simpl.
  - intros H. now apply Hinv in H.
  - inversion Hnd as [|? ? Hnotin Hnd']; subst. apply IH; [assumption|].
    intros k' c' Hget. destruct (string_dec x k') as [->|Hne].
    + rewrite get_setitem_same in Hget. injection Hget as <-.
      split; [|tauto]. unfold get_or.
      destruct (get counts k') as [c0|] eqn:E; [|lia].
      destruct (Hinv _ _ E) as [H1 H2]. specialize (H2 (or_introl eq_refl)).
      lia.
    + rewrite get_setitem_other in Hget by assumption.
      destruct (Hinv _ _ Hget) as [H1 H2]. split; [assumption|].
      intros Hin. apply H2. now right.
Qed.

(** The document count of a key is between 1 and the number of units. *)
Lemma doc_counts_bounds (keys_of : code_unit -> list string)
    (units : list code_unit) (counts : dict nat) (n : nat) :
  (forall u, NoDup (keys_of u)) ->
  (forall k c, get counts k = Some c -> (1 <= c <= n)%nat) ->
  forall k c,
    get (fold_left (fun counts u => count_each counts (keys_of u)) units counts)
      k = Some c ->
    (1 <= c <= n + List.length units)%nat.
Proof.
  intros Hnd. revert counts n.
  induction units as [|u units IH]; intros counts n Hinv k c; simpl.
  - intros H. apply Hinv in H. lia.
  - intros H. apply (IH _ (S n)) in H; [lia|].
    apply count_each_bounds; [apply Hnd|].
    intros k' c' Hget. apply Hinv in Hget. split; lia.
Qed.

Lemma ln_nonneg_ratio (n c : nat) :
  (1 <= c)%nat -> (c <= n)%nat -> 0 <= ln (INR n / INR c).
Proof.
  intros Hc Hn.
  assert (0 < INR c) by (apply lt_0_INR; lia).
  assert (INR c <= INR n) by (apply le_INR; assumption).
  rewrite <- ln_1.
  assert (1 <= INR n / INR c) as H1.
  { apply Rmult_le_reg_r with (INR c); [assumption|].
    unfold Rdiv. rewrite Rmult_assoc, Rinv_l by lra. lra. }
  destruct H1 as [H1|<-]; [|lra]. left. apply ln_increasing; lra.
Qed.

(** An inverse document frequency is never negative. *)
Lemma idf_nonneg (keys_of : code_unit -> list string)
    (units : list code_unit) (k : string) (v : R) :
  (forall u, NoDup (keys_of u)) ->
  get (idf_of_counts (List.length units)
         (fold_left (fun counts u => count_each counts (keys_of u)) units []))
    k = Some v ->
  0 <= v.
Proof.
  intros Hnd. unfold idf_of_counts. rewrite get_map_values.
  destruct (get _ k) as [c|] eqn:E; [|discriminate].
  intros [= <-].
  apply (doc_counts_bounds keys_of units [] 0 Hnd) in E;
    [|intros ? ? H; discriminate].
  simpl in E. apply ln_nonneg_ratio; lia.
Qed.

(** The signs of the stored values.  [dataAccessPattern] stores occurrence
    counts: every stored value is at least 1.  [importConstellation] and
    [calleeSetVector] store sums of inverse document frequencies, which
    are never negative. *)
Lemma sparse_vector_signs (units : list code_unit) (unit : code_unit) :
  Forall (fun kv => 1 <= snd kv) (data_access_pattern unit)
  /\ Forall (fun kv => 0 <= snd kv)
       (import_constellation unit (_compute_idf units))
  /\ Forall (fun kv => 0 <= snd kv)
       (Callgraph.callee_set_vector unit (Callgraph._compute_callee_idf units)).
Proof.
  split; [|split].
  - apply Forall_snd_values. unfold data_access_pattern.
    apply count_access_ge_1, count_access_ge_1. constructor.
  - apply Forall_snd_values. unfold import_constellation.
    apply idf_weighted_nonneg. intros k v. unfold _compute_idf.
    destruct (Nat.eqb (List.length units) 0); [discriminate|].
    apply (idf_nonneg unit_sources). intros u. apply NoDup_nodup.
  - apply Forall_snd_values. unfold Callgraph.callee_set_vector.
    apply idf_weighted_nonneg. intros k v. unfold Callgraph._compute_callee_idf.
    destruct (Nat.eqb (List.length units) 0); [discriminate|].
    apply (idf_nonneg Callgraph.unit_targets). intros u.
    apply NoDup_unit_targets.
Qed.


End SparseFacts.

(** ** Signals and scores lie in the unit interval *)

Module BoundsFacts.
Import Py PyFacts NumFacts SortFacts Vectors Similarity Score.
Local Open Scope R_scope.

Lemma ratio_unit_interval (i u : nat) :
  (i <= u)%nat -> (0 < u)%nat -> 0 <= INR i / INR u <= 1.
Proof.
  intros Hle Hpos.
  assert (0 < INR u) by (apply lt_0_INR; assumption).
  assert (0 <= INR i) by apply pos_INR.
  assert (INR i <= INR u) by (apply le_INR; assumption).
  split.
  - apply Rmult_le_pos; [assumption|]. left. now apply Rinv_0_lt_compat.
  - apply Rmult_le_reg_r with (INR u); [assumption|].
    unfold Rdiv. rewrite Rmult_assoc, Rinv_l by lra. lra.
Qed.

Lemma clamp_unit_interval (x : R) : 0 <= Rmax 0 (Rmin 1 x) <= 1.
Proof.
  split; [apply Rmax_l|]. apply Rmax_lub; [lra|apply Rmin_l].
Qed.

Lemma cosine_sim_bounds (a b : SparseVector) : 0 <= cosine_sim a b <= 1.
Proof.
  unfold cosine_sim. destruct (is_empty a || is_empty b); [lra|].
  destruct (Reqb (magnitude a) 0 || Reqb (magnitude b) 0); [lra|].
  apply clamp_unit_interval.
Qed.

Lemma jaccard_sim_bounds (a b : pyset) : 0 <= jaccard_sim a b <= 1.
Proof.
  unfold jaccard_sim. destruct (is_empty a && is_empty b); [lra|].
  destruct (Nat.eqb_spec (card (union a b)) 0) as [|Hne]; [lra|].
  apply ratio_unit_interval; [|lia].
  apply card_incl. intros x Hx. apply In_inter in Hx. apply In_union. tauto.
Qed.

Lemma mismatch_count_le (a b : list Z) :
  (mismatch_count a b <= Nat.min (List.length a) (List.length b))%nat.
Proof.
  unfold mismatch_count. rewrite <- length_combine. apply filter_length_le.
Qed.

Lemma normalized_hamming_bounds (a b : list Z) :
  0 <= normalized_hamming a b <= 1.
Proof.
  unfold normalized_hamming.
  destruct (is_empty a && is_empty b) eqn:Hempty; [lra|].
  pose proof (mismatch_count_le a b) as Hm.
  assert (0 < Nat.max (List.length a) (List.length b))%nat as Hmax.
  { destruct a, b; simpl in *; try discriminate; lia. }
  destruct (Nat.eqb_spec (List.length a) (List.length b)) as [Heq|Hne];
    cbn [negb].
  - destruct (ratio_unit_interval (mismatch_count a b) (List.length a));
      [lia|lia|lra].
  - destruct (ratio_unit_interval
                (Nat.max (List.length a) (List.length b)
                 - Nat.min (List.length a) (List.length b)
                 + mismatch_count a b)
                (Nat.max (List.length a) (List.length b)));
      [lia|lia|lra].
Qed.

Lemma tree_edit_distance_bounds (tree_a tree_b : option jsx) :
  0 <= tree_edit_distance_normalized tree_a tree_b <= 1.
Proof.
  unfold tree_edit_distance_normalized.
  assert (let total :=
            (count_tree_nodes_opt tree_a + count_tree_nodes_opt tree_b)%nat in
          0 <= (if Nat.eqb total 0 then 0
                else Rmin 1 (2 * INR (count_matching_nodes_opt tree_a tree_b)
                             / INR total)) <= 1) as H.
  { intros total. destruct (Nat.eqb_spec total 0) as [|Hne]; [lra|].
    split; [|apply Rmin_l]. apply Rmin_glb; [lra|].
    apply Rmult_le_pos.
    - pose proof (pos_INR (count_matching_nodes_opt tree_a tree_b)). lra.
    - left. apply Rinv_0_lt_compat, lt_0_INR. lia. }
  destruct tree_a, tree_b; exact H.
Qed.

Lemma sig_semantic_bounds uid_a uid_b embeddings :
  0 <= sig_semantic uid_a uid_b embeddings <= 1.
Proof.
  unfold sig_semantic.
  destruct (get embeddings uid_a), (get embeddings uid_b);
    try lra; apply cosine_sim_bounds.
Qed.

Lemma sig_type_signature_bounds uid_a uid_b typesigs :
  0 <= sig_type_signature uid_a uid_b typesigs <= 1.
Proof.
  unfold sig_type_signature.
  destruct (get typesigs uid_a) as [sa|], (get typesigs uid_b) as [sb|];
    try lra.
  destruct (same_hash (strict_hash sa) (strict_hash sb)); [lra|].
  destruct (same_hash (loose_hash sa) (loose_hash sb)); [lra|].
  destruct (Nat.ltb 0 (arity sa) && Nat.eqb (arity sa) (arity sb)); lra.
Qed.

Lemma sig_jsx_structure_bounds uid_a uid_b fps units_by_id :
  0 <= sig_jsx_structure uid_a uid_b fps units_by_id <= 1.
Proof.
  unfold sig_jsx_structure.
  destruct (jsxTree_of units_by_id uid_a), (jsxTree_of units_by_id uid_b);
    try lra.
  destruct (same_hash_opt _ _); [lra|].
  destruct (same_hash_opt _ _); [lra|].
  apply tree_edit_distance_bounds.
Qed.

Lemma sig_hook_profile_bounds uid_a uid_b fps :
  0 <= sig_hook_profile uid_a uid_b fps <= 1.
Proof.
  unfold sig_hook_profile. destruct (_ || _); [lra|apply cosine_sim_bounds].
Qed.

Lemma sig_imports_bounds uid_a uid_b fps :
  0 <= sig_imports uid_a uid_b fps <= 1.
Proof. apply cosine_sim_bounds. Qed.

Lemma sig_data_access_bounds uid_a uid_b fps :
  0 <= sig_data_access uid_a uid_b fps <= 1.
Proof.
  unfold sig_data_access. destruct (_ && _); [lra|apply jaccard_sim_bounds].
Qed.

Lemma sig_behavior_bounds uid_a uid_b fps :
  0 <= sig_behavior uid_a uid_b fps <= 1.
Proof.
  unfold sig_behavior.
  destruct (_ && _); [lra|apply normalized_hamming_bounds].
Qed.

Lemma sig_callee_set_bounds uid_a uid_b cg :
  0 <= sig_callee_set uid_a uid_b cg <= 1.
Proof. apply cosine_sim_bounds. Qed.

Lemma sig_call_sequence_bounds uid_a uid_b cg :
  0 <= sig_call_sequence uid_a uid_b cg <= 1.
Proof.
  unfold sig_call_sequence.
  set (seq_a := match get cg uid_a with
                | Some c => sequenceHashes c | None => [] end).
  set (seq_b := match get cg uid_b with
                | Some c => sequenceHashes c | None => [] end).
  destruct (is_empty (inter (keys seq_a) (keys seq_b))) eqn:Hempty; [lra|].
  destruct (existsb _ _); [lra|].
  assert (card (inter (keys seq_a) (keys seq_b))
          <= Nat.max (List.length seq_a) (List.length seq_b))%nat as Hle.
  { etransitivity; [apply card_incl with (b := keys seq_a)|].
    - intros x Hx. now apply In_inter in Hx.
    - etransitivity; [apply card_le_length|].
      unfold keys. rewrite length_map. lia. }
  assert (0 < Nat.max (List.length seq_a) (List.length seq_b))%nat as Hpos.
  { destruct (card (inter (keys seq_a) (keys seq_b))) eqn:Hc; [|lia].
    apply card_zero in Hc. rewrite Hc in Hempty. discriminate. }
  destruct (ratio_unit_interval _ _ Hle Hpos) as [H0 H1].
  unfold Rdiv in *. rewrite Rmult_assoc. nra.
Qed.

Lemma sig_consumer_set_bounds uid_a uid_b units_by_id :
  0 <= sig_consumer_set uid_a uid_b units_by_id <= 1.
Proof.
  unfold sig_consumer_set. destruct (_ && _); [lra|].
  pose proof (jaccard_sim_bounds (_extract_consumer_ids units_by_id uid_a)
                (_extract_consumer_ids units_by_id uid_b)) as [H0 H1].
  destruct (_ && _); [|lra].
  split; [|apply Rmin_l]. apply Rmin_glb; lra.
Qed.

Lemma sig_cooccurrence_bounds uid_a uid_b dc :
  0 <= sig_cooccurrence uid_a uid_b dc <= 1.
Proof. apply cosine_sim_bounds. Qed.

Lemma sig_neighborhood_bounds uid_a uid_b dc :
  0 <= sig_neighborhood uid_a uid_b dc <= 1.
Proof.
  unfold sig_neighborhood. destruct (same_hash_opt _ _); [lra|].
  destruct (same_hash_opt _ _); lra.
Qed.

Lemma sig_structural_pattern_bounds uid_a uid_b patterns :
  0 <= sig_structural_pattern uid_a uid_b patterns <= 1.
Proof.
  unfold sig_structural_pattern.
  destruct (_ && _); [lra|apply jaccard_sim_bounds].
Qed.

Lemma all_signals_bounds arts units_by_id uid_a uid_b :
  Forall (fun nv => 0 <= snd nv <= 1) (all_signals arts units_by_id uid_a uid_b).
Proof.
  unfold all_signals.
  repeat (apply Forall_cons;
    [ cbn [snd]; first
        [ apply sig_semantic_bounds | apply sig_type_signature_bounds
        | apply sig_jsx_structure_bounds | apply sig_hook_profile_bounds
        | apply sig_imports_bounds | apply sig_data_access_bounds
        | apply sig_behavior_bounds | apply sig_callee_set_bounds
        | apply sig_call_sequence_bounds | apply sig_consumer_set_bounds
        | apply sig_cooccurrence_bounds | apply sig_neighborhood_bounds
        | apply sig_structural_pattern_bounds ]
    | ]).
  apply Forall_nil.
Qed.

(** The loop that fills [signals]: what it keeps, and under which keys. *)
Lemma fill_signals_invariant (weights : dict R) (P : R -> Prop)
    (l : dict R) (acc : dict R) :
  Forall (fun nv => P (snd nv)) l ->
  Forall P (values acc) -> wf_dict acc -> incl (keys acc) (keys weights) ->
  let result :=
    fold_left
      (fun signals name_val =>
         if contains weights (fst name_val)
         then setitem signals (fst name_val) (snd name_val)
         else signals)
      l acc in
  Forall P (values result) /\ wf_dict result
  /\ incl (keys result) (keys weights).
Proof.
  revert acc. induction l as [|[n v] l IH]; intros acc Hl Hacc Hwf Hincl;
    simpl; [tauto|].
  inversion Hl as [|? ? Hv Hl']; subst. cbn [fst snd] in *.
  apply IH; [assumption| | |].
  - destruct (contains weights n); [|assumption].
    now apply Forall_values_setitem.
  - destruct (contains weights n); [|assumption]. now apply wf_setitem.
  - destruct (contains weights n) eqn:E; [|assumption].
    intros x Hx. apply keys_setitem_In in Hx. destruct Hx as [->|Hx]; [|auto].
    unfold contains in E. destruct (get weights n) eqn:G; [|discriminate].
    apply get_In in G. change n with (fst (n, r)). now apply in_map.
Qed.

(** A sum over part of the keys is at most the sum over all of them. *)
Lemma Rsum_incl_le (g : string -> R) (s t : list string) :
  NoDup s -> incl s t -> (forall x, 0 <= g x) ->
  Rsum (map g s) <= Rsum (map g t).
Proof.
  intros Hnd. revert t. induction Hnd as [|x s Hnotin Hnd IH]; intros t Hincl Hg.
  - simpl. rewrite Rsum_nil. apply Rsum_nonneg. apply Forall_forall.
    intros y Hy. apply in_map_iff in Hy. destruct Hy as [z [<- _]]. apply Hg.
  - destruct (in_split x t) as [t1 [t2 ->]]; [apply Hincl; now left|].
    simpl. rewrite map_app. simpl. rewrite Rsum_cons, Rsum_app, Rsum_cons.
    assert (Rsum (map g s) <= Rsum (map g (t1 ++ t2))) as H.
    { apply IH; [|assumption]. intros y Hy.
      assert (In y (t1 ++ x :: t2)) as Hin by (apply Hincl; now right).
      apply in_app_iff in Hin. apply in_app_iff.
      destruct Hin as [Hin|[->|Hin]]; [tauto|contradiction|tauto]. }
    rewrite map_app, Rsum_app in H. lra.
Qed.

Lemma get_or_own_keys (d : dict R) :
  wf_dict d -> map (fun k => get_or d k 0) (keys d) = values d.
Proof.
  unfold wf_dict. induction d as [|[k v] d IH]; intros Hnd; [reflexivity|].
  simpl in Hnd. inversion Hnd as [|? ? Hnotin Hnd']; subst.
  simpl. unfold get_or at 1. simpl. rewrite String.eqb_refl. f_equal.
  rewrite <- (IH Hnd'). apply map_ext_in. intros k' Hk'.
  unfold get_or. simpl. destruct (String.eqb_spec k k') as [->|]; [tauto|].
  reflexivity.
Qed.

(** A weighted sum of values in [[0, 1]] is between 0 and the total
    weight. *)
Lemma weighted_sum_bounds (weights signals : dict R) :
  wf_dict weights -> wf_dict signals ->
  incl (keys signals) (keys weights) ->
  Forall (fun w => 0 <= w) (values weights) ->
  Forall (fun v => 0 <= v <= 1) (values signals) ->
  0 <= weighted_sum weights signals <= Rsum (values weights).
Proof.
  intros Hww Hws Hincl Hw Hs. unfold weighted_sum. split.
  - apply Rsum_nonneg. apply Forall_forall. intros x Hx.
    apply in_map_iff in Hx. destruct Hx as [[n v] [<- Hin]]. cbn [fst snd].
    pose proof (get_or_nonneg weights n Hw).
    rewrite Forall_forall in Hs.
    assert (0 <= v <= 1).
    { apply Hs. unfold values. change v with (snd (n, v)). now apply in_map. }
    nra.
  - apply Rle_trans with
      (Rsum (map (fun nv => get_or weights (fst nv) 0) signals)).
    + apply Rsum_map_le. intros [n v] Hin. cbn [fst snd].
      pose proof (get_or_nonneg weights n Hw).
      rewrite Forall_forall in Hs.
      assert (0 <= v <= 1).
      { apply Hs. unfold values. change v with (snd (n, v)). now apply in_map. }
      nra.
    + rewrite <- (get_or_own_keys weights Hww).
      replace (map (fun nv => get_or weights (fst nv) 0) signals)
        with (map (fun k => get_or weights k 0) (keys signals))
        by (unfold keys; now rewrite map_map).
      apply Rsum_incl_le; [exact Hws|exact Hincl|].
      intros x. now apply get_or_nonneg.
Qed.

Lemma keys_delitem_incl {V} (d : dict V) (k x : string) :
  In x (keys (delitem d k)) -> In x (keys d).
Proof.
  induction d as [|[k' v] d IH]; simpl; [tauto|].
  destruct (String.eqb k' k); simpl; tauto.
Qed.

Lemma wf_delitem {V} (d : dict V) (k : string) :
  wf_dict d -> wf_dict (delitem d k).
Proof.
  unfold wf_dict. induction d as [|[k' v] d IH]; simpl; intros Hnd; [constructor|].
  inversion Hnd as [|? ? Hnotin Hnd']; subst.
  destruct (String.eqb k' k); simpl; [assumption|].
  constructor; [|auto]. intros Hin. apply Hnotin. eapply keys_delitem_incl, Hin.
Qed.

Lemma wf_map_values {V W} (f : V -> W) (d : dict V) :
  wf_dict d -> wf_dict (map_values f d).
Proof. unfold wf_dict. now rewrite keys_map_values. Qed.

(** The adapted weights form a proper dict: each signal name once. *)
Lemma weights_wf (he hs : bool) (ka kb : string) :
  wf_dict (Weights._get_weights (T:=R) he hs ka kb).
Proof.
  unfold Weights._get_weights, Weights.renormalize.
  assert (wf_dict (Weights.drop_inapplicable ka kb
                     (Weights.take_structural (T:=R) hs
                        (Weights.base_weights he)))) as H.
  { unfold Weights.drop_inapplicable.
    assert (wf_dict (Weights.take_structural (T:=R) hs
                       (Weights.base_weights he))) as H0.
    { unfold Weights.take_structural, Weights.base_weights.
      assert (wf_dict (if he then Weights.WEIGHTS_WITH_EMBEDDINGS
                       else Weights.WEIGHTS_WITHOUT_EMBEDDINGS)) as Hb
        by (destruct he; apply NoDup_by_nodup; vm_compute; reflexivity).
      destruct hs; [apply wf_setitem|]; repeat apply wf_map_values; exact Hb. }
    revert H0. generalize (Weights.take_structural (T:=R) hs
                             (Weights.base_weights he)).
    generalize ((if negb (String.eqb ka "component" && String.eqb kb "component")
                 then ["jsxStructure"] else [])
                ++ (if negb ((String.eqb ka "component" || String.eqb ka "hook")
                             && (String.eqb kb "component"
                                 || String.eqb kb "hook"))
                    then ["hookProfile"] else [])).
    intros sigs. induction sigs as [|sg sigs IH]; intros d Hd; simpl;
      [assumption|].
    apply IH. destruct (contains d sg); [now apply wf_delitem|assumption]. }
  destruct (pos _); [now apply wf_map_values|assumption].
Qed.

Lemma weights_nonneg (he hs : bool) (ka kb : string) :
  Forall (fun w => 0 <= w)
    (values (Weights._get_weights (T:=R) he hs ka kb)).
Proof.
  eapply Forall_impl; [|apply WeightsFacts.weights_pos_R].
  simpl. intros; lra.
Qed.

(** What [score_pair] emits for a pair lies in the unit interval. *)
Lemma score_pair_bounds (arts : artifacts) (units_by_id : dict code_unit)
    (threshold : R) (a b : string * code_unit) (p : scored_pair) :
  score_pair arts units_by_id threshold a b = Some p ->
  0 <= score p <= 1 /\ Forall (fun nv => 0 <= snd nv <= 1) (signals p).
Proof.
  unfold score_pair. destruct a as [uid_a unit_a], b as [uid_b unit_b].
  destruct (_ && _); [discriminate|].
  destruct (negb _); [discriminate|].
  set (weights := Weights._get_weights _ _ _ _).
  set (sigs := compute_signals weights arts units_by_id uid_a uid_b).
  assert (Forall (fun v => 0 <= v <= 1) (values sigs) /\ wf_dict sigs
          /\ incl (keys sigs) (keys weights)) as [Hv [Hwf Hincl]].
  { unfold sigs, compute_signals.
    apply (fill_signals_invariant weights (fun v => 0 <= v <= 1)).
    - apply all_signals_bounds.
    - constructor.
    - constructor.
    - intros x []. }
  destruct (Rleb threshold _); [|discriminate].
  intros [= <-]. cbn [score signals]. split.
  - apply round4_unit_interval.
    pose proof (weighted_sum_bounds weights sigs (weights_wf _ _ _ _) Hwf Hincl
                  (weights_nonneg _ _ _ _) Hv) as [H0 H1].
    unfold weights in H1 at 2.
    rewrite <- WeightsFacts.sum_values_R, WeightsFacts.weights_sum_R in H1.
    lra.
  - unfold map_values. rewrite Forall_map. cbn [snd].
    apply Forall_snd_values in Hv.
    eapply Forall_impl; [|exact Hv]. simpl. intros nv Hnv.
    now apply round4_unit_interval.
Qed.

Lemma compute_scores_from (arts : artifacts) (threshold : R) (p : scored_pair) :
  In p (compute_scores arts threshold) ->
  exists a b,
    score_pair arts (build_units_by_id (units arts)) threshold a b = Some p.
Proof.
  unfold compute_scores. rewrite In_sort_desc, in_flat_map.
  intros [[a b] [_ Hp]]. exists a, b. cbn [fst snd] in Hp.
  destruct (score_pair _ _ _ a b) as [q|]; [|destruct Hp].
  destruct Hp as [->|[]]. reflexivity.
Qed.

Lemma avg_similarity_bounds (members : pyset) (scored_pairs : list scored_pair)
    (units_by_id : dict code_unit) :
  Forall (fun p => 0 <= score p <= 1) scored_pairs ->
  0 <= avgSimilarity (Cluster.enrich_cluster members scored_pairs units_by_id)
    <= 1.
Proof.
  intros Hp. unfold Cluster.enrich_cluster. cbn [avgSimilarity].
  apply round4_unit_interval.
  set (weights := map score (Cluster.intra_pairs members scored_pairs)).
  destruct weights as [|w ws] eqn:E; cbn [is_empty negb]; [lra|].
  rewrite <- E. apply mean_unit_interval; [rewrite E; discriminate|].
  unfold weights. rewrite Forall_map. unfold Cluster.intra_pairs.
  apply Forall_forall. intros p Hin. apply filter_In in Hin.
  rewrite Forall_forall in Hp. apply Hp. tauto.
Qed.

Lemma overlap_terms_bounds (sets : list pyset) :
  Forall (fun x => 0 <= x <= 1) (Cluster.overlap_terms sets).
Proof.
  unfold Cluster.overlap_terms. apply Forall_forall. intros x Hx.
  apply in_flat_map in Hx. destruct Hx as [[a b] [_ Hx]].
  destruct (is_empty (union a b)) eqn:E; cbn [negb] in Hx; [destruct Hx|].
  destruct Hx as [<-|[]]. apply ratio_unit_interval.
  - apply card_incl. intros y Hy. apply In_inter in Hy. apply In_union. tauto.
  - destruct (card (union a b)) eqn:Hc; [|lia].
    apply card_zero in Hc. rewrite Hc in E. discriminate.
Qed.

Lemma consumer_overlap_bounds (members : pyset)
    (scored_pairs : list scored_pair) (units_by_id : dict code_unit) :
  0 <= consumerOverlap
         (Cluster.enrich_cluster members scored_pairs units_by_id) <= 1.
Proof.
  unfold Cluster.enrich_cluster. cbn [consumerOverlap].
  apply round4_unit_interval. unfold Cluster.consumer_overlap.
  set (terms := Cluster.overlap_terms _).
  pose proof (overlap_terms_bounds
                (map (_extract_consumer_ids units_by_id)
                   (Cluster.elements members))) as Ht.
  fold terms in Ht.
  destruct terms as [|t ts] eqn:E.
  - simpl. rewrite Rsum_nil. lra.
  - replace (Nat.ltb 0 (List.length (t :: ts))) with true by reflexivity.
    apply mean_unit_interval; [discriminate|assumption].
Qed.

(** C6.  Every pair that [compute_scores] emits has its score and each of
    its recorded signal values in [[0, 1]]; and every cluster that
    [compute_clusters] builds from that similarity matrix -- whatever the
    graph library returns -- has [avgSimilarity] and [consumerOverlap] in
    [[0, 1]]. *)
Theorem scores_and_cluster_metrics_bounded (arts : artifacts) (threshold : R) :
  Forall (fun p => 0 <= score p <= 1
                   /\ Forall (fun nv => 0 <= snd nv <= 1) (signals p))
    (compute_scores arts threshold)
  /\ forall (connected_components : graph -> list pyset)
            (greedy_modularity_communities : graph -> option (list pyset))
            (inventory : list code_unit) (cluster_threshold : R),
       Forall (fun c => 0 <= avgSimilarity (c_info c) <= 1
                        /\ 0 <= consumerOverlap (c_info c) <= 1)
         (Cluster.compute_clusters connected_components
            greedy_modularity_communities
            (compute_scores arts threshold) inventory cluster_threshold).
Proof.
  assert (Forall (fun p => 0 <= score p <= 1
                           /\ Forall (fun nv => 0 <= snd nv <= 1) (signals p))
            (compute_scores arts threshold)) as Hpairs.
  { apply Forall_forall. intros p Hp.
    destruct (compute_scores_from _ _ _ Hp) as [a [b Hab]].
    eapply score_pair_bounds, Hab. }
  split; [exact Hpairs|].
  intros cc gmc inventory th'. apply Forall_forall. intros c Hc.
  unfold Cluster.compute_clusters in Hc.
  apply ClusterSizeFacts.rank_clusters_from in Hc. apply in_map_iff in Hc.
  destruct Hc as [community [<- _]]. split.
  - apply avg_similarity_bounds. eapply Forall_impl; [|exact Hpairs].
    simpl. tauto.
  - apply consumer_overlap_bounds.
Qed.

End BoundsFacts.

(** ** Symmetry of the similarities *)

Module SymmetryFacts.
Import Py PyFacts NumFacts Vectors Similarity Score.
Local Open Scope R_scope.

(** The loop of [dot] as a sum over the items of [a]. *)
Lemma dot_loop_sum (a b : SparseVector) :
  dot_loop a b = Rsum (map (fun kv => snd kv * get_or b (fst kv) 0) a).
Proof.
  unfold dot_loop.
  assert (forall acc,
            fold_left
              (fun total kv =>
                 match get b (fst kv) with
                 | Some w => total + snd kv * w
                 | None => total
                 end) a acc
            = acc + Rsum (map (fun kv => snd kv * get_or b (fst kv) 0) a)) as H.
  { induction a as [|[k v] a IH]; intros acc; simpl.
    - rewrite Rsum_nil. lra.
    - rewrite IH, Rsum_cons. unfold get_or. cbn [fst snd].
      destruct (get b k); lra. }
  rewrite H. lra.
Qed.

(** In a dict, the entries under one key add up to the value of the key. *)
Lemma pick_key_sum (b : SparseVector) (k : string) :
  wf_dict b ->
  Rsum (map (fun kw => if String.eqb (fst kw) k then snd kw else 0) b)
  = get_or b k 0.
Proof.
  unfold wf_dict. induction b as [|[k' w] b IH]; intros Hnd; simpl.
  - rewrite Rsum_nil. reflexivity.
  - inversion Hnd as [|? ? Hnotin Hnd']; subst.
    rewrite Rsum_cons. unfold get_or. simpl.
    destruct (String.eqb_spec k' k) as [->|Hne].
    + rewrite (Rsum_map_ext _ (fun _ => 0)).
      * rewrite Rsum_map_zero. lra.
      * intros [k2 w2] Hin. cbn [fst snd].
        destruct (String.eqb_spec k2 k) as [->|]; [|reflexivity].
        exfalso. apply Hnotin. change k with (fst (k, w2)). now apply in_map.
    + rewrite (IH Hnd'). unfold get_or. lra.
Qed.

Lemma dot_sum_sym (a b : SparseVector) :
  wf_dict a -> wf_dict b ->
  Rsum (map (fun kv => snd kv * get_or b (fst kv) 0) a)
  = Rsum (map (fun kv => snd kv * get_or a (fst kv) 0) b).
Proof.
  unfold wf_dict at 1. revert b.
  induction a as [|[k v] a IH]; intros b Ha Hb.
  - simpl. rewrite Rsum_nil. symmetry.
    rewrite (Rsum_map_ext _ (fun _ => 0)); [apply Rsum_map_zero|].
    intros kv _. unfold get_or. simpl. lra.
  - inversion Ha as [|? ? Hnotin Ha']; subst.
    cbn [map]. rewrite Rsum_cons. cbn [fst snd].
    rewrite (IH b Ha' Hb).
    rewrite (Rsum_map_ext
               (fun kv => snd kv * get_or ((k, v) :: a) (fst kv) 0)
               (fun kv => (if String.eqb (fst kv) k then snd kv else 0) * v
                          + snd kv * get_or a (fst kv) 0)).
    + rewrite <- (pick_key_sum b k Hb).
      clear. induction b as [|[k' w] b IH]; simpl.
      * rewrite !Rsum_nil. lra.
      * rewrite !Rsum_cons. cbn [fst snd]. rewrite <- IH. lra.
    + intros [k' w] _. cbn [fst snd]. unfold get_or. simpl.
      rewrite String.eqb_sym.
      destruct (String.eqb_spec k' k) as [->|Hne]; [|lra].
      apply get_None_keys in Hnotin. rewrite Hnotin. lra.
Qed.

Lemma dot_sym (a b : SparseVector) :
  wf_dict a -> wf_dict b -> dot a b = dot b a.
Proof.
  intros Ha Hb. unfold dot.
  destruct (Nat.ltb _ _), (Nat.ltb _ _); rewrite ?dot_loop_sum;
    try reflexivity; now apply dot_sum_sym.
Qed.

Lemma cosine_sim_sym (a b : SparseVector) :
  wf_dict a -> wf_dict b -> cosine_sim a b = cosine_sim b a.
Proof.
  intros Ha Hb. unfold cosine_sim.
  rewrite (orb_comm (is_empty a)), (orb_comm (Reqb (magnitude a) 0)).
  rewrite (dot_sym a b Ha Hb), (Rmult_comm (magnitude a)). reflexivity.
Qed.

Lemma inter_sym_In (a b : pyset) (x : string) :
  In x (inter a b) <-> In x (inter b a).
Proof. rewrite !In_inter. tauto. Qed.

Lemma union_sym_In (a b : pyset) (x : string) :
  In x (union a b) <-> In x (union b a).
Proof. rewrite !In_union. tauto. Qed.

Lemma jaccard_sim_sym (a b : pyset) : jaccard_sim a b = jaccard_sim b a.
Proof.
  unfold jaccard_sim. rewrite (andb_comm (is_empty a)).
  rewrite (card_ext (inter a b) (inter b a)) by apply inter_sym_In.
  rewrite (card_ext (union a b) (union b a)) by apply union_sym_In.
  reflexivity.
Qed.

Lemma mismatch_count_sym (a b : list Z) :
  mismatch_count a b = mismatch_count b a.
Proof.
  unfold mismatch_count. revert b.
  induction a as [|x a IH]; intros [|y b]; simpl; try reflexivity.
  rewrite Z.eqb_sym. destruct (Z.eqb y x); simpl; now rewrite IH.
Qed.

Lemma normalized_hamming_sym (a b : list Z) :
  normalized_hamming a b = normalized_hamming b a.
Proof.
  unfold normalized_hamming.
  rewrite (andb_comm (is_empty a)), (Nat.eqb_sym (List.length a)).
  rewrite (Nat.min_comm (List.length a)), (Nat.max_comm (List.length a)).
  rewrite (mismatch_count_sym a b).
  destruct (Nat.eqb_spec (List.length b) (List.length a)) as [->|]; reflexivity.
Qed.

Lemma count_matching_nodes_sym :
  forall tree_a tree_b,
    _count_matching_nodes tree_a tree_b = _count_matching_nodes tree_b tree_a.
Proof.
  fix IH 1. intros [tag_a children_a] [tag_b children_b]. simpl.
  rewrite (String.eqb_sym tag_a). f_equal.
  revert children_b.
  induction children_a as [|x ca IHc]; intros [|y cb]; try reflexivity.
  rewrite (IH x y), (IHc cb). reflexivity.
Qed.

Lemma tree_edit_distance_sym (tree_a tree_b : option jsx) :
  tree_edit_distance_normalized tree_a tree_b
  = tree_edit_distance_normalized tree_b tree_a.
Proof.
  unfold tree_edit_distance_normalized.
  destruct tree_a as [a|], tree_b as [b|]; simpl; try reflexivity;
    try (rewrite Nat.add_comm; reflexivity).
  rewrite (count_matching_nodes_sym a b).
  rewrite (Nat.add_comm (_count_tree_nodes a)). reflexivity.
Qed.

Lemma same_hash_sym (h_a h_b : string) : same_hash h_a h_b = same_hash h_b h_a.
Proof.
  unfold same_hash. destruct (String.eqb_spec h_a h_b) as [->|Hne].
  - now rewrite String.eqb_refl.
  - rewrite !andb_false_r. symmetry.
    destruct (String.eqb_spec h_b h_a); [congruence|apply andb_false_r].
Qed.

Lemma same_hash_opt_sym (h_a h_b : option string) :
  same_hash_opt h_a h_b = same_hash_opt h_b h_a.
Proof.
  destruct h_a, h_b; simpl; try reflexivity. apply same_hash_sym.
Qed.

Lemma sig_semantic_sym uid_a uid_b embeddings :
  (forall l : list R, wf_dict (dense_vector l)) ->
  sig_semantic uid_a uid_b embeddings = sig_semantic uid_b uid_a embeddings.
Proof.
  intros Hwf. unfold sig_semantic.
  destruct (get embeddings uid_a), (get embeddings uid_b); try reflexivity.
  apply cosine_sim_sym; apply Hwf.
Qed.

Lemma sig_type_signature_sym uid_a uid_b typesigs :
  sig_type_signature uid_a uid_b typesigs
  = sig_type_signature uid_b uid_a typesigs.
Proof.
  unfold sig_type_signature.
  destruct (get typesigs uid_a) as [sa|], (get typesigs uid_b) as [sb|];
    try reflexivity.
  rewrite (same_hash_sym (strict_hash sa)), (same_hash_sym (loose_hash sa)).
  destruct (Nat.eqb_spec (arity sa) (arity sb)) as [->|Hne].
  - now rewrite Nat.eqb_refl.
  - rewrite !andb_false_r.
    destruct (Nat.eqb_spec (arity sb) (arity sa)); [congruence|].
    now rewrite andb_false_r.
Qed.

Lemma sig_jsx_structure_sym uid_a uid_b fps units_by_id :
  sig_jsx_structure uid_a uid_b fps units_by_id
  = sig_jsx_structure uid_b uid_a fps units_by_id.
Proof.
  unfold sig_jsx_structure.
  destruct (jsxTree_of units_by_id uid_a), (jsxTree_of units_by_id uid_b);
    try reflexivity.
  rewrite (same_hash_opt_sym (exact (jsxHash_of fps uid_a))).
  rewrite (same_hash_opt_sym (fuzzy (jsxHash_of fps uid_a))).
  now rewrite tree_edit_distance_sym.
Qed.

(** [str] is injective on the non-negative integers. *)
Lemma str_of_nat_inj (n m : nat) : str_of_nat n = str_of_nat m -> n = m.
Proof.
  unfold str_of_nat. intros H.
  apply (f_equal NilEmpty.uint_of_string) in H. rewrite !NilEmpty.usu in H.
  injection H as H. apply (f_equal Nat.of_uint) in H.
  now rewrite !DecimalNat.Unsigned.of_to in H.
Qed.

Lemma enumerate_from_indices {A} (i : nat) (l : list A) :
  map fst (enumerate_from i l) = seq i (List.length l).
Proof.
  revert i. induction l as [|x l IH]; intros i; simpl; [reflexivity|].
  now rewrite IH.
Qed.

(** Dropping entries keeps the keys distinct. *)
Lemma filter_keeps_keys_distinct {A B} (key : A -> B) (keep : A -> bool) :
  forall entries : list A,
    NoDup (map key entries) -> NoDup (map key (filter keep entries)).
Proof.
  intros entries. induction entries as [|e rest IH]; simpl; intros Hnd.
  - constructor.
  - inversion Hnd as [|? ? Hfresh Hrest]; subst.
    destruct (keep e); simpl; [constructor|]; auto.
    rewrite in_map_iff. intros (e' & Hkey & Hin).
    apply Hfresh. rewrite <- Hkey. apply in_map.
    apply filter_In in Hin. tauto.
Qed.

(** A vector keyed by position is a proper dict. *)
Lemma wf_indexed {A} (g : A -> R) (p : nat * A -> bool) (l : list A) :
  wf_dict (map (fun iv => (str_of_nat (fst iv), g (snd iv)))
             (filter p (enumerate l))).
Proof.
  unfold wf_dict, keys. rewrite map_map. cbn [fst].
  rewrite <- (map_map fst str_of_nat).
  apply Injective_map_NoDup; [intros n m; apply str_of_nat_inj|].
  apply filter_keeps_keys_distinct. unfold enumerate.
  rewrite enumerate_from_indices. apply seq_NoDup.
Qed.

Lemma wf_dense_vector (emb : list R) : wf_dict (dense_vector emb).
Proof.
  unfold dense_vector.
  replace (enumerate emb) with (filter (fun _ => true) (enumerate emb)).
  - apply (wf_indexed (fun v => v) (fun _ => true)).
  - induction (enumerate emb) as [|x l IH]; simpl; [reflexivity|now rewrite IH].
Qed.

Lemma wf_hook_vector (hp : list Z) : wf_dict (hook_vector hp).
Proof. unfold hook_vector. apply (wf_indexed IZR). Qed.

Lemma sig_hook_profile_sym uid_a uid_b fps :
  sig_hook_profile uid_a uid_b fps = sig_hook_profile uid_b uid_a fps.
Proof.
  unfold sig_hook_profile. rewrite orb_comm.
  destruct (_ || _); [reflexivity|].
  apply cosine_sim_sym; apply wf_hook_vector.
Qed.

(** The stored vector of a unit, or the empty one, is a proper dict. *)
Lemma wf_lookup {V} (proj : V -> SparseVector) (d : dict V) (uid : string) :
  Forall (fun kv => wf_dict (proj (snd kv))) d ->
  wf_dict (match get d uid with Some r => proj r | None => [] end).
Proof.
  intros H. destruct (get d uid) as [r|] eqn:E; [|constructor].
  apply get_In in E. rewrite Forall_forall in H. exact (H _ E).
Qed.

Lemma sig_imports_sym uid_a uid_b fps :
  Forall (fun kv => wf_dict (importConstellation (snd kv))) fps ->
  sig_imports uid_a uid_b fps = sig_imports uid_b uid_a fps.
Proof.
  intros H. unfold sig_imports.
  apply cosine_sim_sym; apply (wf_lookup importConstellation); exact H.
Qed.

Lemma sig_data_access_sym uid_a uid_b fps :
  sig_data_access uid_a uid_b fps = sig_data_access uid_b uid_a fps.
Proof.
  unfold sig_data_access. rewrite andb_comm, jaccard_sim_sym. reflexivity.
Qed.

Lemma sig_behavior_sym uid_a uid_b fps :
  sig_behavior uid_a uid_b fps = sig_behavior uid_b uid_a fps.
Proof.
  unfold sig_behavior. rewrite andb_comm, normalized_hamming_sym. reflexivity.
Qed.

Lemma sig_callee_set_sym uid_a uid_b cg :
  Forall (fun kv => wf_dict (calleeSetVector (snd kv))) cg ->
  sig_callee_set uid_a uid_b cg = sig_callee_set uid_b uid_a cg.
Proof.
  intros H. unfold sig_callee_set.
  apply cosine_sim_sym; apply (wf_lookup calleeSetVector); exact H.
Qed.

Lemma existsb_ext_In {A} (f g : A -> bool) (l l' : list A) :
  (forall x, In x l <-> In x l') -> (forall x, f x = g x) ->
  existsb f l = existsb g l'.
Proof.
  intros Hl Hfg. apply eq_true_iff_eq. rewrite !existsb_exists.
  split; intros [x [Hin Hx]]; exists x; split;
    try (now apply Hl); congruence.
Qed.

Lemma same_sequence_sym (seq_a seq_b : dict string) (ctx : string) :
  same_sequence seq_a seq_b ctx = same_sequence seq_b seq_a ctx.
Proof.
  unfold same_sequence.
  destruct (get seq_a ctx), (get seq_b ctx); try reflexivity.
  apply String.eqb_sym.
Qed.

Lemma sig_call_sequence_sym uid_a uid_b cg :
  sig_call_sequence uid_a uid_b cg = sig_call_sequence uid_b uid_a cg.
Proof.
  unfold sig_call_sequence.
  set (seq_a := match get cg uid_a with
                | Some c => sequenceHashes c | None => [] end).
  set (seq_b := match get cg uid_b with
                | Some c => sequenceHashes c | None => [] end).
  rewrite (is_empty_ext (inter (keys seq_a) (keys seq_b))
             (inter (keys seq_b) (keys seq_a))) by apply inter_sym_In.
  rewrite (existsb_ext_In (same_sequence seq_a seq_b)
             (same_sequence seq_b seq_a)
             (inter (keys seq_a) (keys seq_b))
             (inter (keys seq_b) (keys seq_a)))
    by (apply inter_sym_In || apply same_sequence_sym).
  rewrite (card_ext (inter (keys seq_a) (keys seq_b))
             (inter (keys seq_b) (keys seq_a))) by apply inter_sym_In.
  rewrite (Nat.max_comm (List.length seq_a)). reflexivity.
Qed.

Lemma shared_dirs_ext units_by_id (s s' : pyset) (x : string) :
  (forall y, In y s <-> In y s') ->
  In x (shared_dirs units_by_id s) <-> In x (shared_dirs units_by_id s').
Proof.
  intros H. unfold shared_dirs. rewrite !in_map_iff.
  split; intros [p [Hp Hin]]; exists p; (split; [assumption|]);
    apply filter_In in Hin; apply filter_In; (split; [|tauto]);
    destruct Hin as [Hin _]; apply in_map_iff in Hin;
    destruct Hin as [cid [Hc Hin]]; apply in_map_iff; exists cid;
    (split; [assumption|]); now apply H.
Qed.

Lemma sig_consumer_set_sym uid_a uid_b units_by_id :
  sig_consumer_set uid_a uid_b units_by_id
  = sig_consumer_set uid_b uid_a units_by_id.
Proof.
  unfold sig_consumer_set.
  set (ca := _extract_consumer_ids units_by_id uid_a).
  set (cb := _extract_consumer_ids units_by_id uid_b).
  rewrite (andb_comm (is_empty ca)), (jaccard_sim_sym ca cb).
  rewrite (is_empty_ext (inter ca cb) (inter cb ca)) by apply inter_sym_In.
  rewrite (card_ext (shared_dirs units_by_id (inter ca cb))
             (shared_dirs units_by_id (inter cb ca)))
    by (intros x; apply shared_dirs_ext, inter_sym_In).
  reflexivity.
Qed.

Lemma sig_cooccurrence_sym uid_a uid_b dc :
  Forall (fun kv => wf_dict (cooccurrenceVector (snd kv))) dc ->
  sig_cooccurrence uid_a uid_b dc = sig_cooccurrence uid_b uid_a dc.
Proof.
  intros H. unfold sig_cooccurrence.
  apply cosine_sim_sym; apply (wf_lookup cooccurrenceVector); exact H.
Qed.

Lemma sig_neighborhood_sym uid_a uid_b dc :
  sig_neighborhood uid_a uid_b dc = sig_neighborhood uid_b uid_a dc.
Proof.
  unfold sig_neighborhood.
  rewrite (same_hash_opt_sym (option_map neighborhoodHash_r1 (get dc uid_a))).
  rewrite (same_hash_opt_sym (option_map neighborhoodHash_r2 (get dc uid_a))).
  reflexivity.
Qed.

Lemma sig_structural_pattern_sym uid_a uid_b patterns :
  sig_structural_pattern uid_a uid_b patterns
  = sig_structural_pattern uid_b uid_a patterns.
Proof.
  unfold sig_structural_pattern. rewrite andb_comm, jaccard_sim_sym.
  reflexivity.
Qed.

(** The thirteen signals do not depend on the order of the two units. *)
Lemma all_signals_sym arts units_by_id uid_a uid_b :
  sparse_vectors_wf arts ->
  all_signals arts units_by_id uid_a uid_b
  = all_signals arts units_by_id uid_b uid_a.
Proof.
  intros [Hfps [Hcg Hdc]]. unfold all_signals.
  rewrite (sig_semantic_sym uid_a uid_b) by apply wf_dense_vector.
  rewrite (sig_type_signature_sym uid_a uid_b).
  rewrite (sig_jsx_structure_sym uid_a uid_b).
  rewrite (sig_hook_profile_sym uid_a uid_b).
  rewrite (sig_imports_sym uid_a uid_b) by assumption.
  rewrite (sig_data_access_sym uid_a uid_b).
  rewrite (sig_behavior_sym uid_a uid_b).
  rewrite (sig_callee_set_sym uid_a uid_b) by assumption.
  rewrite (sig_call_sequence_sym uid_a uid_b).
  rewrite (sig_consumer_set_sym uid_a uid_b).
  rewrite (sig_cooccurrence_sym uid_a uid_b) by assumption.
  rewrite (sig_neighborhood_sym uid_a uid_b).
  rewrite (sig_structural_pattern_sym uid_a uid_b).
  reflexivity.
Qed.

Lemma get_weights_sym (he hs : bool) (ka kb : string) :
  Weights._get_weights (T:=R) he hs ka kb
  = Weights._get_weights (T:=R) he hs kb ka.
Proof.
  unfold Weights._get_weights, Weights.drop_inapplicable.
  rewrite (andb_comm (String.eqb ka "component")).
  rewrite (andb_comm (String.eqb ka "component" || String.eqb ka "hook")).
  reflexivity.
Qed.

Lemma is_comparable_sym (ka kb : string) :
  _is_comparable ka kb = _is_comparable kb ka.
Proof.
  unfold _is_comparable, related_kinds. rewrite (String.eqb_sym ka kb).
  destruct (String.eqb kb ka); [reflexivity|].
  destruct (String.eqb ka "component"), (String.eqb kb "hook"),
    (String.eqb ka "hook"), (String.eqb kb "component"),
    (String.eqb kb "function"), (String.eqb ka "function"); reflexivity.
Qed.

Lemma same_file_sym (file_a file_b : string) :
  truthy file_a && truthy file_b && String.eqb file_a file_b
  = truthy file_b && truthy file_a && String.eqb file_b file_a.
Proof.
  rewrite (String.eqb_sym file_a), (andb_comm (truthy file_a)). reflexivity.
Qed.

(** C5.  For artifacts whose sparse vectors are dicts (each key once),
    scoring a pair as (A, B) and as (B, A) gives the same decision to emit,
    the same score, the same signal values and the same dominant signal. *)
Theorem pair_scoring_symmetric (arts : artifacts)
    (units_by_id : dict code_unit) (threshold : R)
    (a b : string * code_unit) :
  sparse_vectors_wf arts ->
  option_map pair_outcome (score_pair arts units_by_id threshold a b)
  = option_map pair_outcome (score_pair arts units_by_id threshold b a).
Proof.
  intros Hwf. destruct a as [uid_a unit_a], b as [uid_b unit_b].
  unfold score_pair.
  rewrite (same_file_sym (u_filePath unit_a)).
  destruct (_ && _); [reflexivity|].
  rewrite (is_comparable_sym (kind_of unit_a)).
  destruct (negb _); [reflexivity|].
  rewrite (get_weights_sym _ _ (kind_of unit_a)).
  unfold compute_signals.
  rewrite (all_signals_sym arts units_by_id uid_a uid_b Hwf).
  destruct (Rleb _ _); reflexivity.
Qed.

(** C5 on two components with overlapping imports, hooks, callees and
    data access. *)
Lemma pair_scoring_symmetric_witness :
  option_map pair_outcome
    (score_pair Scenario.sample_artifacts
       (build_units_by_id (units Scenario.sample_artifacts)) 0.35
       ("a.tsx::List", plain_unit "a.tsx::List" "component" "a.tsx")
       ("b.tsx::Grid", plain_unit "b.tsx::Grid" "component" "b.tsx"))
  = option_map pair_outcome
      (score_pair Scenario.sample_artifacts
         (build_units_by_id (units Scenario.sample_artifacts)) 0.35
         ("b.tsx::Grid", plain_unit "b.tsx::Grid" "component" "b.tsx")
         ("a.tsx::List", plain_unit "a.tsx::List" "component" "a.tsx")).
Proof.
  apply pair_scoring_symmetric.
  unfold sparse_vectors_wf, Scenario.sample_artifacts. cbn [fps cg dc].
  repeat split;
    repeat (apply Forall_cons; [apply NoDup_by_nodup; reflexivity|]);
    apply Forall_nil.
Defined.

End SymmetryFacts.

(** ** The scenario of two identical unary functions *)

Module ScenarioFacts.
Import Py PyFacts NumFacts ByIdFacts Weights WeightsFacts Vectors Similarity.
Import Score Scenario Pipeline.
Local Open Scope R_scope.

Lemma cons_entry_eq {V} (k : string) (v v' : V) (l l' : dict V) :
  v = v' -> l = l' -> (k, v) :: l = (k, v') :: l'.
Proof. intros -> ->. reflexivity. Qed.

(** The weights of a pair of functions when neither optional artifact is
    present: the nine applicable base weights, which sum to 0.78, each
    divided by 0.78. *)
Lemma function_pair_weights :
  _get_weights (T:=R) false false "function" "function"
  = [ ("typeSignature", 16 / 78); ("imports", 6 / 78); ("dataAccess", 4 / 78);
      ("behavior", 2 / 78); ("calleeSet", 13 / 78); ("callSequence", 13 / 78);
      ("consumerSet", 10 / 78); ("coOccurrence", 8 / 78);
      ("neighborhood", 6 / 78) ].
Proof.
  unfold _get_weights, renormalize.
  assert (sum_values (drop_inapplicable "function" "function"
            (take_structural (T:=R) false (base_weights false))) = 78 / 100)
    as Ht.
  { rewrite sum_values_R. cbn -[Q2R Rsum]. rewrite !Rsum_cons, Rsum_nil.
    unfold Q2R; simpl; lra. }
  rewrite Ht. simpl pos. rewrite Rltb_true by lra.
  cbn -[Q2R Rdiv].
  repeat (apply cons_entry_eq; [unfold Q2R; simpl; lra|]). reflexivity.
Qed.

Lemma round4_zero : round4 0 = 0.
Proof.
  unfold round4, round_half_even.
  rewrite (Int_part_between (0 * 10000) 0) by (simpl; lra).
  destruct (Rlt_dec _ _) as [_|H]; [simpl; lra|]. exfalso. apply H. simpl. lra.
Qed.

Lemma round4_one : round4 1 = 1.
Proof.
  unfold round4, round_half_even.
  rewrite (Int_part_between (1 * 10000) 10000) by lra.
  destruct (Rlt_dec _ _) as [_|H]; [lra|]. exfalso. apply H. lra.
Qed.

Lemma round4_4_13 : round4 (4 / 13) = 0.3077.
Proof.
  unfold round4, round_half_even.
  rewrite (Int_part_between (4 / 13 * 10000) 3076) by lra.
  destruct (Rlt_dec _ _) as [H|_]; [exfalso; lra|].
  destruct (Rlt_dec _ _) as [_|H]; [|exfalso; apply H; lra].
  simpl. lra.
Qed.

Lemma get_first {V} (a b : string) (x y : V) :
  get [(a, x); (b, y)] a = Some x.
Proof. simpl. now rewrite String.eqb_refl. Qed.

Lemma get_second {V} (a b : string) (x y : V) :
  a <> b -> get [(a, x); (b, y)] b = Some y.
Proof.
  intros H. simpl. destruct (String.eqb_spec a b); [congruence|].
  now rewrite String.eqb_refl.
Qed.

(** A stage run on two units with distinct non-empty ids. *)
Lemma by_id_two {V} (f : code_unit -> V) (ua ub : code_unit) :
  u_id ua <> "" -> u_id ub <> "" -> u_id ua <> u_id ub ->
  fold_left
    (fun result unit =>
       if truthy (u_id unit) then setitem result (u_id unit) (f unit)
       else result)
    [ua; ub] []
  = [(u_id ua, f ua); (u_id ub, f ub)].
Proof.
  intros Ha Hb Hab. simpl. rewrite !truthy_true by assumption. simpl.
  destruct (String.eqb_spec (u_id ua) (u_id ub)); [congruence|reflexivity].
Qed.

(** The score of the scenario is the sum of the weights of the three
    signals that are 1. *)
Lemma scenario_score :
  weighted_sum (_get_weights (T:=R) false false "function" "function")
    scenario_signals = 4 / 13.
Proof.
  rewrite function_pair_weights. unfold weighted_sum, scenario_signals.
  cbn [map fst snd]. unfold get_or. cbn [get String.eqb Ascii.eqb Bool.eqb].
  rewrite !Rsum_cons, Rsum_nil. lra.
Qed.

Lemma scenario_score_weights :
  let weights := _get_weights (T:=R) false false "function" "function" in
  get_or weights "typeSignature" 0 = 8 / 39
  /\ get_or weights "behavior" 0 = 1 / 39
  /\ get_or weights "neighborhood" 0 = 1 / 13.
Proof.
  cbv zeta. rewrite function_pair_weights. unfold get_or.
  cbn [get String.eqb Ascii.eqb Bool.eqb]. repeat split; lra.
Qed.

Lemma scenario_dominant : dominant_signal scenario_signals = "typeSignature".
Proof.
  unfold scenario_signals, dominant_signal. cbn [first_max].
  rewrite !Rltb_false by lra. reflexivity.
Qed.

Lemma scenario_not_only_type_signature (uid_a uid_b : string) :
  ~ only_type_signature (scenario_pair uid_a uid_b).
Proof.
  intros [_ H]. specialize (H "behavior" 1).
  assert (1 = 0) by (apply H; [simpl; tauto|discriminate]). lra.
Qed.

Section TwoFunctions.
Variable _sha256 : json -> string.
Hypothesis digest_nonempty : forall o, _sha256 o <> "".
Variables uid_a uid_b file_a file_b : string.
Hypothesis Ha : uid_a <> "".
Hypothesis Hb : uid_b <> "".
Hypothesis Hab : uid_a <> uid_b.
Hypothesis Hfiles : file_a <> file_b.

Local Abbreviation ua := (unary_function uid_a file_a).
Local Abbreviation ub := (unary_function uid_b file_b).
Local Abbreviation arts := (stage_artifacts _sha256 [ua; ub] [] []).
Local Abbreviation units_by_id := (build_units_by_id [ua; ub]).

Lemma scenario_units_by_id : units_by_id = [(uid_a, ua); (uid_b, ub)].
Proof. unfold build_units_by_id. now apply (by_id_two (fun u => u)). Qed.

Lemma scenario_type_signature :
  sig_type_signature uid_a uid_b (typesigs arts) = 1.
Proof.
  unfold stage_artifacts. cbn [typesigs].
  unfold Typesig.compute_type_signatures.
  rewrite (by_id_two _ ua ub Ha Hb Hab).
  unfold sig_type_signature. cbn [u_id unary_function].
  rewrite get_first, get_second by assumption.
  cbn [u_parameters u_returnType unary_function].
  unfold same_hash. rewrite truthy_true, String.eqb_refl; [reflexivity|].
  apply digest_nonempty.
Qed.

Lemma scenario_fps :
  fps arts
  = [ (uid_a, {| jsxHash := {| exact := None; fuzzy := None |};
                 hookProfile := [0;0;0;0;0;0;0;0;0;0]%Z;
                 importConstellation := [];
                 behaviorFlags := [0;0;0;0;0;0;0;0]%Z;
                 dataAccessPattern := [] |});
      (uid_b, {| jsxHash := {| exact := None; fuzzy := None |};
                 hookProfile := [0;0;0;0;0;0;0;0;0;0]%Z;
                 importConstellation := [];
                 behaviorFlags := [0;0;0;0;0;0;0;0]%Z;
                 dataAccessPattern := [] |}) ].
Proof.
  unfold stage_artifacts. cbn [fps].
  unfold Fingerprint.compute_fingerprints.
  rewrite (by_id_two _ ua ub Ha Hb Hab). reflexivity.
Qed.

Lemma scenario_imports : sig_imports uid_a uid_b (fps arts) = 0.
Proof.
  rewrite scenario_fps. unfold sig_imports.
  rewrite get_first, get_second by assumption. reflexivity.
Qed.

Lemma scenario_data_access : sig_data_access uid_a uid_b (fps arts) = 0.
Proof.
  rewrite scenario_fps. unfold sig_data_access.
  rewrite get_first, get_second by assumption. reflexivity.
Qed.

(** Both units have the flag vector of eight zeros: no position differs. *)
Lemma scenario_behavior : sig_behavior uid_a uid_b (fps arts) = 1.
Proof.
  rewrite scenario_fps. unfold sig_behavior.
  rewrite get_first, get_second by assumption.
  cbn [behaviorFlags is_empty andb]. unfold normalized_hamming.
  cbn [is_empty andb List.length Nat.eqb negb]. unfold mismatch_count. simpl.
  lra.
Qed.

Lemma scenario_cg :
  cg arts
  = [ (uid_a, {| calleeSetVector := []; sequenceHashes := [] |});
      (uid_b, {| calleeSetVector := []; sequenceHashes := [] |}) ].
Proof.
  unfold stage_artifacts. cbn [cg].
  unfold Callgraph.compute_call_vectors.
  rewrite (by_id_two _ ua ub Ha Hb Hab). reflexivity.
Qed.

Lemma scenario_callee_set : sig_callee_set uid_a uid_b (cg arts) = 0.
Proof.
  rewrite scenario_cg. unfold sig_callee_set.
  rewrite get_first, get_second by assumption. reflexivity.
Qed.

Lemma scenario_call_sequence : sig_call_sequence uid_a uid_b (cg arts) = 0.
Proof.
  rewrite scenario_cg. unfold sig_call_sequence.
  rewrite get_first, get_second by assumption. reflexivity.
Qed.

Lemma scenario_consumer_set : sig_consumer_set uid_a uid_b units_by_id = 0.
Proof.
  rewrite scenario_units_by_id. unfold sig_consumer_set, _extract_consumer_ids.
  rewrite get_first, get_second by assumption. reflexivity.
Qed.

Lemma scenario_cooccurrence : sig_cooccurrence uid_a uid_b (dc arts) = 0.
Proof.
  unfold stage_artifacts. cbn [dc].
  unfold Depcontext.compute_dep_context.
  rewrite (by_id_two _ ua ub Ha Hb Hab). unfold sig_cooccurrence.
  cbn [u_id unary_function].
  rewrite get_first, get_second by assumption. reflexivity.
Qed.

(** Both units hash the empty neighbourhood. *)
Lemma scenario_neighborhood : sig_neighborhood uid_a uid_b (dc arts) = 1.
Proof.
  unfold stage_artifacts. cbn [dc].
  assert (NoDup (map u_id [ua; ub])) as Hnd.
  { simpl. repeat constructor; simpl; intuition. }
  apply (NeighborhoodFacts.sig_neighborhood_same_r1 _sha256 digest_nonempty
           _ uid_a uid_b (JList [])).
  - apply (NeighborhoodFacts.dep_context_r1_no_consumers _sha256
             [ua; ub] ua Hnd); [now left|assumption|reflexivity].
  - apply (NeighborhoodFacts.dep_context_r1_no_consumers _sha256
             [ua; ub] ub Hnd); [right; now left|assumption|reflexivity].
Qed.

Lemma scenario_signals_computed :
  compute_signals
    (_get_weights (T:=R) false false "function" "function")
    arts units_by_id uid_a uid_b
  = scenario_signals.
Proof.
  rewrite function_pair_weights. unfold compute_signals, all_signals.
  rewrite scenario_type_signature, scenario_imports, scenario_data_access,
    scenario_behavior, scenario_callee_set, scenario_call_sequence,
    scenario_consumer_set, scenario_cooccurrence, scenario_neighborhood.
  reflexivity.
Qed.

Lemma scenario_score_pair (threshold : R) :
  score_pair arts units_by_id threshold (uid_a, ua) (uid_b, ub)
  = if Rleb threshold (4 / 13) then Some (scenario_pair uid_a uid_b) else None.
Proof.
  unfold score_pair. cbn [u_filePath kind_of u_kind unary_function].
  replace (truthy file_a && truthy file_b && String.eqb file_a file_b)
    with false
    by (destruct (String.eqb_spec file_a file_b);
        [congruence|now rewrite andb_false_r]).
  cbn [_is_comparable String.eqb Ascii.eqb Bool.eqb negb].
  change (negb (is_empty (embeddings arts))) with false.
  change (negb (is_empty (structural_patterns arts))) with false.
  rewrite scenario_signals_computed, scenario_score.
  destruct (Rleb threshold (4 / 13)); [|reflexivity].
  unfold scenario_pair. f_equal. f_equal.
  - apply round4_4_13.
  - unfold scenario_signals, map_values. cbn [map fst snd].
    now rewrite round4_one, round4_zero.
  - apply scenario_dominant.
Qed.

Lemma scenario_similarity_matrix (threshold : R) :
  similarity_matrix _sha256 [ua; ub] threshold
  = if Rleb threshold (4 / 13) then [scenario_pair uid_a uid_b] else [].
Proof.
  unfold similarity_matrix, compute_scores.
  change (units (stage_artifacts _sha256 [ua; ub] [] [])) with [ua; ub].
  replace (candidates (build_units_by_id [ua; ub]))
    with [(uid_a, ua); (uid_b, ub)]
    by now rewrite scenario_units_by_id.
  cbn [pairs_in_order map app flat_map fst snd].
  rewrite scenario_score_pair.
  destruct (Rleb threshold (4 / 13)); reflexivity.
Qed.

(** C1, as the code has it.  Two functions with
    [parameters = [{type: "string"}]], [returnType = "number"], no JSX
    tree, no callees and no consumers, with distinct non-empty ids and in
    different files, scored without optional artifacts: the recorded
    signals are [typeSignature = 1], [behavior = 1] (the two flag vectors
    agree in all eight positions), [neighborhood = 1] (both units hash the
    empty neighbourhood) and 0 for the other six; the score is the sum of
    the renormalised weights of these three signals, 4/13; and the
    similarity matrix holds exactly this pair, with score 0.3077 and
    dominant signal [typeSignature], if and only if the threshold is at
    most 4/13. *)
Theorem two_unary_functions_scored (threshold : R) :
  let weights := _get_weights (T:=R) false false "function" "function" in
  compute_signals weights arts units_by_id uid_a uid_b = scenario_signals
  /\ weighted_sum weights scenario_signals
     = get_or weights "typeSignature" 0 + get_or weights "behavior" 0
       + get_or weights "neighborhood" 0
  /\ weighted_sum weights scenario_signals = 4 / 13
  /\ similarity_matrix _sha256 [ua; ub] threshold
     = if Rleb threshold (4 / 13) then [scenario_pair uid_a uid_b] else [].
Proof.
  cbv zeta. split; [apply scenario_signals_computed|].
  destruct scenario_score_weights as (Ht & Hbh & Hn). cbv zeta in Ht, Hbh, Hn.
  rewrite Ht, Hbh, Hn, scenario_score.
  split; [lra|]. split; [reflexivity|]. apply scenario_similarity_matrix.
Qed.

End TwoFunctions.

(** C1 on two functions [f] and [g] of [a.ts] and [b.ts], at the
    threshold 0.3. *)
Lemma two_unary_functions_scored_witness :
  let weights := _get_weights (T:=R) false false "function" "function" in
  let ua := unary_function "a.ts::f" "a.ts" in
  let ub := unary_function "b.ts::g" "b.ts" in
  compute_signals weights (stage_artifacts Digest.digest [ua; ub] [] [])
    (build_units_by_id [ua; ub]) "a.ts::f" "b.ts::g" = scenario_signals
  /\ weighted_sum weights scenario_signals
     = get_or weights "typeSignature" 0 + get_or weights "behavior" 0
       + get_or weights "neighborhood" 0
  /\ weighted_sum weights scenario_signals = 4 / 13
  /\ similarity_matrix Digest.digest [ua; ub] 0.3
     = if Rleb 0.3 (4 / 13) then [scenario_pair "a.ts::f" "b.ts::g"] else [].
Proof.
  apply (two_unary_functions_scored Digest.digest
           (fun o => ltac:(discriminate))
           "a.ts::f" "b.ts::g" "a.ts" "b.ts");
    discriminate.
Defined.

(** The scenario at the threshold 0.25: the pair is in the matrix, two
    signals besides [typeSignature] are 1, the score exceeds the
    renormalised weight of [typeSignature] by more than 0.1, and that
    weight is below the threshold. *)
Lemma two_unary_functions_counterexample :
  let weights := _get_weights (T:=R) false false "function" "function" in
  let matrix :=
    similarity_matrix Digest.digest
      [unary_function "a.ts::f" "a.ts"; unary_function "b.ts::g" "b.ts"]
      0.25 in
  exists p,
    matrix = [p]
    /\ get (signals p) "behavior" = Some 1
    /\ get (signals p) "neighborhood" = Some 1
    /\ ~ only_type_signature p
    /\ score p - get_or weights "typeSignature" 0 > 0.1
    /\ get_or weights "typeSignature" 0 < 0.25.
Proof.
  cbv zeta. exists (scenario_pair "a.ts::f" "b.ts::g").
  destruct scenario_score_weights as (Ht & _). cbv zeta in Ht. rewrite Ht.
  split.
  - rewrite (scenario_similarity_matrix Digest.digest
               (fun o => ltac:(discriminate))
               "a.ts::f" "b.ts::g" "a.ts" "b.ts")
      by discriminate.
    now rewrite Rleb_true by lra.
  - repeat split; try reflexivity.
    + apply scenario_not_only_type_signature.
    + simpl. lra.
    + lra.
Qed.

End ScenarioFacts.

(** ** The similarity matrix: order, thresholds, recorded signals *)

Module MatrixFacts.
Import Py PyFacts NumFacts ByIdFacts SortFacts Weights WeightsFacts.
Import Vectors Similarity Score BoundsFacts.
Local Open Scope R_scope.

(** Inserting into a list that is sorted largest first keeps it sorted. *)
Lemma insert_desc_sorted {A} (key : A -> R) (x : A) (l : list A) :
  StronglySorted (fun p q => key q <= key p) l ->
  StronglySorted (fun p q => key q <= key p) (insert_desc key x l).
Proof.
  induction 1 as [|y rest Hs IH Hy]; simpl.
  - constructor; constructor.
  - unfold Rltb. destruct (Rlt_dec (key y) (key x)) as [Hlt|Hge].
    + constructor; [constructor; assumption|].
      constructor; [lra|].
      rewrite Forall_forall in Hy |- *. intros z Hz.
      specialize (Hy z Hz). simpl in Hy. lra.
    + constructor; [assumption|].
      rewrite Forall_forall in Hy |- *. intros z Hz.
      apply In_insert_desc in Hz. destruct Hz as [->|Hz]; [lra|auto].
Qed.

Lemma sort_desc_sorted_acc {A} (key : A -> R) (l acc : list A) :
  StronglySorted (fun p q => key q <= key p) acc ->
  StronglySorted (fun p q => key q <= key p)
    (fold_left (fun acc x => insert_desc key x acc) l acc).
Proof.
  revert acc. induction l as [|x l IH]; simpl; intros acc Hacc; [assumption|].
  apply IH, insert_desc_sorted, Hacc.
Qed.

Lemma sort_desc_sorted {A} (key : A -> R) (l : list A) :
  StronglySorted (fun p q => key q <= key p) (sort_desc key l).
Proof. apply sort_desc_sorted_acc. constructor. Qed.

Lemma insert_desc_perm {A} (key : A -> R) (x : A) (l : list A) :
  Permutation (insert_desc key x l) (x :: l).
Proof.
  induction l as [|y l IH]; simpl; [reflexivity|].
  destruct (Rltb (key y) (key x)); [reflexivity|].
  rewrite IH. apply perm_swap.
Qed.

Lemma sort_desc_perm_acc {A} (key : A -> R) (l acc : list A) :
  Permutation (fold_left (fun acc x => insert_desc key x acc) l acc) (l ++ acc).
Proof.
  revert acc. induction l as [|x l IH]; simpl; intros acc; [reflexivity|].
  rewrite IH, insert_desc_perm. apply Permutation_sym, Permutation_middle.
Qed.

Lemma sort_desc_perm {A} (key : A -> R) (l : list A) :
  Permutation (sort_desc key l) l.
Proof.
  unfold sort_desc. rewrite sort_desc_perm_acc. now rewrite app_nil_r.
Qed.

(** X1.  The similarity matrix is written in descending order of the
    recorded score: every entry's score is at least the score of every
    entry after it. *)
Theorem similarity_matrix_sorted (arts : artifacts) (threshold : R) :
  StronglySorted (fun p q => score q <= score p)
    (compute_scores arts threshold).
Proof. unfold compute_scores. apply sort_desc_sorted. Qed.


(** *** Which pairs are scored *)

Lemma pairs_in_order_In {A} (l : list A) (a b : A) :
  In (a, b) (pairs_in_order l) -> In a l /\ In b l.
Proof.
  induction l as [|x l IH]; simpl; [tauto|].
  rewrite in_app_iff, in_map_iff. intros [(y & [= <- <-] & Hy)|H].
  - tauto.
  - destruct (IH H). tauto.
Qed.

Lemma pairs_in_order_distinct {A B} (f : A -> B) (l : list A) (a b : A) :
  NoDup (map f l) -> In (a, b) (pairs_in_order l) -> f a <> f b.
Proof.
  induction l as [|x l IH]; simpl; [tauto|].
  intros Hnd. inversion Hnd as [|? ? Hx Hl]; subst.
  rewrite in_app_iff, in_map_iff. intros [(y & [= <- <-] & Hy)|H].
  - intros Heq. apply Hx. rewrite Heq. now apply in_map.
  - now apply IH.
Qed.

Lemma wf_build_units_by_id (units : list code_unit) :
  wf_dict (build_units_by_id units).
Proof.
  unfold build_units_by_id.
  assert (forall acc : dict code_unit, wf_dict acc ->
            wf_dict (fold_left
                       (fun acc u => if truthy (u_id u)
                                     then setitem acc (u_id u) u else acc)
                       units acc)) as H.
  { induction units as [|u units IH]; simpl; intros acc Hacc; [assumption|].
    apply IH. destruct (truthy (u_id u)); [now apply wf_setitem|assumption]. }
  apply H. constructor.
Qed.

Lemma keys_build_units_by_id (units : list code_unit) (k : string) :
  In k (keys (build_units_by_id units)) -> k <> "" /\ In k (map u_id units).
Proof.
  unfold build_units_by_id. intros H.
  apply (by_id_keys (fun u => u)) in H. simpl in H. tauto.
Qed.

(** What [score_pair] has tested when it returns a pair. *)
Lemma score_pair_tests (arts : artifacts) (units_by_id : dict code_unit)
    (threshold : R) (uid_a uid_b : string) (ua ub : code_unit)
    (p : scored_pair) :
  score_pair arts units_by_id threshold (uid_a, ua) (uid_b, ub) = Some p ->
  unitA p = uid_a /\ unitB p = uid_b
  /\ _is_comparable (kind_of ua) (kind_of ub) = true
  /\ (u_filePath ua = u_filePath ub -> u_filePath ua = "").
Proof.
  unfold score_pair.
  destruct (truthy (u_filePath ua) && truthy (u_filePath ub)
            && String.eqb (u_filePath ua) (u_filePath ub)) eqn:Hfile;
    [discriminate|].
  destruct (_is_comparable (kind_of ua) (kind_of ub)) eqn:Hcmp;
    [|discriminate].
  cbn [negb]. destruct (Rleb threshold _); [|discriminate].
  intros [= <-]. cbn [unitA unitB]. repeat split.
  intros Heq. rewrite <- Heq, String.eqb_refl, andb_true_r, andb_diag in Hfile.
  destruct (u_filePath ua); [reflexivity|discriminate].
Qed.

(** X2.  Every entry of the similarity matrix joins two different units of
    the inventory, both with a non-empty id and a kind that is not skipped,
    whose kinds are comparable and which do not sit in the same (named)
    file. *)
Theorem emitted_pairs_join_comparable_units (arts : artifacts)
    (threshold : R) :
  let units_by_id := build_units_by_id (units arts) in
  Forall
    (fun p =>
       unitA p <> unitB p /\ unitA p <> "" /\ unitB p <> ""
       /\ exists ua ub,
            get units_by_id (unitA p) = Some ua
            /\ get units_by_id (unitB p) = Some ub
            /\ mem (kind_of ua) _SKIP_KINDS = false
            /\ mem (kind_of ub) _SKIP_KINDS = false
            /\ _is_comparable (kind_of ua) (kind_of ub) = true
            /\ (u_filePath ua = u_filePath ub -> u_filePath ua = ""))
    (compute_scores arts threshold).
Proof.
  intros units_by_id. apply Forall_forall. intros p Hp.
  unfold compute_scores in Hp. fold units_by_id in Hp.
  apply In_sort_desc, in_flat_map in Hp.
  destruct Hp as ([[uid_a ua] [uid_b ub]] & Hab & Hp). cbn [fst snd] in Hp.
  destruct (score_pair _ _ _ _ _) as [q|] eqn:Hq; [|contradiction].
  destruct Hp as [->|[]].
  destruct (score_pair_tests _ _ _ _ _ _ _ _ Hq) as (HA & HB & Hcmp & Hfile).
  pose proof (wf_build_units_by_id (units arts)) as Hwf. fold units_by_id in Hwf.
  assert (NoDup (map fst (candidates units_by_id))) as Hnd.
  { unfold candidates. now apply SymmetryFacts.filter_keeps_keys_distinct. }
  pose proof (pairs_in_order_distinct fst _ _ _ Hnd Hab) as Hne.
  apply pairs_in_order_In in Hab. destruct Hab as [Ha Hb].
  unfold candidates in Ha, Hb. apply filter_In in Ha, Hb.
  destruct Ha as [Ha Hka], Hb as [Hb Hkb]. cbn [snd] in Hka, Hkb.
  apply negb_true_iff in Hka, Hkb.
  assert (forall k u, In (k, u) units_by_id -> k <> "") as Hid.
  { intros k u Hin.
    apply (keys_build_units_by_id (units arts)).
    unfold keys. change k with (fst (k, u)). now apply in_map. }
  rewrite HA, HB. cbn [fst] in Hne.
  split; [assumption|]. split; [now apply (Hid _ ua)|].
  split; [now apply (Hid _ ub)|].
  exists ua, ub. repeat split; try assumption; now apply In_get.
Qed.

(** *** Rounding and the threshold *)

Lemma round_half_even_mono (x y : R) :
  x <= y -> (round_half_even x <= round_half_even y)%Z.
Proof.
  intros Hxy.
  destruct (Z_le_gt_dec (round_half_even x) (round_half_even y)) as [|Hgt];
    [assumption|exfalso].
  pose proof (round_half_even_close x) as [_ Hx].
  pose proof (round_half_even_close y) as [Hy _].
  assert (round_half_even y + 1 <= round_half_even x)%Z as H by lia.
  apply IZR_le in H. rewrite plus_IZR in H.
  assert (x = y) by lra. subst. lia.
Qed.

Lemma round4_mono (x y : R) : x <= y -> round4 x <= round4 y.
Proof.
  intros Hxy. unfold round4.
  assert (IZR (round_half_even (x * 10000))
          <= IZR (round_half_even (y * 10000))) as H.
  { apply IZR_le, round_half_even_mono. lra. }
  lra.
Qed.

Lemma round4_grid (k : Z) : round4 (IZR k / 10000) = IZR k / 10000.
Proof.
  unfold round4. f_equal. f_equal.
  replace (IZR k / 10000 * 10000) with (IZR k) by lra.
  apply Z.le_antisymm.
  - apply round_half_even_le. lra.
  - apply round_half_even_ge. lra.
Qed.

Lemma round4_close (x : R) : x - 1 / 20000 <= round4 x <= x + 1 / 20000.
Proof.
  unfold round4. pose proof (round_half_even_close (x * 10000)). lra.
Qed.

(** The unrounded score behind an entry. *)
Lemma score_pair_threshold (arts : artifacts) (units_by_id : dict code_unit)
    (threshold : R) (a b : string * code_unit) (p : scored_pair) :
  score_pair arts units_by_id threshold a b = Some p ->
  exists s, threshold <= s /\ score p = round4 s.
Proof.
  unfold score_pair. destruct a as [uid_a ua], b as [uid_b ub].
  destruct (_ && _); [discriminate|].
  destruct (negb _); [discriminate|].
  destruct (Rleb threshold _) eqn:Hle; [|discriminate].
  intros [= <-]. cbn [score]. eexists. split; [|reflexivity].
  now apply Rleb_spec.
Qed.

(** X3.  The threshold is tested on the unrounded score and the score is
    then rounded to four decimals: a recorded score is never more than
    0.00005 below the threshold, and never below a threshold that has at
    most four decimals itself (such as the default 0.35), so that such an
    entry passes the same threshold again when the cluster stage tests
    it. *)
Theorem emitted_scores_reach_threshold (arts : artifacts) :
  (forall threshold : R,
     Forall (fun p => threshold - 1 / 20000 <= score p)
       (compute_scores arts threshold))
  /\ (forall k : Z,
        Forall (fun p => IZR k / 10000 <= score p
                         /\ Rleb (IZR k / 10000) (score p) = true)
          (compute_scores arts (IZR k / 10000))).
Proof.
  split.
  - intros threshold. apply Forall_forall. intros p Hp.
    apply compute_scores_from in Hp. destruct Hp as (a & b & Hp).
    apply score_pair_threshold in Hp. destruct Hp as (s & Hs & ->).
    pose proof (round4_close s). lra.
  - intros k. apply Forall_forall. intros p Hp.
    apply compute_scores_from in Hp. destruct Hp as (a & b & Hp).
    apply score_pair_threshold in Hp. destruct Hp as (s & Hs & ->).
    assert (IZR k / 10000 <= round4 s) as H.
    { rewrite <- (round4_grid k). now apply round4_mono. }
    split; [assumption|now apply Rleb_true].
Qed.


(** *** The recorded signals *)

Lemma keys_setitem_new {V} (d : dict V) (k : string) (v : V) :
  ~ In k (keys d) -> keys (setitem d k v) = keys d ++ [k].
Proof.
  induction d as [|[k' v'] d IH]; simpl; intros Hk; [reflexivity|].
  destruct (String.eqb_spec k' k) as [->|Hne]; [tauto|].
  simpl. f_equal. apply IH. tauto.
Qed.

(** The signals are recorded in the order of the thirteen tests, one for
    every name that carries a weight. *)
Lemma keys_fill_signals (weights : dict R) (l acc : dict R) :
  NoDup (keys acc ++ keys l) ->
  keys (fold_left
          (fun signals name_val =>
             if contains weights (fst name_val)
             then setitem signals (fst name_val) (snd name_val)
             else signals)
          l acc)
  = keys acc ++ filter (contains weights) (keys l).
Proof.
  revert acc. induction l as [|[n v] l IH]; simpl; intros acc Hnd.
  - now rewrite app_nil_r.
  - cbn [fst snd].
    assert (~ In n (keys acc)) as Hn.
    { intros Hin. apply NoDup_remove_2 in Hnd. apply Hnd.
      apply in_or_app. now left. }
    destruct (contains weights n).
    + rewrite IH.
      * rewrite keys_setitem_new by assumption. now rewrite <- app_assoc.
      * rewrite keys_setitem_new by assumption. rewrite <- app_assoc. exact Hnd.
    + apply IH. now apply NoDup_remove_1 in Hnd.
Qed.

Lemma keys_compute_signals (weights : dict R) (arts : artifacts)
    (units_by_id : dict code_unit) (uid_a uid_b : string) :
  keys (compute_signals weights arts units_by_id uid_a uid_b)
  = filter (contains weights)
      [ "semantic"; "typeSignature"; "jsxStructure"; "hookProfile"; "imports";
        "dataAccess"; "behavior"; "calleeSet"; "callSequence"; "consumerSet";
        "coOccurrence"; "neighborhood"; "structuralPattern" ].
Proof.
  unfold compute_signals. rewrite keys_fill_signals.
  - reflexivity.
  - apply NoDup_by_nodup. reflexivity.
Qed.

Lemma keys_renormalize (d : dict R) : keys (renormalize d) = keys d.
Proof.
  unfold renormalize. destruct (pos _); [apply keys_map_values|reflexivity].
Qed.

Lemma contains_keys {V W} (d : dict V) (d' : dict W) (k : string) :
  keys d = keys d' -> contains d k = contains d' k.
Proof.
  revert d'. induction d as [|[k1 v1] d IH]; intros [|[k2 v2] d'];
    simpl; try discriminate; [reflexivity|].
  intros [= -> Hk]. unfold contains in *. simpl.
  destruct (String.eqb k2 k); [reflexivity|]. now apply IH.
Qed.

(** Which signals carry weight: the two optional ones when their artifact
    is there, the two structural ones for the kinds they apply to, and the
    other nine always. *)
Lemma keys_get_weights (he hs : bool) (ka kb : string) :
  let both_components :=
    String.eqb ka "component" && String.eqb kb "component" in
  let both_hooked :=
    (String.eqb ka "component" || String.eqb ka "hook")
    && (String.eqb kb "component" || String.eqb kb "hook") in
  keys (_get_weights (T:=R) he hs ka kb)
  = (if he then ["semantic"] else [])
    ++ ["typeSignature"]
    ++ (if both_components then ["jsxStructure"] else [])
    ++ (if both_hooked then ["hookProfile"] else [])
    ++ [ "imports"; "dataAccess"; "behavior"; "calleeSet"; "callSequence";
         "consumerSet"; "coOccurrence"; "neighborhood" ]
    ++ (if hs then ["structuralPattern"] else []).
Proof.
  cbv zeta. unfold _get_weights. rewrite keys_renormalize.
  unfold drop_inapplicable.
  generalize (String.eqb ka "component" && String.eqb kb "component")%bool.
  generalize ((String.eqb ka "component" || String.eqb ka "hook")
    && (String.eqb kb "component" || String.eqb kb "hook"))%bool.
  intros b2 b1. destruct he, hs, b1, b2; reflexivity.
Qed.

(** X5.  Which signals an entry records depends only on the optional
    artifacts and on the two kinds: [semantic] exactly when embeddings
    exist, [structuralPattern] exactly when structural patterns exist,
    [jsxStructure] exactly for two components, [hookProfile] exactly when
    each unit is a component or a hook; the other nine signals are always
    recorded.  They are recorded in the order in which they are computed. *)
Theorem recorded_signals_follow_kinds (he hs : bool) (ka kb : string)
    (arts : artifacts) (units_by_id : dict code_unit) (uid_a uid_b : string) :
  let names :=
    keys (map_values round4
            (compute_signals (_get_weights (T:=R) he hs ka kb)
               arts units_by_id uid_a uid_b)) in
  names = keys (_get_weights (T:=R) he hs ka kb)
  /\ (In "semantic" names <-> he = true)
  /\ (In "structuralPattern" names <-> hs = true)
  /\ (In "jsxStructure" names <-> ka = "component" /\ kb = "component")
  /\ (In "hookProfile" names
      <-> (ka = "component" \/ ka = "hook")
          /\ (kb = "component" \/ kb = "hook"))
  /\ incl [ "typeSignature"; "imports"; "dataAccess"; "behavior"; "calleeSet";
            "callSequence"; "consumerSet"; "coOccurrence"; "neighborhood" ]
       names.
Proof.
  cbv zeta. rewrite keys_map_values, keys_compute_signals.
  assert (forall n, contains (_get_weights (T:=R) he hs ka kb) n
                    = mem n (keys (_get_weights (T:=R) he hs ka kb))) as Hc.
  { intros n. generalize (_get_weights (T:=R) he hs ka kb). intros d.
    unfold contains. induction d as [|[k v] d IH]; simpl; [reflexivity|].
    rewrite (String.eqb_sym n k). destruct (String.eqb k n); [reflexivity|].
    exact IH. }
  rewrite (filter_ext _ _ Hc).
  pose proof (keys_get_weights he hs ka kb) as Hk. cbv zeta in Hk.
  rewrite Hk. clear Hc Hk.
  rewrite <- !(String.eqb_eq ka), <- !(String.eqb_eq kb).
  rewrite <- !orb_true_iff, <- !andb_true_iff.
  generalize (String.eqb ka "component" && String.eqb kb "component")%bool.
  generalize ((String.eqb ka "component" || String.eqb ka "hook")
    && (String.eqb kb "component" || String.eqb kb "hook"))%bool.
  intros b2 b1.
  destruct he, hs, b1, b2; cbn;
    (split; [reflexivity|]);
    repeat split; try (intros; discriminate); try tauto;
    try (intuition discriminate);
    try (intros n Hn; simpl in Hn; simpl; tauto).
Qed.

(** *** The dominant signal *)

Lemma first_max_spec (rest : dict R) (best : string) (best_val : R) :
  exists v,
    In (first_max best best_val rest, v) ((best, best_val) :: rest)
    /\ forall n' v', In (n', v') ((best, best_val) :: rest) -> v' <= v.
Proof.
  revert best best_val. induction rest as [|[n val] rest IH]; intros best bv.
  - exists bv. simpl. split; [now left|].
    intros n' v' [[= <- <-]|[]]. lra.
  - simpl first_max. unfold Rltb. destruct (Rlt_dec bv val) as [Hlt|Hge].
    + destruct (IH n val) as (v & Hin & Hmax). exists v. split.
      * right. exact Hin.
      * intros n' v' [[= <- <-]|Hin'].
        -- specialize (Hmax n val (or_introl eq_refl)). lra.
        -- now apply (Hmax n').
    + destruct (IH best bv) as (v & Hin & Hmax). exists v. split.
      * destruct Hin as [Hin|Hin]; [now left|right; now right].
      * intros n' v' [[= <- <-]|[[= <- <-]|Hin']].
        -- now apply (Hmax best); left.
        -- specialize (Hmax best bv (or_introl eq_refl)). lra.
        -- apply (Hmax n'). now right.
Qed.

Lemma dominant_signal_spec (signals : dict R) :
  signals <> [] ->
  exists v,
    In (dominant_signal signals, v) signals
    /\ forall n' v', In (n', v') signals -> v' <= v.
Proof.
  destruct signals as [|[n val] rest]; [congruence|]. intros _.
  apply first_max_spec.
Qed.

Lemma compute_signals_nonempty (he hs : bool) (ka kb : string)
    (arts : artifacts) (units_by_id : dict code_unit) (uid_a uid_b : string) :
  compute_signals (_get_weights (T:=R) he hs ka kb) arts units_by_id uid_a uid_b
  <> [].
Proof.
  intros Heq.
  assert (In "typeSignature"
            (keys (compute_signals (_get_weights (T:=R) he hs ka kb)
                     arts units_by_id uid_a uid_b))) as H.
  { rewrite keys_compute_signals. apply filter_In. split.
    - simpl. tauto.
    - unfold _get_weights.
      rewrite (contains_keys _ _ _ (keys_renormalize _)).
      apply adapted_has_typeSignature. }
  rewrite Heq in H. exact H.
Qed.

(** X4.  The dominant signal of an entry is one of its recorded signals,
    and no recorded signal has a larger recorded value. *)
Theorem dominant_signal_is_largest (arts : artifacts) (threshold : R) :
  Forall
    (fun p =>
       exists v,
         In (dominantSignal p, v) (signals p)
         /\ forall n' v', In (n', v') (signals p) -> v' <= v)
    (compute_scores arts threshold).
Proof.
  apply Forall_forall. intros p Hp.
  apply compute_scores_from in Hp.
  destruct Hp as ([uid_a ua] & [uid_b ub] & Hp).
  unfold score_pair in Hp.
  destruct (_ && _); [discriminate|].
  destruct (negb _); [discriminate|].
  destruct (Rleb threshold _); [|discriminate].
  injection Hp as <-. cbn [dominantSignal signals].
  destruct (dominant_signal_spec _
              (compute_signals_nonempty
                 (negb (is_empty (embeddings arts)))
                 (negb (is_empty (structural_patterns arts)))
                 (kind_of ua) (kind_of ub) arts
                 (build_units_by_id (units arts)) uid_a uid_b))
    as (v & Hin & Hmax).
  exists (round4 v). split.
  - unfold map_values. apply in_map_iff.
    eexists. split; [|exact Hin]. reflexivity.
  - intros n' v' Hin'. unfold map_values in Hin'.
    apply in_map_iff in Hin'. destruct Hin' as ([n0 v0] & [= <- <-] & Hin0).
    apply round4_mono. now apply (Hmax n0).
Qed.

(** *** Units without a fingerprint *)

Lemma normalized_hamming_nil_l (b : list Z) :
  b <> [] -> normalized_hamming [] b = 0.
Proof.
  destruct b as [|x b]; [congruence|]. intros _.
  unfold normalized_hamming, mismatch_count.
  cbn [is_empty andb List.length Nat.eqb negb combine filter Nat.min Nat.max
       Nat.sub Nat.add].
  rewrite Nat.add_0_r.
  assert (0 < INR (S (List.length b))) by (apply lt_0_INR; lia).
  field. lra.
Qed.

(** X6.  A unit that the fingerprint artifact does not know has behaviour
    similarity 1 with another such unit, but 0 with every unit that has
    behaviour flags. *)
Theorem behavior_signal_without_fingerprint (uid_a uid_b : string)
    (fps : dict fingerprint) :
  get fps uid_a = None ->
  match get fps uid_b with
  | None => sig_behavior uid_a uid_b fps = 1
  | Some fp => behaviorFlags fp <> [] -> sig_behavior uid_a uid_b fps = 0
  end.
Proof.
  intros Ha. unfold sig_behavior. rewrite Ha.
  destruct (get fps uid_b) as [fp|]; [|reflexivity].
  intros Hb. destruct (behaviorFlags fp) as [|x l] eqn:Hfl; [congruence|].
  cbn [is_empty andb]. apply normalized_hamming_nil_l. discriminate.
Qed.

(** X6 on the sample artifacts: a unit they do not know against one they
    know. *)
Lemma behavior_signal_without_fingerprint_witness :
  sig_behavior "lib/ghost.ts::g" "a.tsx::List" (fps Scenario.sample_artifacts)
  = 0.
Proof.
  pose proof (behavior_signal_without_fingerprint "lib/ghost.ts::g"
                "a.tsx::List" (fps Scenario.sample_artifacts) eq_refl) as H.
  cbn in H. apply H. discriminate.
Defined.

End MatrixFacts.

(** ** The longest common subsequence *)

Module SequenceFacts.
Import Py PyFacts NumFacts Similarity SimilaritySpec.
Local Open Scope R_scope.

Lemma subsequence_nil_l (l : list string) : subsequence [] l.
Proof. induction l; constructor; assumption. Qed.

Lemma subsequence_refl (l : list string) : subsequence l l.
Proof. induction l; constructor; assumption. Qed.

Lemma subsequence_length (s l : list string) :
  subsequence s l -> (List.length s <= List.length l)%nat.
Proof. induction 1; simpl; lia. Qed.

Lemma subsequence_tail (z : string) (s l : list string) :
  subsequence (z :: s) l -> subsequence s l.
Proof.
  remember (z :: s) as zs eqn:E. intros H. revert z s E.
  induction H as [|s' l y H IH|s' l x H IH]; intros z s E.
  - discriminate.
  - apply subsequence_skip. now apply (IH z).
  - injection E as -> ->. now apply subsequence_skip.
Qed.

Lemma subsequence_behead (z x : string) (s l : list string) :
  subsequence (z :: s) (x :: l) -> subsequence s l.
Proof.
  intros H. inversion H; subst.
  - now apply (subsequence_tail z).
  - assumption.
Qed.

Lemma subsequence_app (s1 l1 s2 l2 : list string) :
  subsequence s1 l1 -> subsequence s2 l2 -> subsequence (s1 ++ s2) (l1 ++ l2).
Proof.
  induction 1; simpl; intros H2.
  - assumption.
  - apply subsequence_skip. auto.
  - apply subsequence_take. auto.
Qed.

Lemma subsequence_rev (s l : list string) :
  subsequence s l -> subsequence (rev s) (rev l).
Proof.
  induction 1; simpl.
  - constructor.
  - replace (rev s) with (rev s ++ []) by apply app_nil_r.
    apply subsequence_app; [assumption|apply subsequence_nil_l].
  - apply subsequence_app; [assumption|apply subsequence_refl].
Qed.

Lemma longest_common_rev (p q : list string) (n : nat) :
  longest_common (rev p) (rev q) n -> longest_common p q n.
Proof.
  intros [(s & Hp & Hq & Hn) Hmax]. split.
  - exists (rev s). apply subsequence_rev in Hp, Hq.
    rewrite rev_involutive in Hp, Hq. now rewrite length_rev.
  - intros s' Hp' Hq'. rewrite <- length_rev.
    apply Hmax; now apply subsequence_rev.
Qed.

Lemma longest_common_nil_l (q : list string) : longest_common [] q 0.
Proof.
  split.
  - exists []. repeat split; [constructor|apply subsequence_nil_l].
  - intros s Hs _. apply subsequence_length in Hs. simpl in Hs. lia.
Qed.

Lemma longest_common_nil_r (p : list string) : longest_common p [] 0.
Proof.
  split.
  - exists []. repeat split; [apply subsequence_nil_l|constructor].
  - intros s _ Hs. apply subsequence_length in Hs. simpl in Hs. lia.
Qed.

(** The two cases of the recurrence. *)
Lemma longest_common_match (x : string) (p q : list string) (d : nat) :
  longest_common p q d -> longest_common (x :: p) (x :: q) (d + 1).
Proof.
  intros [(s & Hp & Hq & Hn) Hmax]. split.
  - exists (x :: s).
    repeat split; try (now apply subsequence_take). simpl. lia.
  - intros [|z s'] Hp' Hq'; simpl; [lia|].
    apply subsequence_behead in Hp', Hq'.
    specialize (Hmax s' Hp' Hq'). lia.
Qed.

Lemma longest_common_mismatch (x y : string) (p q : list string) (u l : nat) :
  x <> y ->
  longest_common p (y :: q) u -> longest_common (x :: p) q l ->
  longest_common (x :: p) (y :: q) (Nat.max u l).
Proof.
  intros Hxy [(su & Hup & Huq & Hun) Humax] [(sl & Hlp & Hlq & Hln) Hlmax].
  split.
  - destruct (Nat.max_spec u l) as [[_ ->]|[_ ->]].
    + exists sl. repeat split; try assumption. now apply subsequence_skip.
    + exists su. repeat split; try assumption. now apply subsequence_skip.
  - intros s Hp Hq. inversion Hp; subst.
    + specialize (Humax s ltac:(assumption) Hq). lia.
    + inversion Hq; subst.
      * assert (subsequence (x :: s0) (x :: p)) as Hp'
          by now apply subsequence_take.
        specialize (Hlmax (x :: s0) Hp' ltac:(assumption)). lia.
      * congruence.
Qed.

(** The first row: nothing of [seq_a] read yet. *)
Lemma row_answers_zero (rdone rest : list string) :
  row_answers [] rdone rest (repeat 0%nat (S (List.length rest))).
Proof.
  revert rdone. induction rest as [|y rest IH]; intros rdone; simpl.
  - split; [apply longest_common_nil_l|reflexivity].
  - split; [apply longest_common_nil_l|]. apply IH.
Qed.

(** One pass of the inner loop turns the row of a prefix into the row of
    the prefix extended by [x]. *)
Lemma row_answers_step (x : string) (rp : list string) :
  forall (rest rdone : list string) (prev : list nat) (left : nat),
    row_answers rp rdone rest prev ->
    longest_common (x :: rp) rdone left ->
    row_answers (x :: rp) rdone rest (left :: lcs_row x rest prev left).
Proof.
  induction rest as [|y rest IH]; intros rdone prev left Hprev Hleft.
  - destruct prev as [|d prev]; [contradiction|].
    destruct Hprev as [_ ->]. simpl. tauto.
  - destruct prev as [|d prev]; [contradiction|].
    destruct Hprev as [Hd Hprev].
    destruct prev as [|up prev]; [simpl in Hprev; contradiction|].
    cbn [lcs_row]. split; [assumption|].
    apply IH; [assumption|].
    destruct Hprev as [Hup _].
    destruct (String.eqb_spec x y) as [->|Hne].
    + now apply longest_common_match.
    + now apply longest_common_mismatch.
Qed.

Lemma row_answers_table (seq_b : list string) :
  forall (seq_a rp : list string) (row : list nat),
    row_answers rp [] seq_b row ->
    row_answers (rev seq_a ++ rp) [] seq_b
      (fold_left (fun prev x => 0%nat :: lcs_row x seq_b prev 0) seq_a row).
Proof.
  induction seq_a as [|x seq_a IH]; intros rp row Hrow; simpl.
  - assumption.
  - rewrite <- app_assoc. simpl. apply IH.
    apply row_answers_step; [assumption|apply longest_common_nil_r].
Qed.

Lemma row_answers_last (rp : list string) :
  forall (rest rdone : list string) (row : list nat),
    row_answers rp rdone rest row ->
    longest_common rp (rev rest ++ rdone) (nth (List.length rest) row 0%nat).
Proof.
  induction rest as [|y rest IH]; intros rdone row Hrow.
  - destruct row as [|v row]; [contradiction|]. destruct Hrow as [Hv _].
    exact Hv.
  - destruct row as [|v row]; [contradiction|]. destruct Hrow as [_ Hrow].
    simpl. rewrite <- app_assoc. simpl. now apply IH.
Qed.

(** The table of [lcs_ratio] holds the length of a longest common
    subsequence in its last cell. *)
Lemma lcs_length_longest (seq_a seq_b : list string) :
  longest_common seq_a seq_b (lcs_length seq_a seq_b).
Proof.
  apply longest_common_rev. unfold lcs_length, lcs_table.
  pose proof (row_answers_table seq_b seq_a [] _ (row_answers_zero [] seq_b))
    as H.
  apply row_answers_last in H. now rewrite !app_nil_r in H.
Qed.

Lemma longest_common_unique (p q : list string) (n m : nat) :
  longest_common p q n -> longest_common p q m -> n = m.
Proof.
  intros [(s & Hp & Hq & Hn) Hmax] [(s' & Hp' & Hq' & Hm) Hmax'].
  specialize (Hmax s' Hp' Hq'). specialize (Hmax' s Hp Hq). lia.
Qed.

(** X7.  [lcs_ratio] is 0 when either sequence is empty; otherwise the
    number it divides by the longer length is the length of a longest
    common subsequence: some sequence of that length is a subsequence of
    both arguments, and no common subsequence is longer. *)
Theorem lcs_ratio_longest_common_subsequence (seq_a seq_b : list string) :
  (seq_a = [] \/ seq_b = [] -> lcs_ratio seq_a seq_b = 0)
  /\ exists n : nat,
       longest_common seq_a seq_b n
       /\ (seq_a <> [] -> seq_b <> [] ->
           lcs_ratio seq_a seq_b
           = INR n / INR (Nat.max (List.length seq_a) (List.length seq_b))).
Proof.
  split.
  - unfold lcs_ratio. intros [-> | ->]; [reflexivity|].
    now rewrite orb_true_r.
  - exists (lcs_length seq_a seq_b). split; [apply lcs_length_longest|].
    intros Ha Hb. unfold lcs_ratio.
    destruct seq_a; [congruence|]. destruct seq_b; [congruence|]. reflexivity.
Qed.

(** X8.  [lcs_ratio] lies in [0, 1], does not depend on the order of its
    two arguments, and is 1 on two equal non-empty sequences. *)
Theorem lcs_ratio_bounds_symmetry_identity (seq_a seq_b : list string) :
  0 <= lcs_ratio seq_a seq_b <= 1
  /\ lcs_ratio seq_a seq_b = lcs_ratio seq_b seq_a
  /\ (seq_a <> [] -> lcs_ratio seq_a seq_a = 1).
Proof.
  assert (forall a b : list string,
            a <> [] -> b <> [] ->
            (0 < Nat.max (List.length a) (List.length b))%nat) as Hpos.
  { intros [|x a] [|y b] Ha Hb; try congruence. simpl. lia. }
  split; [|split].
  - unfold lcs_ratio.
    destruct (is_empty seq_a || is_empty seq_b) eqn:He; [lra|].
    apply orb_false_elim in He. destruct He as [Ha Hb].
    assert (seq_a <> []) as Ha' by (intros ->; discriminate).
    assert (seq_b <> []) as Hb' by (intros ->; discriminate).
    destruct (lcs_length_longest seq_a seq_b) as [(s & Hp & Hq & Hn) _].
    apply subsequence_length in Hp.
    apply BoundsFacts.ratio_unit_interval; [lia|now apply Hpos].
  - unfold lcs_ratio. rewrite (orb_comm (is_empty seq_b)), (Nat.max_comm (List.length seq_b)).
    destruct (is_empty seq_a || is_empty seq_b); [reflexivity|].
    f_equal. f_equal.
    apply (longest_common_unique seq_a seq_b); [apply lcs_length_longest|].
    destruct (lcs_length_longest seq_b seq_a) as [(s & Hp & Hq & Hn) Hmax].
    split; [exists s; tauto|]. intros s' Hp' Hq'. now apply Hmax.
  - intros Ha. unfold lcs_ratio.
    destruct seq_a as [|x a]; [congruence|]. cbn [is_empty orb].
    rewrite Nat.max_id.
    assert (lcs_length (x :: a) (x :: a) = List.length (x :: a)) as ->.
    { apply (longest_common_unique (x :: a) (x :: a));
        [apply lcs_length_longest|]. split.
      - exists (x :: a). repeat split; apply subsequence_refl.
      - intros s Hs _. now apply subsequence_length. }
    apply Rinv_r. apply not_0_INR. simpl. lia.
Qed.

End SequenceFacts.

(** ** Laws of the vector and set similarities *)

Module VectorLaws.
Import Py PyFacts NumFacts Vectors Similarity.
Local Open Scope R_scope.

(** *** jaccard_sim *)

Lemma card_pos_nonempty (s : pyset) : s <> [] -> (0 < card s)%nat.
Proof.
  intros Hs. destruct (card s) eqn:Hc; [|lia].
  apply card_zero in Hc. congruence.
Qed.

Lemma card_eq_incl (s t : pyset) :
  incl s t -> card s = card t -> incl t s.
Proof.
  unfold card. intros Hst Hc x Hx.
  apply (nodup_In string_dec).
  apply (NoDup_length_incl (NoDup_nodup string_dec s)
           (l' := nodup string_dec t)).
  - lia.
  - intros y Hy. apply nodup_In. apply Hst. now apply nodup_In in Hy.
  - now apply nodup_In.
Qed.

(** X11.  The Jaccard similarity is 1 exactly for two equal non-empty
    sets, and 0 exactly for two sets without a common element (two empty
    sets included). *)
Theorem jaccard_sim_extremes (a b : pyset) :
  (jaccard_sim a b = 1 <-> a <> [] /\ forall x, In x a <-> In x b)
  /\ (jaccard_sim a b = 0 <-> forall x, In x a -> ~ In x b).
Proof.
  unfold jaccard_sim.
  destruct (is_empty a && is_empty b) eqn:He.
  - apply andb_true_iff in He. destruct He as [Ha Hb].
    apply is_empty_true in Ha, Hb. subst. split.
    + split; [lra|]. intros [H _]. congruence.
    + split; [intros _ x []|reflexivity].
  - assert (union a b <> []) as Hu.
    { unfold union. destruct a; [|discriminate].
      destruct b; [discriminate|discriminate]. }
    pose proof (card_pos_nonempty _ Hu) as Hpos.
    destruct (Nat.eqb_spec (card (union a b)) 0) as [Hz|_]; [lia|].
    assert (0 < INR (card (union a b))) as HposR by now apply lt_0_INR.
    assert (incl (inter a b) (union a b)) as Hiu.
    { intros x Hx. apply In_inter in Hx. apply In_union. tauto. }
    split.
    + split.
      * intros H1.
        assert (INR (card (inter a b)) = INR (card (union a b))) as Hc.
        { apply (Rmult_eq_reg_r (/ INR (card (union a b)))).
          - unfold Rdiv in H1. rewrite H1. field. lra.
          - apply Rinv_neq_0_compat. lra. }
        apply INR_eq in Hc.
        pose proof (card_eq_incl _ _ Hiu Hc) as Hui.
        assert (forall x, In x a <-> In x b) as Hab.
        { intros x. split; intros Hx.
          - assert (In x (union a b)) as H by (apply In_union; tauto).
            apply Hui, In_inter in H. tauto.
          - assert (In x (union a b)) as H by (apply In_union; tauto).
            apply Hui, In_inter in H. tauto. }
        split; [|exact Hab].
        intros ->. destruct b as [|y b]; [discriminate|].
        destruct (Hab y) as [_ H]. apply H. now left.
      * intros [_ Hab].
        rewrite (card_ext (inter a b) (union a b)).
        -- field. lra.
        -- intros x. rewrite In_inter, In_union. rewrite <- Hab. tauto.
    + split.
      * intros H0 x Ha Hb.
        assert (INR (card (inter a b)) = 0) as Hc.
        { apply (Rmult_eq_reg_r (/ INR (card (union a b)))).
          - unfold Rdiv in H0. rewrite H0. lra.
          - apply Rinv_neq_0_compat. lra. }
        change 0 with (INR 0) in Hc. apply INR_eq, card_zero in Hc.
        assert (In x (inter a b)) as Hx by (apply In_inter; tauto).
        rewrite Hc in Hx. exact Hx.
      * intros Hdis.
        assert (inter a b = []) as ->.
        { destruct (inter a b) as [|x l] eqn:Hi; [reflexivity|].
          assert (In x (inter a b)) as Hx by (rewrite Hi; now left).
          apply In_inter in Hx. destruct Hx as [Hxa Hxb].
          now destruct (Hdis x Hxa). }
        unfold card. simpl. lra.
Qed.

(** *** normalized_hamming *)

Lemma mismatch_count_cons (x y : Z) (a b : list Z) :
  mismatch_count (x :: a) (y :: b)
  = ((if Z.eqb x y then 0 else 1) + mismatch_count a b)%nat.
Proof.
  unfold mismatch_count. simpl. destruct (Z.eqb x y); reflexivity.
Qed.

Lemma mismatch_count_zero (a b : list Z) :
  List.length a = List.length b -> mismatch_count a b = 0%nat -> a = b.
Proof.
  revert b. induction a as [|x a IH]; intros [|y b]; simpl;
    try discriminate; [reflexivity|].
  intros [= Hlen]. rewrite mismatch_count_cons.
  destruct (Z.eqb_spec x y) as [->|]; [|discriminate].
  simpl. intros H. f_equal. now apply IH.
Qed.

Lemma mismatch_count_same (a : list Z) : mismatch_count a a = 0%nat.
Proof.
  induction a as [|x a IH]; [reflexivity|].
  rewrite mismatch_count_cons, Z.eqb_refl. exact IH.
Qed.

(** X12.  The normalised Hamming similarity of two flag vectors is 1
    exactly when the two vectors are equal. *)
Theorem normalized_hamming_one_iff_equal (a b : list Z) :
  normalized_hamming a b = 1 <-> a = b.
Proof.
  unfold normalized_hamming.
  destruct (is_empty a && is_empty b) eqn:He.
  - apply andb_true_iff in He. destruct He as [Ha Hb].
    apply is_empty_true in Ha, Hb. subst. tauto.
  - assert (0 < Nat.max (List.length a) (List.length b))%nat as Hmax.
    { destruct a, b; simpl in *; try discriminate; lia. }
    destruct (Nat.eqb_spec (List.length a) (List.length b)) as [Heq|Hne];
      cbn [negb].
    + assert (0 < INR (List.length a)) as Hpos by (apply lt_0_INR; lia).
      split.
      * intros H.
        assert (INR (mismatch_count a b) = 0) as Hc.
        { apply (Rmult_eq_reg_r (/ INR (List.length a))).
          - unfold Rdiv in H. lra.
          - apply Rinv_neq_0_compat. lra. }
        change 0 with (INR 0) in Hc. apply INR_eq in Hc.
        now apply mismatch_count_zero.
      * intros ->. rewrite mismatch_count_same. simpl. lra.
    + split; [|intros ->; congruence].
      intros H. exfalso.
      set (k := (Nat.max (List.length a) (List.length b)
                 - Nat.min (List.length a) (List.length b)
                 + mismatch_count a b)%nat) in H.
      assert (0 < k)%nat as Hk by (unfold k; lia).
      apply lt_0_INR in Hk, Hmax.
      assert (INR k / INR (Nat.max (List.length a) (List.length b)) = 0) as H0
        by lra.
      assert (0 < INR k / INR (Nat.max (List.length a) (List.length b))).
      { apply Rdiv_lt_0_compat; assumption. }
      lra.
Qed.

(** *** Trees *)

Lemma count_matching_nodes_same :
  forall tree, _count_matching_nodes tree tree = _count_tree_nodes tree.
Proof.
  fix IH 1. intros [tag children]. simpl.
  rewrite String.eqb_refl. simpl. f_equal.
  induction children as [|x ca IHc]; [reflexivity|].
  simpl. rewrite (IH x), IHc. reflexivity.
Qed.

(** X13.  A JSX tree compared with itself has tree similarity 1. *)
Theorem tree_similarity_of_equal_trees (tree : jsx) :
  tree_edit_distance_normalized (Some tree) (Some tree) = 1.
Proof.
  unfold tree_edit_distance_normalized.
  cbn [count_tree_nodes_opt count_matching_nodes_opt].
  rewrite count_matching_nodes_same.
  assert (0 < _count_tree_nodes tree)%nat as Hpos
    by (destruct tree; simpl; lia).
  destruct (Nat.eqb_spec (_count_tree_nodes tree + _count_tree_nodes tree) 0)
    as [Hz|_]; [lia|].
  rewrite plus_INR. apply lt_0_INR in Hpos.
  replace (2 * INR (_count_tree_nodes tree)
           / (INR (_count_tree_nodes tree) + INR (_count_tree_nodes tree)))
    with 1 by (field; lra).
  apply Rmin_left. lra.
Qed.

End VectorLaws.

(** ** The feature stages *)

Module StageFacts.
Import Py PyFacts NumFacts ByIdFacts Fingerprint FingerprintSpec.
Local Open Scope R_scope.

(** *** The artifacts are keyed alike *)

Lemma keys_setitem_congr {V W} (d : dict V) (d' : dict W) (k : string)
    (v : V) (w : W) :
  keys d = keys d' -> keys (setitem d k v) = keys (setitem d' k w).
Proof.
  revert d'. induction d as [|[k1 v1] d IH]; intros [|[k2 v2] d'];
    simpl; try discriminate; [reflexivity|].
  intros [= -> Hk]. destruct (String.eqb k2 k); simpl; [now rewrite Hk|].
  f_equal. now apply IH.
Qed.

Section Keyed.
Context {V W : Type}.
Variable f : code_unit -> V.
Variable g : code_unit -> W.

Lemma by_id_keys_congr (units : list code_unit) (acc : dict V)
    (acc' : dict W) :
  keys acc = keys acc' ->
  keys (fold_left
          (fun result unit =>
             if truthy (u_id unit) then setitem result (u_id unit) (f unit)
             else result)
          units acc)
  = keys (fold_left
            (fun result unit =>
               if truthy (u_id unit) then setitem result (u_id unit) (g unit)
               else result)
            units acc').
Proof.
  revert acc acc'. induction units as [|u units IH]; intros acc acc' Hk;
    simpl; [assumption|].
  apply IH. destruct (truthy (u_id u)); [|assumption].
  now apply keys_setitem_congr.
Qed.

End Keyed.

Lemma by_id_keys_complete {V} (f : code_unit -> V)
    (units : list code_unit) (acc : dict V) (k : string) :
  In k (keys acc) \/ (k <> "" /\ In k (map u_id units)) ->
  In k (keys (fold_left
                (fun result unit =>
                   if truthy (u_id unit)
                   then setitem result (u_id unit) (f unit)
                   else result)
                units acc)).
Proof.
  revert acc. induction units as [|u units IH]; intros acc H; simpl.
  - simpl in H. tauto.
  - apply IH. destruct H as [H|[Hk [Hu|Hin]]].
    + left. destruct (truthy (u_id u)); [|assumption].
      apply keys_setitem_In. tauto.
    + left. subst k. rewrite (truthy_true _ Hk).
      apply keys_setitem_In. tauto.
    + right. tauto.
Qed.

(** A later unit with the same id replaces an earlier one. *)
Lemma by_id_last {V} (f : code_unit -> V) (units : list code_unit)
    (acc : dict V) (u : code_unit) (later : list code_unit) :
  u_id u <> "" -> ~ In (u_id u) (map u_id later) ->
  get (fold_left
         (fun result unit =>
            if truthy (u_id unit) then setitem result (u_id unit) (f unit)
            else result)
         (units ++ u :: later) acc) (u_id u)
  = Some (f u).
Proof.
  intros Hid Hlater. rewrite fold_left_app. simpl.
  rewrite (truthy_true _ Hid).
  rewrite (by_id_other f later _ (u_id u) Hlater).
  apply get_setitem_same.
Qed.


(** X14.  The four stage artifacts have the same keys in the same order:
    the non-empty ids of the inventory, each once, in order of first
    occurrence -- the keys of the lookup that scoring and clustering
    build.  Of several units with one id, the last one is the one each
    artifact describes: the entry of the id in each of the four artifacts
    is the record computed from that unit. *)
Theorem stage_artifacts_keyed_by_unit_id (_sha256 : json -> string)
    (units : list code_unit) :
  let by_id := build_units_by_id units in
  keys (compute_fingerprints _sha256 units) = keys by_id
  /\ keys (Typesig.compute_type_signatures _sha256 units) = keys by_id
  /\ keys (Callgraph.compute_call_vectors _sha256 units) = keys by_id
  /\ keys (Depcontext.compute_dep_context _sha256 units) = keys by_id
  /\ NoDup (keys by_id)
  /\ (forall k, In k (keys by_id) <-> k <> "" /\ In k (map u_id units))
  /\ (forall earlier u later,
        units = earlier ++ u :: later ->
        u_id u <> "" -> ~ In (u_id u) (map u_id later) ->
        get by_id (u_id u) = Some u
        /\ get (compute_fingerprints _sha256 units) (u_id u)
           = Some {| jsxHash := jsx_hash _sha256 u;
                     hookProfile := hook_profile u;
                     importConstellation :=
                       import_constellation u (_compute_idf units);
                     behaviorFlags := behavior_flags u;
                     dataAccessPattern := data_access_pattern u |}
        /\ get (Typesig.compute_type_signatures _sha256 units) (u_id u)
           = Some (Typesig.normalize_type _sha256
                     (TypesigSpec.declared_params u)
                     (TypesigSpec.return_type u))
        /\ get (Callgraph.compute_call_vectors _sha256 units) (u_id u)
           = Some {| calleeSetVector :=
                       Callgraph.callee_set_vector u
                         (Callgraph._compute_callee_idf units);
                     sequenceHashes := Callgraph.sequence_hashes _sha256 u |}
        /\ get (Depcontext.compute_dep_context _sha256 units) (u_id u)
           = Some {| consumerProfile := Depcontext.consumer_profile u;
                     cooccurrenceVector := Depcontext.cooccurrence_vector u;
                     neighborhoodHash_r1 :=
                       Depcontext.neighborhood_hash _sha256 (u_id u)
                         (Depcontext._build_consumer_graph units) 1;
                     neighborhoodHash_r2 :=
                       Depcontext.neighborhood_hash _sha256 (u_id u)
                         (Depcontext._build_consumer_graph units) 2 |}).
Proof.
  intros by_id. unfold by_id, build_units_by_id.
  split; [apply by_id_keys_congr; reflexivity|].
  split; [apply by_id_keys_congr; reflexivity|].
  split; [apply by_id_keys_congr; reflexivity|].
  split; [apply by_id_keys_congr; reflexivity|].
  split; [exact (MatrixFacts.wf_build_units_by_id units)|].
  split.
  - intros k. split.
    + apply (MatrixFacts.keys_build_units_by_id units).
    + intros H. apply (by_id_keys_complete (fun u => u)). now right.
  - intros earlier u later Hunits Hid Hlater.
    unfold compute_fingerprints, Typesig.compute_type_signatures,
      Callgraph.compute_call_vectors, Depcontext.compute_dep_context.
    cbv zeta.
    generalize (_compute_idf units) as idf,
      (Callgraph._compute_callee_idf units) as callee_idf,
      (Depcontext._build_consumer_graph units) as consumer_graph.
    intros idf callee_idf consumer_graph. subst units.
    split; [exact (by_id_last (fun u => u) earlier [] u later Hid Hlater)|].
    split; [|split; [|split]].
    + exact (by_id_last
               (fun unit =>
                  {| jsxHash := jsx_hash _sha256 unit;
                     hookProfile := hook_profile unit;
                     importConstellation := import_constellation unit idf;
                     behaviorFlags := behavior_flags unit;
                     dataAccessPattern := data_access_pattern unit |})
               earlier [] u later Hid Hlater).
    + exact (by_id_last
               (fun unit =>
                  Typesig.normalize_type _sha256
                    (TypesigSpec.declared_params unit)
                    (TypesigSpec.return_type unit))
               earlier [] u later Hid Hlater).
    + exact (by_id_last
               (fun unit =>
                  {| calleeSetVector :=
                       Callgraph.callee_set_vector unit callee_idf;
                     sequenceHashes := Callgraph.sequence_hashes _sha256 unit |})
               earlier [] u later Hid Hlater).
    + exact (by_id_last
               (fun unit =>
                  {| consumerProfile := Depcontext.consumer_profile unit;
                     cooccurrenceVector := Depcontext.cooccurrence_vector unit;
                     neighborhoodHash_r1 :=
                       Depcontext.neighborhood_hash _sha256 (u_id unit)
                         consumer_graph 1;
                     neighborhoodHash_r2 :=
                       Depcontext.neighborhood_hash _sha256 (u_id unit)
                         consumer_graph 2 |})
               earlier [] u later Hid Hlater).
Qed.

(** *** hookProfile *)

Lemma hook_counts_loop (hook : string) (calls : list hook_entry)
    (counts : dict Z) :
  get_or
    (fold_left
       (fun counts entry =>
          match entry with
          | HookRec name count =>
              let name := match name with Some n => n | None => "" end in
              let count := match count with Some c => c | None => 1%Z end in
              setitem counts name (get_or counts name 0 + count)%Z
          | HookStr entry => setitem counts entry (get_or counts entry 0 + 1)%Z
          end)
       calls counts) hook 0%Z
  = (get_or counts hook 0 + hook_total calls hook)%Z.
Proof.
  revert counts. induction calls as [|e calls IH]; intros counts.
  - unfold hook_total. simpl. lia.
  - cbn [fold_left]. rewrite IH. unfold hook_total. cbn [filter].
    assert (forall (n : string) (c : Z),
              get_or (setitem counts n (get_or counts n 0 + c)%Z) hook 0%Z
              = (get_or counts hook 0
                 + (if String.eqb n hook then c else 0))%Z) as Hstep.
    { intros n c. unfold get_or at 1.
      destruct (String.eqb_spec n hook) as [->|Hne].
      - now rewrite get_setitem_same.
      - rewrite get_setitem_other by assumption. unfold get_or. lia. }
    destruct e as [[n|] [c|]|s]; cbn [hook_name hook_count];
      rewrite Hstep;
      match goal with
      | |- context [String.eqb ?a hook] =>
          destruct (String.eqb a hook); cbn [map fold_right hook_count]; lia
      end.
Qed.

(** X15.  The hook profile has one entry for each of the ten hooks of
    [_HOOK_ORDER], in that order: the number of calls of the hook that the
    unit's [hookCalls] entries report, added up over all entries that name
    it (an entry without a count stands for one call).  Entries that name
    another hook change nothing. *)
Theorem hook_profile_totals (unit : code_unit) :
  hook_profile unit = map (hook_total (u_hookCalls unit)) _HOOK_ORDER
  /\ List.length (hook_profile unit) = 10%nat.
Proof.
  split; [|reflexivity].
  unfold hook_profile. apply map_ext. intros hook.
  rewrite hook_counts_loop. unfold get_or. simpl. lia.
Qed.

(** *** Inverse document frequencies *)

Lemma count_each_get (k : string) (xs : list string) (counts : dict nat) :
  NoDup xs ->
  get_or (count_each counts xs) k 0%nat
  = (get_or counts k 0 + (if mem k xs then 1 else 0))%nat
  /\ (get (count_each counts xs) k = None
      <-> get counts k = None /\ mem k xs = false).
Proof.
  unfold count_each. revert counts.
  induction xs as [|x xs IH]; intros counts Hnd.
  - simpl. split; [lia|tauto].
  - inversion Hnd as [|? ? Hx Hxs]; subst. cbn [fold_left].
    destruct (IH (setitem counts x (get_or counts x 0 + 1)%nat) Hxs)
      as [IH1 IH2].
    rewrite IH1, IH2.
    change (mem k (x :: xs)) with (String.eqb k x || mem k xs).
    destruct (String.eqb_spec k x) as [->|Hne].
    + assert (mem x xs = false) as Hm.
      { destruct (mem x xs) eqn:E; [|reflexivity].
        apply mem_In in E. contradiction. }
      rewrite Hm. unfold get_or at 1. rewrite get_setitem_same.
      cbn [orb]. split; [lia|].
      split; [intros [H _]; discriminate|intros [_ H]; discriminate].
    + unfold get_or at 1. rewrite get_setitem_other by congruence.
      cbn [orb]. split; [unfold get_or; lia|tauto].
Qed.

Lemma doc_counts_get (keys_of : code_unit -> list string) (k : string)
    (units : list code_unit) (counts : dict nat) :
  (forall u, NoDup (keys_of u)) ->
  let result :=
    fold_left (fun counts u => count_each counts (keys_of u)) units counts in
  get_or result k 0%nat
  = (get_or counts k 0 + document_frequency keys_of units k)%nat
  /\ (get result k = None
      <-> get counts k = None /\ document_frequency keys_of units k = 0%nat).
Proof.
  intros Hnd. cbv zeta. revert counts.
  induction units as [|u units IH]; intros counts.
  - unfold document_frequency. simpl. split; [lia|tauto].
  - cbn [fold_left]. destruct (IH (count_each counts (keys_of u))) as [IH1 IH2].
    destruct (count_each_get k (keys_of u) counts (Hnd u)) as [C1 C2].
    rewrite IH1, IH2, C1, C2. unfold document_frequency. cbn [filter].
    destruct (mem k (keys_of u)); cbn [List.length].
    + split; [lia|]. split; [intros [[_ H] _]; discriminate|intros [_ H]; lia].
    + split; [lia|tauto].
Qed.

Lemma idf_of_doc_counts (keys_of : code_unit -> list string)
    (units : list code_unit) (k : string) :
  (forall u, NoDup (keys_of u)) ->
  let df := document_frequency keys_of units k in
  get (idf_of_counts (List.length units)
         (fold_left (fun counts u => count_each counts (keys_of u)) units []))
    k
  = if Nat.eqb df 0 then None
    else Some (ln (INR (List.length units) / INR df)).
Proof.
  intros Hnd df. unfold idf_of_counts. rewrite SparseFacts.get_map_values.
  destruct (doc_counts_get keys_of k units [] Hnd) as [H1 H2].
  cbv zeta in H1, H2. fold df in H1, H2.
  destruct (get _ k) as [c|] eqn:Hget.
  - unfold get_or in H1. rewrite Hget in H1. simpl in H1. subst c.
    destruct (Nat.eqb_spec df 0) as [Hz|_]; [|reflexivity].
    assert (Some df = None) as H; [|discriminate].
    apply H2. split; [reflexivity|assumption].
  - destruct H2 as [H2 _]. destruct (H2 eq_refl) as [_ Hz].
    now rewrite Hz.
Qed.

(** X16.  The inverse document frequency of an import source is
    [ln (N / df)], where [N] is the number of units and [df] the number of
    units that import the source at least once; a source that no unit
    imports has no entry.  The same holds for callee targets in the call
    graph stage. *)
Theorem idf_is_log_of_inverse_document_frequency (units : list code_unit)
    (k : string) :
  let n := INR (List.length units) in
  let df_imports := document_frequency unit_sources units k in
  let df_callees := document_frequency Callgraph.unit_targets units k in
  get (_compute_idf units) k
    = (if Nat.eqb df_imports 0 then None else Some (ln (n / INR df_imports)))
  /\ get (Callgraph._compute_callee_idf units) k
     = (if Nat.eqb df_callees 0 then None
        else Some (ln (n / INR df_callees))).
Proof.
  cbv zeta. unfold _compute_idf, Callgraph._compute_callee_idf.
  destruct units as [|u units].
  - split; reflexivity.
  - cbn [List.length Nat.eqb].
    change (S (List.length units)) with (List.length (u :: units)).
    split.
    + apply (idf_of_doc_counts unit_sources (u :: units) k).
      intros u'. apply NoDup_nodup.
    + apply (idf_of_doc_counts Callgraph.unit_targets (u :: units) k).
      intros u'. apply SparseFacts.NoDup_unit_targets.
Qed.

(** *** Wildcarded trees *)

Lemma wildcard_idempotent :
  forall tree,
    _wildcard_custom_tags (_wildcard_custom_tags tree)
    = _wildcard_custom_tags tree.
Proof.
  fix IH 1. intros [tag children]. simpl. f_equal.
  - destruct (is_pascal tag) eqn:Hp; [reflexivity|]. now rewrite Hp.
  - rewrite map_map.
    induction children as [|c cs IHc]; [reflexivity|].
    simpl. now rewrite (IH c), IHc.
Qed.

Lemma wildcard_node_count :
  forall tree,
    Similarity._count_tree_nodes (_wildcard_custom_tags tree)
    = Similarity._count_tree_nodes tree.
Proof.
  fix IH 1. intros [tag children]. simpl. f_equal. rewrite map_map.
  induction children as [|c cs IHc]; [reflexivity|].
  simpl. now rewrite (IH c), IHc.
Qed.

Lemma wildcard_matching :
  forall tree_a tree_b,
    (Similarity._count_matching_nodes tree_a tree_b
     <= Similarity._count_matching_nodes
          (_wildcard_custom_tags tree_a) (_wildcard_custom_tags tree_b))%nat.
Proof.
  fix IH 1. intros [tag_a children_a] [tag_b children_b]. simpl.
  apply Nat.add_le_mono.
  - destruct (String.eqb_spec tag_a tag_b) as [->|_]; [|lia].
    now rewrite String.eqb_refl.
  - revert children_b.
    induction children_a as [|x ca IHc]; intros [|y cb]; simpl; try lia.
    apply Nat.add_le_mono; [apply IH|apply IHc].
Qed.

(** X17.  Replacing PascalCase tags by the wildcard changes tags only:
    doing it twice is the same as doing it once, the tree keeps its number
    of nodes, tags that are not PascalCase stay, and two wildcarded trees
    match in at least as many nodes as the original trees did. *)
Theorem wildcard_custom_tags_laws (tree tree' : jsx) :
  _wildcard_custom_tags (_wildcard_custom_tags tree)
  = _wildcard_custom_tags tree
  /\ Similarity._count_tree_nodes (_wildcard_custom_tags tree)
     = Similarity._count_tree_nodes tree
  /\ (Similarity._count_matching_nodes tree tree'
      <= Similarity._count_matching_nodes
           (_wildcard_custom_tags tree) (_wildcard_custom_tags tree'))%nat
  /\ (forall tag children,
        tree = JsxNode tag children -> is_pascal tag = false ->
        exists children',
          _wildcard_custom_tags tree = JsxNode tag children'
          /\ List.length children' = List.length children).
Proof.
  split; [apply wildcard_idempotent|].
  split; [apply wildcard_node_count|].
  split; [apply wildcard_matching|].
  intros tag children -> Hp. simpl. rewrite Hp.
  eexists. split; [reflexivity|apply length_map].
Qed.

(** *** Type signatures *)

Section SameTypes.
Variable _sha256 : json -> string.
Hypothesis digest_nonempty : forall o, _sha256 o <> "".

Lemma type_signature_get (units : list code_unit) (u : code_unit) :
  NoDup (map u_id units) -> In u units -> u_id u <> "" ->
  get (Typesig.compute_type_signatures _sha256 units) (u_id u)
  = Some (Typesig.normalize_type _sha256 (TypesigSpec.declared_params u)
            (TypesigSpec.return_type u)).
Proof.
  intros Hnd Hin Hid. unfold Typesig.compute_type_signatures.
  exact (by_id_get
           (fun unit =>
              Typesig.normalize_type _sha256 (TypesigSpec.declared_params unit)
                (TypesigSpec.return_type unit))
           units [] u Hnd Hin Hid).
Qed.

(** X18.  In an inventory with unique ids, two units whose parameters
    have the same types in the same order and whose return types are the
    same get the type-signature signal 1.0, whatever their parameter names
    are and whether the parameters are given as [parameters] or as
    [props]; the recorded arity of a unit is the number of its
    parameters. *)
Theorem same_types_same_signature (units : list code_unit)
    (ua ub : code_unit) :
  NoDup (map u_id units) ->
  In ua units -> In ub units ->
  u_id ua <> "" -> u_id ub <> "" ->
  TypesigSpec.param_types ua = TypesigSpec.param_types ub ->
  TypesigSpec.return_type ua = TypesigSpec.return_type ub ->
  let typesigs := Typesig.compute_type_signatures _sha256 units in
  Score.sig_type_signature (u_id ua) (u_id ub) typesigs = 1
  /\ option_map arity (get typesigs (u_id ua))
     = Some (List.length (TypesigSpec.declared_params ua)).
Proof.
  intros Hnd Ha Hb Hida Hidb Hparams Hret typesigs. unfold typesigs.
  unfold Score.sig_type_signature.
  rewrite !type_signature_get by assumption.
  unfold Typesig.normalize_type. cbn [strict_hash option_map arity].
  split; [|now rewrite length_map].
  fold (TypesigSpec.param_types ua). fold (TypesigSpec.param_types ub).
  rewrite Hparams, Hret. unfold Score.same_hash.
  rewrite truthy_true by apply digest_nonempty.
  now rewrite String.eqb_refl.
Qed.

End SameTypes.

(** X18 on a function and a component that both take one string and
    return a number, under different parameter names. *)
Lemma same_types_same_signature_witness :
  let ua :=
    {| u_id := "a.ts::parse"; u_kind := Some "function"; u_filePath := "a.ts";
       u_parameters :=
         Some [{| p_name := Some "text"; p_type := Some "string" |}];
       u_props := None; u_returnType := Some "number"; u_jsxTree := None;
       u_hookCalls := []; u_imports := []; u_storeAccess := [];
       u_dataSourceAccess := []; u_isAsync := false;
       u_hasErrorHandling := false; u_hasLoadingState := false;
       u_hasEmptyState := false; u_hasRetryLogic := false;
       u_rendersIteration := false; u_rendersConditional := false;
       u_sideEffects := false; u_callees := []; u_calleeSequence := [];
       u_consumers := []; u_consumerCount := None;
       u_consumerKinds := KindsDict []; u_consumerDirectories := DirsList [];
       u_coOccurrences := CoDict [] |} in
  let ub :=
    {| u_id := "b.tsx::Badge"; u_kind := Some "component";
       u_filePath := "b.tsx"; u_parameters := None;
       u_props := Some [{| p_name := Some "label"; p_type := Some "string" |}];
       u_returnType := Some "number"; u_jsxTree := None;
       u_hookCalls := []; u_imports := []; u_storeAccess := [];
       u_dataSourceAccess := []; u_isAsync := true;
       u_hasErrorHandling := false; u_hasLoadingState := false;
       u_hasEmptyState := false; u_hasRetryLogic := false;
       u_rendersIteration := false; u_rendersConditional := false;
       u_sideEffects := false; u_callees := []; u_calleeSequence := [];
       u_consumers := []; u_consumerCount := None;
       u_consumerKinds := KindsDict []; u_consumerDirectories := DirsList [];
       u_coOccurrences := CoDict [] |} in
  let typesigs := Typesig.compute_type_signatures Digest.digest [ua; ub] in
  Score.sig_type_signature "a.ts::parse" "b.tsx::Badge" typesigs = 1
  /\ option_map arity (get typesigs "a.ts::parse") = Some 1%nat.
Proof.
  intros ua ub.
  apply (same_types_same_signature Digest.digest
           (fun o => ltac:(discriminate)) [ua; ub] ua ub).
  - repeat constructor; simpl; intuition discriminate.
  - simpl. tauto.
  - simpl. tauto.
  - discriminate.
  - discriminate.
  - reflexivity.
  - reflexivity.
Defined.

End StageFacts.

(** ** Sorted lists of ids *)

Module OrderFacts.
Import Py PyFacts.

Lemma leb_iff (a b : string) :
  String.leb a b = true <-> String_as_OT.lt a b \/ a = b.
Proof.
  unfold String.leb. rewrite <- String_as_OT.cmp_lt, <- String_as_OT.cmp_eq.
  unfold String_as_OT.cmp. destruct (String.compare a b); split;
    try tauto; try discriminate; intros [H|H]; discriminate.
Qed.

Lemma leb_trans (a b c : string) :
  String.leb a b = true -> String.leb b c = true -> String.leb a c = true.
Proof.
  rewrite !leb_iff. intros [Hab| ->] [Hbc| ->]; try tauto.
  left. now apply (String_as_OT.lt_trans a b c).
Qed.

Lemma In_insert_sorted (z x : string) (l : list string) :
  In z (insert_sorted x l) <-> z = x \/ In z l.
Proof.
  induction l as [|y l IH]; simpl; [intuition|].
  destruct (String.leb x y); simpl; [intuition|]. rewrite IH. intuition.
Qed.

Lemma insert_sorted_perm (x : string) (l : list string) :
  Permutation (insert_sorted x l) (x :: l).
Proof.
  induction l as [|y l IH]; simpl; [reflexivity|].
  destruct (String.leb x y); [reflexivity|].
  rewrite IH. apply perm_swap.
Qed.

Lemma sorted_perm (l : list string) : Permutation (sorted l) l.
Proof.
  unfold sorted. induction l as [|x l IH]; simpl; [reflexivity|].
  rewrite insert_sorted_perm. now constructor.
Qed.

Lemma insert_sorted_ascending (x : string) (l : list string) :
  StronglySorted (fun a b => String.leb a b = true) l ->
  StronglySorted (fun a b => String.leb a b = true) (insert_sorted x l).
Proof.
  induction 1 as [|y rest Hs IH Hy]; simpl.
  - constructor; constructor.
  - destruct (String.leb x y) eqn:Hxy.
    + constructor; [now constructor|].
      constructor; [assumption|].
      rewrite Forall_forall in Hy |- *. intros z Hz.
      apply (leb_trans x y z); auto.
    + constructor; [assumption|].
      rewrite Forall_forall in Hy |- *. intros z Hz.
      apply In_insert_sorted in Hz. destruct Hz as [->|Hz]; [|auto].
      destruct (String.leb_total x y) as [H|H]; congruence.
Qed.

Lemma sorted_ascending (l : list string) :
  StronglySorted (fun a b => String.leb a b = true) (sorted l).
Proof.
  unfold sorted. induction l as [|x l IH]; simpl; [constructor|].
  now apply insert_sorted_ascending.
Qed.

(** An ascending list is determined by its elements. *)
Lemma ascending_unique (l1 l2 : list string) :
  StronglySorted (fun a b => String.leb a b = true) l1 ->
  StronglySorted (fun a b => String.leb a b = true) l2 ->
  Permutation l1 l2 -> l1 = l2.
Proof.
  intros H1. revert l2.
  induction H1 as [|x l1 Hs1 IH Hx]; intros l2 H2 Hp.
  - apply Permutation_nil in Hp. now subst.
  - destruct H2 as [|y l2 Hs2 Hy].
    + apply Permutation_sym, Permutation_nil in Hp. discriminate.
    + assert (x = y) as ->.
      { rewrite Forall_forall in Hx, Hy.
        assert (In x (y :: l2)) as Hxin
            by (apply (Permutation_in _ Hp); now left).
        assert (In y (x :: l1)) as Hyin
            by (apply (Permutation_in _ (Permutation_sym Hp)); now left).
        destruct Hxin as [->|Hxin]; [reflexivity|].
        destruct Hyin as [->|Hyin]; [reflexivity|].
        apply String.leb_antisym; auto. }
      f_equal. apply IH; [assumption|].
      now apply Permutation_cons_inv in Hp.
Qed.

(** Sorting the distinct elements gives the same list for any two lists
    with the same elements. *)
Lemma sorted_nodup_ext (l1 l2 : list string) :
  (forall x, In x l1 <-> In x l2) ->
  sorted (nodup string_dec l1) = sorted (nodup string_dec l2).
Proof.
  intros Hext. apply ascending_unique; try apply sorted_ascending.
  rewrite !sorted_perm.
  apply NoDup_Permutation; try apply NoDup_nodup.
  intros x. rewrite !nodup_In. apply Hext.
Qed.

Lemma sorted_nodup (l : list string) : NoDup (sorted l) <-> NoDup l.
Proof.
  split; intros H.
  - apply (Permutation_NoDup (sorted_perm l) H).
  - apply (Permutation_NoDup (Permutation_sym (sorted_perm l)) H).
Qed.

End OrderFacts.

(** ** The neighbourhood of a unit *)

Module NeighborhoodSetFacts.
Import Py PyFacts OrderFacts Depcontext.

(** One round of the search from [visited]: the neighbours join. *)
Lemma expand_neighbors (neighbors visited next_frontier : pyset)
    (x : string) :
  In x (fst (fold_left
               (fun acc neighbor =>
                  let '(visited, next_frontier) := acc in
                  if mem neighbor visited then acc
                  else (neighbor :: visited, neighbor :: next_frontier))
               neighbors (visited, next_frontier)))
  <-> In x visited \/ In x neighbors.
Proof.
  revert visited next_frontier.
  induction neighbors as [|n neighbors IH]; intros visited next_frontier.
  - simpl. tauto.
  - cbn [fold_left]. destruct (mem n visited) eqn:Hm.
    + rewrite IH. apply mem_In in Hm. simpl. intuition (subst; auto).
    + rewrite IH. simpl. intuition.
Qed.

Lemma search_one_round (consumer_graph : dict pyset) (uid : string)
    (x : string) :
  In x (search 1 consumer_graph [uid] [uid])
  <-> x = uid \/ In x (get_or consumer_graph uid []).
Proof.
  pose proof (expand_neighbors (get_or consumer_graph uid []) [uid] [] x) as H.
  match type of H with
  | context [fold_left ?f ?l ?a] =>
      change (fold_left f l a) with (expand consumer_graph [uid] [uid]) in H
  end.
  unfold search.
  destruct (expand consumer_graph [uid] [uid]) as [visited frontier].
  simpl in H. destruct (is_empty frontier); rewrite H; intuition.
Qed.

Section Hashing.
Variable _sha256 : json -> string.

(** X19.  The radius-1 neighbourhood hash of a unit is the digest of the
    ascending list of its distinct consumer ids other than itself: it is
    the same for any order and any repetition of the consumers, so two
    units with the same set of consumers get the same hash. *)
Theorem neighborhood_r1_hashes_consumer_set (uid : string)
    (consumer_graph : dict pyset) (consumers l : list string) :
  get consumer_graph uid = Some consumers ->
  (forall x, In x l <-> In x consumers /\ x <> uid) ->
  neighborhood_hash _sha256 uid consumer_graph 1
  = _sha256 (JList (map JStr (sorted (nodup string_dec l))))
  /\ StronglySorted (fun a b => String.leb a b = true)
       (sorted (nodup string_dec l))
  /\ NoDup (sorted (nodup string_dec l)).
Proof.
  intros Hget Hl. split; [|split].
  - unfold neighborhood_hash. do 3 f_equal.
    apply sorted_nodup_ext. intros x.
    unfold diff. rewrite filter_In, search_one_round, Hl.
    unfold get_or. rewrite Hget. cbn [mem existsb]. rewrite orb_false_r.
    rewrite negb_true_iff.
    destruct (String.eqb_spec x uid); intuition (try discriminate; try congruence).
  - apply sorted_ascending.
  - apply sorted_nodup, NoDup_nodup.
Qed.

End Hashing.

(** X19 on two units that list the same two consumers in different
    orders, one of them twice. *)
Lemma neighborhood_r1_hashes_consumer_set_witness :
  let consumer_graph :=
    [ ("lib/a.ts::f", ["app/Page.tsx::Page"; "app/Nav.tsx::Nav"]);
      ("lib/b.ts::g",
       ["app/Nav.tsx::Nav"; "app/Page.tsx::Page"; "app/Nav.tsx::Nav"]) ] in
  neighborhood_hash Digest.digest "lib/b.ts::g" consumer_graph 1
  = Digest.digest
      (JList (map JStr
                (sorted (nodup string_dec
                           ["app/Page.tsx::Page"; "app/Nav.tsx::Nav"]))))
  /\ StronglySorted (fun a b => String.leb a b = true)
       (sorted (nodup string_dec ["app/Page.tsx::Page"; "app/Nav.tsx::Nav"]))
  /\ NoDup (sorted (nodup string_dec
                      ["app/Page.tsx::Page"; "app/Nav.tsx::Nav"])).
Proof.
  intros consumer_graph.
  apply (neighborhood_r1_hashes_consumer_set Digest.digest "lib/b.ts::g"
           consumer_graph
           ["app/Nav.tsx::Nav"; "app/Page.tsx::Page"; "app/Nav.tsx::Nav"]).
  - reflexivity.
  - intros x. simpl. split.
    + intros [<-|[<-|[]]]; split; try tauto; discriminate.
    + intros [[<-|[<-|[<-|[]]]] _]; tauto.
Defined.

End NeighborhoodSetFacts.

(** ** Clustering: the similarity graph, the enriched clusters, the ranking *)

Module ClusterFacts.
Import Py PyFacts NumFacts SortFacts OrderFacts Cluster.
Local Open Scope R_scope.

(** *** The similarity graph *)

Lemma same_edge_swap (e1 e2 : edge) :
  same_edge (e_a e1) (e_b e1) e2 = same_edge (e_a e2) (e_b e2) e1.
Proof.
  unfold same_edge.
  rewrite (String.eqb_sym (e_a e2) (e_a e1)), (String.eqb_sym (e_b e2) (e_b e1)).
  rewrite (String.eqb_sym (e_a e2) (e_b e1)), (String.eqb_sym (e_b e2) (e_a e1)).
  f_equal. apply andb_comm.
Qed.

Lemma same_edge_new (a b : string) (w : R) :
  same_edge a b {| e_a := a; e_b := b; e_weight := w |} = true.
Proof. unfold same_edge. cbn. now rewrite !String.eqb_refl. Qed.

(** Where the edges of [add_edge] come from. *)
Lemma add_edge_In (G : graph) (a b : string) (w : R) (e' : edge) :
  In e' (add_edge G a b w) ->
  In e' G \/ (same_edge a b e' = true /\ e_weight e' = w).
Proof.
  induction G as [|e G IH]; cbn [add_edge].
  - intros [<-|[]]. right. split; [apply same_edge_new|reflexivity].
  - destruct (same_edge a b e) eqn:He.
    + intros [<-|Hin]; [|left; now right].
      right. split; [|reflexivity]. exact He.
    + intros [<-|Hin]; [left; now left|].
      destruct (IH Hin) as [H|H]; [left; now right|now right].
Qed.

(** The ends of the edges of [add_edge]. *)
Lemma add_edge_ends (G : graph) (a b : string) (w : R) (e' : edge) :
  In e' (add_edge G a b w) ->
  (exists e, In e G /\ e_a e' = e_a e /\ e_b e' = e_b e)
  \/ (e_a e' = a /\ e_b e' = b
      /\ Forall (fun e => same_edge a b e = false) G).
Proof.
  induction G as [|e G IH]; cbn [add_edge].
  - intros [<-|[]]. right. repeat split. constructor.
  - destruct (same_edge a b e) eqn:He.
    + intros [<-|Hin]; left.
      * exists e. repeat split. now left.
      * exists e'. repeat split. now right.
    + intros [<-|Hin].
      * left. exists e. repeat split. now left.
      * destruct (IH Hin) as [(e0 & Hin0 & Ha & Hb)|(Ha & Hb & Hall)].
        -- left. exists e0. repeat split; try assumption. now right.
        -- right. repeat split; try assumption. now constructor.
Qed.

Lemma add_edge_joined (G : graph) (a b : string) (w : R) :
  exists e, In e (add_edge G a b w) /\ same_edge a b e = true.
Proof.
  induction G as [|e G IH]; cbn [add_edge].
  - eexists. split; [now left|apply same_edge_new].
  - destruct (same_edge a b e) eqn:He.
    + eexists. split; [now left|]. exact He.
    + destruct IH as (e' & Hin & He'). exists e'. split; [now right|assumption].
Qed.

Lemma add_edge_keeps (G : graph) (a b c d : string) (w : R) :
  (exists e, In e G /\ same_edge c d e = true) ->
  exists e', In e' (add_edge G a b w) /\ same_edge c d e' = true.
Proof.
  induction G as [|e G IH]; intros (e0 & Hin & He0); [destruct Hin|].
  cbn [add_edge]. destruct (same_edge a b e) eqn:He.
  - destruct Hin as [<-|Hin].
    + eexists. split; [now left|]. exact He0.
    + exists e0. split; [now right|assumption].
  - destruct Hin as [<-|Hin].
    + exists e. split; [now left|assumption].
    + destruct IH as (e' & Hin' & He'); [now exists e0|].
      exists e'. split; [now right|assumption].
Qed.

(** [add_edge] never makes a second edge between two nodes. *)
Lemma add_edge_simple (G : graph) (a b : string) (w : R) :
  ForallOrdPairs (fun e1 e2 => same_edge (e_a e1) (e_b e1) e2 = false) G ->
  ForallOrdPairs (fun e1 e2 => same_edge (e_a e1) (e_b e1) e2 = false)
    (add_edge G a b w).
Proof.
  induction 1 as [|e G Hall Hsimple IH]; cbn [add_edge].
  - constructor; constructor.
  - destruct (same_edge a b e) eqn:He.
    + constructor; assumption.
    + constructor; [|assumption].
      rewrite Forall_forall in Hall |- *. intros e' Hin.
      destruct (add_edge_ends _ _ _ _ _ Hin)
        as [(e0 & Hin0 & Ha & Hb)|(Ha & Hb & _)].
      * unfold same_edge. rewrite Ha, Hb. apply (Hall e0 Hin0).
      * rewrite same_edge_swap, Ha, Hb. exact He.
Qed.

Section Graph.
Variable threshold : R.

Local Abbreviation step :=
  (fun (G : graph) (pair : scored_pair) =>
     if Rleb threshold (score pair)
     then add_edge G (unitA pair) (unitB pair) (score pair)
     else G).

Lemma build_graph_simple (pairs : list scored_pair) (G : graph) :
  ForallOrdPairs (fun e1 e2 => same_edge (e_a e1) (e_b e1) e2 = false) G ->
  ForallOrdPairs (fun e1 e2 => same_edge (e_a e1) (e_b e1) e2 = false)
    (fold_left step pairs G).
Proof.
  revert G. induction pairs as [|p pairs IH]; intros G HG; [assumption|].
  cbn [fold_left]. apply IH.
  destruct (Rleb threshold (score p)); [now apply add_edge_simple|assumption].
Qed.

Lemma build_graph_from (all pairs : list scored_pair) (G : graph) :
  incl pairs all ->
  Forall (fun e =>
            exists p, In p all /\ threshold <= score p
                      /\ same_edge (unitA p) (unitB p) e = true
                      /\ e_weight e = score p) G ->
  Forall (fun e =>
            exists p, In p all /\ threshold <= score p
                      /\ same_edge (unitA p) (unitB p) e = true
                      /\ e_weight e = score p)
    (fold_left step pairs G).
Proof.
  revert G. induction pairs as [|p pairs IH]; intros G Hincl HG; [assumption|].
  cbn [fold_left]. apply IH; [intros x Hx; apply Hincl; now right|].
  destruct (Rleb threshold (score p)) eqn:Hp; [|assumption].
  apply Rleb_spec in Hp. rewrite Forall_forall in HG |- *. intros e Hin.
  destruct (add_edge_In _ _ _ _ _ Hin) as [H|[H1 H2]]; [now apply HG|].
  exists p. repeat split; try assumption. apply Hincl. now left.
Qed.

Lemma build_graph_keeps (pairs : list scored_pair) (G : graph)
    (c d : string) :
  (exists e, In e G /\ same_edge c d e = true) ->
  exists e', In e' (fold_left step pairs G) /\ same_edge c d e' = true.
Proof.
  revert G. induction pairs as [|p pairs IH]; intros G HG; [assumption|].
  cbn [fold_left]. apply IH.
  destruct (Rleb threshold (score p)); [now apply add_edge_keeps|assumption].
Qed.

Lemma build_graph_joins (pairs : list scored_pair) (G : graph)
    (p : scored_pair) :
  In p pairs -> threshold <= score p ->
  exists e, In e (fold_left step pairs G)
            /\ same_edge (unitA p) (unitB p) e = true.
Proof.
  revert G. induction pairs as [|q pairs IH]; intros G Hin Hp; [destruct Hin|].
  cbn [fold_left]. destruct Hin as [->|Hin]; [|now apply IH].
  apply build_graph_keeps. rewrite (Rleb_true _ _ Hp). apply add_edge_joined.
Qed.

End Graph.

(** X20.  The similarity graph is a simple weighted graph over the pairs
    that reach the threshold: every edge joins the two units of a pair of
    the matrix whose score is at least the threshold and carries that score
    as its weight; no two edges join the same two units, in either
    direction; and every pair that reaches the threshold has its two units
    joined by an edge. *)
Theorem similarity_graph_edges (scored_pairs : list scored_pair)
    (threshold : R) :
  let G := _build_graph scored_pairs threshold in
  Forall (fun e =>
            exists p, In p scored_pairs /\ threshold <= score p
                      /\ same_edge (unitA p) (unitB p) e = true
                      /\ e_weight e = score p) G
  /\ ForallOrdPairs (fun e1 e2 => same_edge (e_a e1) (e_b e1) e2 = false) G
  /\ Forall (fun p =>
               threshold <= score p ->
               exists e, In e G /\ same_edge (unitA p) (unitB p) e = true)
       scored_pairs.
Proof.
  cbv zeta. unfold _build_graph. split; [|split].
  - apply build_graph_from; [apply incl_refl|constructor].
  - apply build_graph_simple. constructor.
  - apply Forall_forall. intros p Hin Hp. now apply build_graph_joins.
Qed.

(** *** The ranking *)

Lemma map_snd_enumerate_from {A} (i : nat) (l : list A) :
  map snd (enumerate_from i l) = l.
Proof.
  revert i. induction l as [|x l IH]; intros i; simpl; [reflexivity|].
  now rewrite IH.
Qed.

Lemma enumerate_from_sorted {A B} (key : A -> R) (key' : B -> R)
    (F : nat * A -> B) (l : list A) :
  (forall ic, key' (F ic) = key (snd ic)) ->
  StronglySorted (fun p q => key q <= key p) l ->
  forall i,
    StronglySorted (fun p q => key' q <= key' p) (map F (enumerate_from i l)).
Proof.
  intros HF. induction 1 as [|x l Hs IH Hx]; intros i; simpl; constructor.
  - apply IH.
  - rewrite Forall_forall in Hx |- *. intros c Hc.
    apply in_map_iff in Hc. destruct Hc as [[j y] [<- Hin]].
    rewrite !HF. cbn [snd]. apply Hx. now apply In_enumerate_from in Hin.
Qed.

(** Reading the digits of [str_of_nat n] back, after any number of leading
    zeros, gives [n]. *)
Lemma read_padded (n : nat) (pad : string) :
  In pad [""; "0"; "00"; "000"] ->
  option_map Nat.of_uint
    (NilEmpty.uint_of_string (pad ++ str_of_nat n)%string)
  = Some n.
Proof.
  assert (option_map Nat.of_uint (NilEmpty.uint_of_string (str_of_nat n))
          = Some n) as H0.
  { unfold str_of_nat. rewrite NilEmpty.usu. cbn [option_map].
    now rewrite DecimalNat.Unsigned.of_to. }
  assert (forall s m,
             option_map Nat.of_uint (NilEmpty.uint_of_string s) = Some m ->
             option_map Nat.of_uint
               (NilEmpty.uint_of_string ("0" ++ s)%string)
             = Some m) as Hz.
  { intros s m Hs. cbn [String.append NilEmpty.uint_of_string].
    destruct (NilEmpty.uint_of_string s) as [d|]; [|discriminate].
    exact Hs. }
  intros [<-|[<-|[<-|[<-|[]]]]].
  - exact H0.
  - now apply Hz.
  - now apply (Hz ("0" ++ str_of_nat n)%string), Hz.
  - now apply (Hz ("00" ++ str_of_nat n)%string),
      (Hz ("0" ++ str_of_nat n)%string), Hz.
Qed.

(** Two positions never get the same cluster id. *)
Lemma cluster_name_inj (i j : nat) : cluster_name i = cluster_name j -> i = j.
Proof.
  unfold cluster_name. intros H.
  cbn [String.append] in H. injection H as H.
  apply (f_equal (fun s => option_map Nat.of_uint (NilEmpty.uint_of_string s)))
    in H.
  rewrite !read_padded in H.
  - injection H as H. lia.
  - destruct (String.length (str_of_nat (j + 1))) as [|[|[|?]]]; simpl; tauto.
  - destruct (String.length (str_of_nat (i + 1))) as [|[|[|?]]]; simpl; tauto.
Qed.

(** X21.  [rank_clusters] returns the clusters it was given, each once,
    ordered by rank score, largest first; the rank score it records is the
    rounded product of the member count, the average similarity, the
    directory spread (at least 1) and the kind bonus; and the ids are
    [cluster-001], [cluster-002], ... in that order, so no two clusters
    share an id. *)
Theorem ranked_clusters_order_and_ids (clusters : list enriched) :
  let ranked := rank_clusters clusters in
  Permutation (map c_info ranked) clusters
  /\ StronglySorted (fun c1 c2 => rankScore c2 <= rankScore c1) ranked
  /\ Forall (fun c => rankScore c = rank_score (c_info c)) ranked
  /\ map c_id ranked = map cluster_name (seq 0 (List.length clusters))
  /\ NoDup (map c_id ranked).
Proof.
  cbv zeta. unfold rank_clusters.
  assert (map c_id
            (map (fun ic : nat * enriched =>
                    {| c_info := snd ic;
                       rankScore := rank_score (snd ic);
                       c_id := cluster_name (fst ic) |})
               (enumerate (sort_desc rank_score clusters)))
          = map cluster_name (seq 0 (List.length clusters))) as Hids.
  { rewrite map_map. cbn [c_id]. rewrite <- (map_map fst cluster_name).
    unfold enumerate. rewrite SymmetryFacts.enumerate_from_indices.
    now rewrite (Permutation_length (MatrixFacts.sort_desc_perm rank_score clusters)). }
  split; [|split; [|split; [|split]]].
  - rewrite map_map. cbn [c_info]. unfold enumerate.
    rewrite map_snd_enumerate_from. apply MatrixFacts.sort_desc_perm.
  - apply (enumerate_from_sorted rank_score rankScore).
    + reflexivity.
    + apply MatrixFacts.sort_desc_sorted.
  - apply Forall_forall. intros c Hc. apply in_map_iff in Hc.
    destruct Hc as [ic [<- _]]. reflexivity.
  - exact Hids.
  - rewrite Hids. apply Injective_map_NoDup; [|apply seq_NoDup].
    intros i j. apply cluster_name_inj.
Qed.

(** *** The enriched cluster *)

Lemma In_sorted (x : string) (l : list string) : In x (sorted l) <-> In x l.
Proof.
  split; apply Permutation_in;
    [apply sorted_perm|apply Permutation_sym, sorted_perm].
Qed.

(** X22.  The member list of a cluster holds exactly the ids of the
    community, each once, in ascending order, and [memberCount] is its
    length. *)
Theorem cluster_members_sorted_distinct (community : pyset)
    (scored_pairs : list scored_pair) (units_by_id : dict code_unit) :
  let c := enrich_cluster community scored_pairs units_by_id in
  (forall uid, In uid (members c) <-> In uid community)
  /\ NoDup (members c)
  /\ StronglySorted (fun a b => String.leb a b = true) (members c)
  /\ List.length (members c) = memberCount c.
Proof.
  cbv zeta. unfold enrich_cluster. cbn [members memberCount].
  split; [|split; [|split]].
  - intros uid. unfold elements. now rewrite In_sorted, nodup_In.
  - apply sorted_nodup, NoDup_nodup.
  - apply sorted_ascending.
  - apply length_sorted.
Qed.

(** Counting with repetitions. *)
Lemma count_each_occ (k : string) (xs : list string) (counts : dict nat) :
  get_or (Fingerprint.count_each counts xs) k 0%nat
  = (get_or counts k 0 + count_occ string_dec xs k)%nat.
Proof.
  unfold Fingerprint.count_each. revert counts.
  induction xs as [|x xs IH]; intros counts; cbn [fold_left count_occ].
  - lia.
  - rewrite IH. destruct (string_dec x k) as [->|Hne].
    + unfold get_or at 1. rewrite get_setitem_same. lia.
    + unfold get_or at 1. rewrite get_setitem_other by congruence.
      unfold get_or. lia.
Qed.

Lemma list_sum_setitem (d : dict nat) (k : string) :
  list_sum (values (setitem d k (get_or d k 0 + 1)%nat))
  = S (list_sum (values d)).
Proof.
  unfold get_or, values. induction d as [|[k' v] d IH]; cbn [setitem get].
  - reflexivity.
  - destruct (String.eqb k' k).
    + cbn [map snd list_sum fold_right]. lia.
    + cbn [map snd]. change (list_sum (?x :: ?l)) with (x + list_sum l)%nat.
      rewrite IH. lia.
Qed.

Lemma list_sum_count_each (xs : list string) (counts : dict nat) :
  list_sum (values (Fingerprint.count_each counts xs))
  = (list_sum (values counts) + List.length xs)%nat.
Proof.
  unfold Fingerprint.count_each. revert counts.
  induction xs as [|x xs IH]; intros counts; cbn [fold_left List.length].
  - lia.
  - rewrite IH, list_sum_setitem. lia.
Qed.

Lemma wf_count_each (xs : list string) (counts : dict nat) :
  wf_dict counts -> wf_dict (Fingerprint.count_each counts xs).
Proof.
  unfold Fingerprint.count_each. revert counts.
  induction xs as [|x xs IH]; intros counts H; cbn [fold_left]; [assumption|].
  apply IH. now apply wf_setitem.
Qed.

Lemma count_each_positive (xs : list string) (counts : dict nat) :
  Forall (fun v => (1 <= v)%nat) (values counts) ->
  Forall (fun v => (1 <= v)%nat) (values (Fingerprint.count_each counts xs)).
Proof.
  unfold Fingerprint.count_each. revert counts.
  induction xs as [|x xs IH]; intros counts H; cbn [fold_left]; [assumption|].
  apply IH. apply Forall_values_setitem; [assumption|lia].
Qed.

Lemma kind_mix_count_each (community : pyset) (units_by_id : dict code_unit) :
  kind_mix community units_by_id
  = Fingerprint.count_each []
      (map (fun uid =>
              match get units_by_id uid with
              | Some u => match u_kind u with Some k => k | None => "unknown" end
              | None => "unknown"
              end)
         (elements community)).
Proof.
  unfold kind_mix, Fingerprint.count_each.
  generalize (@nil (string * nat)) as acc.
  induction (elements community) as [|uid l IH]; intros acc; [reflexivity|].
  cbn [fold_left map]. apply IH.
Qed.

(** X23.  [kindMix] counts the members by kind: the entry of a kind is the
    number of members whose unit has that kind, a member without a unit or
    without a kind counting as [unknown]; a kind that no member has has no
    entry; and the counts add up to [memberCount]. *)
Theorem kind_mix_counts_members (community : pyset)
    (scored_pairs : list scored_pair) (units_by_id : dict code_unit) :
  let c := enrich_cluster community scored_pairs units_by_id in
  let kind_of uid :=
    match get units_by_id uid with
    | Some u => match u_kind u with Some k => k | None => "unknown" end
    | None => "unknown"
    end in
  (forall kind,
      get (kindMix c) kind
      = match count_occ string_dec (map kind_of (elements community)) kind with
        | O => None
        | n => Some n
        end)
  /\ wf_dict (kindMix c)
  /\ list_sum (values (kindMix c)) = memberCount c.
Proof.
  cbv zeta. unfold enrich_cluster. cbn [kindMix memberCount].
  rewrite kind_mix_count_each.
  set (kinds := map _ (elements community)).
  split; [|split].
  - intros kind.
    pose proof (count_each_occ kind kinds []) as Hocc.
    unfold get_or in Hocc at 2. cbn [get] in Hocc. rewrite Nat.add_0_l in Hocc.
    destruct (get (Fingerprint.count_each [] kinds) kind) as [n|] eqn:Hget.
    + unfold get_or in Hocc. rewrite Hget in Hocc. subst n.
      destruct (count_occ string_dec kinds kind) eqn:Hn; [|reflexivity].
      exfalso. apply get_In in Hget.
      pose proof (count_each_positive kinds [] (Forall_nil _)) as Hpos.
      rewrite Forall_forall in Hpos.
      specialize (Hpos 0%nat (in_map snd _ _ Hget)). lia.
    + unfold get_or in Hocc. rewrite Hget in Hocc. now rewrite <- Hocc.
  - apply wf_count_each. constructor.
  - rewrite list_sum_count_each. cbn [values map list_sum].
    unfold kinds. rewrite length_map. reflexivity.
Qed.

(** *** Shared callees *)

Lemma callee_counts_get (units_by_id : dict code_unit) (k : string)
    (uids : list string) (counts : dict nat) :
  let result :=
    fold_left
      (fun counts uid =>
         match get units_by_id uid with
         | Some u => Fingerprint.count_each counts (Callgraph.unit_targets u)
         | None => counts
         end)
      uids counts in
  let calls uid :=
    match get units_by_id uid with
    | Some u => mem k (Callgraph.unit_targets u)
    | None => false
    end in
  get_or result k 0%nat
  = (get_or counts k 0 + List.length (filter calls uids))%nat
  /\ (get result k = None
      <-> get counts k = None /\ List.length (filter calls uids) = 0%nat)
  /\ (wf_dict counts -> wf_dict result).
Proof.
  cbv zeta. revert counts.
  induction uids as [|uid uids IH]; intros counts.
  - simpl. split; [lia|tauto].
  - cbn [fold_left filter].
    destruct (get units_by_id uid) as [u|] eqn:Hu; [|apply IH].
    destruct (IH (Fingerprint.count_each counts (Callgraph.unit_targets u)))
      as (IH1 & IH2 & IH3).
    destruct (StageFacts.count_each_get k (Callgraph.unit_targets u) counts)
      as [C1 C2]; [apply SparseFacts.NoDup_unit_targets|].
    rewrite IH1, IH2, C1, C2.
    split; [|split].
    + destruct (mem k (Callgraph.unit_targets u)); cbn [List.length]; lia.
    + destruct (mem k (Callgraph.unit_targets u)); cbn [List.length].
      * split; [intros [[_ H] _]; discriminate|intros [_ H]; lia].
      * tauto.
    + intros Hwf. apply IH3. now apply wf_count_each.
Qed.

(** X24.  A callee is listed in [sharedCallees] exactly when more than half
    of the members call it: twice the number of members whose unit lists
    the name among its callee targets exceeds [memberCount].  The list is
    in ascending order and names no callee twice. *)
Theorem shared_callees_majority (community : pyset)
    (scored_pairs : list scored_pair) (units_by_id : dict code_unit) :
  let c := enrich_cluster community scored_pairs units_by_id in
  let calls name uid :=
    match get units_by_id uid with
    | Some u => mem name (Callgraph.unit_targets u)
    | None => false
    end in
  (forall name,
      In name (sharedCallees c)
      <-> (memberCount c
           < 2 * List.length (filter (calls name) (elements community)))%nat)
  /\ NoDup (sharedCallees c)
  /\ StronglySorted (fun a b => String.leb a b = true) (sharedCallees c).
Proof.
  cbv zeta. unfold enrich_cluster. cbn [sharedCallees memberCount].
  unfold shared_callees.
  match goal with
  | |- context [filter _ ?d] => set (callee_counts := d)
  end.
  assert (wf_dict callee_counts) as Hwf.
  { apply (callee_counts_get units_by_id "" (elements community) []).
    constructor. }
  split; [|split].
  - intros name.
    destruct (callee_counts_get units_by_id name (elements community) [])
      as (H1 & H2 & _).
    fold callee_counts in H1, H2. cbn [get_or get Nat.add] in H1.
    rewrite In_sorted. unfold keys. rewrite in_map_iff. split.
    + intros [[name' count] [Hname Hin]]. cbn [fst] in Hname. subst name'.
      apply filter_In in Hin. destruct Hin as [Hin Hcount].
      cbn [snd] in Hcount. apply Nat.ltb_lt in Hcount.
      apply (In_get _ _ _ Hwf) in Hin.
      unfold get_or in H1. rewrite Hin in H1. now rewrite <- H1.
    + intros Hcount.
      destruct (get callee_counts name) as [count|] eqn:Hget.
      * exists (name, count). split; [reflexivity|].
        apply filter_In. split; [now apply get_In|].
        cbn [snd]. apply Nat.ltb_lt.
        unfold get_or in H1. rewrite Hget in H1. now rewrite H1.
      * destruct H2 as [H2 _]. destruct (H2 eq_refl) as [_ Hz].
        rewrite Hz in Hcount. lia.
  - apply sorted_nodup.
    apply SymmetryFacts.filter_keeps_keys_distinct. exact Hwf.
  - apply sorted_ascending.
Qed.

(** *** The signal breakdown *)

Lemma add_signals_get (sigs : dict R) (totals : dict R) (name : string) :
  wf_dict sigs ->
  get (fold_left
         (fun totals (name_val : string * R) =>
            setitem totals (fst name_val)
              (get_or totals (fst name_val) 0 + snd name_val))
         sigs totals) name
  = match get sigs name with
    | Some v => Some (get_or totals name 0 + v)
    | None => get totals name
    end.
Proof.
  revert totals. induction sigs as [|[k v] sigs IH]; intros totals Hwf.
  - reflexivity.
  - inversion Hwf as [|? ? Hk Hwf']; subst.
    cbn [fold_left fst snd get]. rewrite (IH _ Hwf').
    destruct (String.eqb_spec k name) as [->|Hne].
    + apply get_None_keys in Hk. rewrite Hk. apply get_setitem_same.
    + unfold get_or. rewrite get_setitem_other by assumption. reflexivity.
Qed.

Lemma Rsum_absent (name : string) (pairs : list scored_pair) :
  existsb (fun p => contains (signals p) name) pairs = false ->
  Rsum (map (fun p => get_or (signals p) name 0) pairs) = 0.
Proof.
  induction pairs as [|p pairs IH]; cbn [existsb map]; [reflexivity|].
  intros H. apply orb_false_elim in H. destruct H as [Hp Hrest].
  rewrite Rsum_cons, (IH Hrest). unfold contains in Hp. unfold get_or.
  destruct (get (signals p) name); [discriminate|lra].
Qed.

Lemma signal_totals_get (name : string) (pairs : list scored_pair)
    (totals : dict R) :
  Forall (fun p => wf_dict (signals p)) pairs ->
  get (fold_left
         (fun totals pair =>
            fold_left
              (fun totals (name_val : string * R) =>
                 setitem totals (fst name_val)
                   (get_or totals (fst name_val) 0 + snd name_val))
              (signals pair) totals)
         pairs totals) name
  = if existsb (fun p => contains (signals p) name) pairs
    then Some (get_or totals name 0
               + Rsum (map (fun p => get_or (signals p) name 0) pairs))
    else get totals name.
Proof.
  intros Hwf. revert totals.
  induction Hwf as [|p pairs Hp Hrest IH]; intros totals.
  - reflexivity.
  - cbn [fold_left existsb map]. rewrite IH, Rsum_cons.
    change (get_or (signals p) name 0)
      with (match get (signals p) name with Some v => v | None => 0 end).
    unfold get_or at 1. rewrite !(add_signals_get _ _ _ Hp). unfold contains.
    destruct (get (signals p) name) as [v|] eqn:Hv; cbn [orb].
    + destruct (existsb _ pairs) eqn:Hex.
      * f_equal. lra.
      * rewrite (Rsum_absent _ _ Hex). f_equal. lra.
    + destruct (existsb _ pairs).
      * f_equal. unfold get_or. lra.
      * reflexivity.
Qed.

(** The entry of a signal in the model's exact arithmetic: the rounded
    quotient of the sum of its recorded values by the number of pairs
    inside the cluster. *)
Lemma signal_breakdown_get (community : pyset)
    (scored_pairs : list scored_pair) (name : string) :
  Forall (fun p => wf_dict (signals p)) scored_pairs ->
  let inside := intra_pairs community scored_pairs in
  get (_get_signal_breakdown community scored_pairs) name
  = if existsb (fun p => contains (signals p) name) inside
    then Some (round4 (Rsum (map (fun p => get_or (signals p) name 0) inside)
                       / INR (List.length inside)))
    else None.
Proof.
  intros Hwf. cbv zeta. unfold _get_signal_breakdown.
  assert (Forall (fun p => wf_dict (signals p))
            (intra_pairs community scored_pairs)) as Hin.
  { rewrite Forall_forall in Hwf |- *. intros p Hp. apply Hwf.
    unfold intra_pairs in Hp. apply filter_In in Hp. tauto. }
  destruct (intra_pairs community scored_pairs) as [|p inside] eqn:E.
  - reflexivity.
  - cbn [List.length Nat.eqb]. rewrite SparseFacts.get_map_values.
    rewrite (signal_totals_get name (p :: inside) [] Hin).
    destruct (existsb _ (p :: inside)); [|reflexivity].
    cbn [option_map get_or get]. do 3 f_equal. lra.
Qed.

Lemma get_or_unit_interval (d : dict R) (k : string) :
  Forall (fun v => 0 <= v <= 1) (values d) -> 0 <= get_or d k 0 <= 1.
Proof.
  intros Hall. unfold get_or. destruct (get d k) as [v|] eqn:Hget; [|lra].
  rewrite Forall_forall in Hall. apply Hall.
  apply get_In in Hget. now apply (in_map snd) in Hget.
Qed.



End ClusterFacts.

(** ** The neighbourhood of a unit, for any radius *)

Module ReachFacts.
Import Py PyFacts OrderFacts Depcontext NeighborhoodSpec.

Lemma within_mono (g : dict pyset) (uid : string) (n : nat) (x : string) :
  within g uid n x -> within g uid (S n) x.
Proof.
  induction 1 as [n|n nid neighbor _ IH Hin].
  - apply within_start.
  - now apply (within_hop g uid (S n) nid).
Qed.

Lemma within_add (g : dict pyset) (uid : string) (n m : nat) (x : string) :
  within g uid n x -> within g uid (n + m) x.
Proof.
  intros H. induction m as [|m IH].
  - now rewrite Nat.add_0_r.
  - rewrite Nat.add_succ_r. now apply within_mono.
Qed.

Lemma within_last_hop (g : dict pyset) (uid : string) (n : nat) (x : string) :
  within g uid (S n) x ->
  within g uid n x
  \/ exists nid, within g uid n nid /\ In x (get_or g nid []).
Proof.
  intros H. inversion H; subst.
  - left. apply within_start.
  - right. now exists nid.
Qed.

Lemma within_zero (g : dict pyset) (uid x : string) :
  within g uid 0 x <-> x = uid.
Proof.
  split.
  - intros H. now inversion H.
  - intros ->. apply within_start.
Qed.

(** The inner loop of [neighborhood_hash], over the neighbours of one
    unit of the frontier. *)
Lemma visit_neighbors (neighbors visited next_frontier : pyset) (x : string) :
  let result :=
    fold_left
      (fun acc neighbor =>
         let '(visited, next_frontier) := acc in
         if mem neighbor visited then acc
         else (neighbor :: visited, neighbor :: next_frontier))
      neighbors (visited, next_frontier) in
  (In x (fst result) <-> In x visited \/ In x neighbors)
  /\ (In x (snd result)
      <-> In x next_frontier \/ (In x neighbors /\ ~ In x visited)).
Proof.
  cbv zeta. revert visited next_frontier.
  induction neighbors as [|n neighbors IH]; intros visited next_frontier.
  - simpl. tauto.
  - cbn [fold_left]. destruct (mem n visited) eqn:Hm.
    + destruct (IH visited next_frontier) as [IH1 IH2]. rewrite IH1, IH2.
      apply mem_In in Hm. simpl. split; [intuition (subst; auto)|].
      split; [tauto|]. intros [H|[[<-|H] Hx]]; tauto.
    + destruct (IH (n :: visited) (n :: next_frontier)) as [IH1 IH2].
      rewrite IH1, IH2.
      assert (~ In n visited) as Hn.
      { intros H. apply mem_In in H. congruence. }
      simpl. split; [tauto|]. split.
      * intros [[<-|H]|[H Hx]]; [right; split; tauto|tauto|right; tauto].
      * intros [H|[[<-|H] Hx]]; [tauto|tauto|].
        destruct (string_dec n x) as [<-|Hne]; [tauto|right; tauto].
Qed.

(** One round of the search. *)
Lemma expand_spec (g : dict pyset) (frontier visited next_frontier : pyset)
    (x : string) :
  let result :=
    fold_left
      (fun acc nid =>
         fold_left
           (fun acc neighbor =>
              let '(visited, next_frontier) := acc in
              if mem neighbor visited then acc
              else (neighbor :: visited, neighbor :: next_frontier))
           (get_or g nid []) acc)
      frontier (visited, next_frontier) in
  (In x (fst result)
   <-> In x visited
       \/ exists nid, In nid frontier /\ In x (get_or g nid []))
  /\ (In x (snd result)
      <-> In x next_frontier
          \/ ((exists nid, In nid frontier /\ In x (get_or g nid []))
              /\ ~ In x visited)).
Proof.
  cbv zeta. revert visited next_frontier.
  induction frontier as [|nid frontier IH]; intros visited next_frontier.
  - simpl. split; split; try tauto; intros [H|H]; try assumption.
    + destruct H as (nid & [] & _).
    + destruct H as [(nid & [] & _) _].
  - cbn [fold_left].
    pose proof (visit_neighbors (get_or g nid []) visited next_frontier) as Hin.
    cbv zeta in Hin.
    match type of Hin with
    | context [fst ?r] => destruct r as [visited1 frontier1]
    end.
    cbn [fst snd] in Hin.
    destruct (IH visited1 frontier1) as [IH1 IH2]. rewrite IH1, IH2.
    destruct (Hin x) as [Hx1 Hx2]. rewrite Hx1, Hx2. split.
    + split.
      * intros [[H|H]|(nid' & Hnid & H)]; [tauto| |].
        -- right. exists nid. split; [now left|assumption].
        -- right. exists nid'. split; [now right|assumption].
      * intros [H|(nid' & [<-|Hnid] & H)]; [tauto|tauto|].
        right. now exists nid'.
    + split.
      * intros [[H|[H Hx]]|[(nid' & Hnid & H) Hx]]; [tauto| |].
        -- right. split; [|assumption]. exists nid. split; [now left|assumption].
        -- right. split; [|tauto]. exists nid'. split; [now right|assumption].
      * intros [H|[(nid' & [<-|Hnid] & H) Hx]]; [tauto|tauto|].
        destruct (in_dec string_dec x (get_or g nid [])) as [Hd|Hd];
          [tauto|].
        right. split; [now exists nid'|tauto].
Qed.

(** A set that holds [uid] and the consumers of each of its units holds
    every unit that is reached from [uid]. *)
Lemma within_closed (g : dict pyset) (uid : string) (visited : pyset) :
  In uid visited ->
  (forall x y, In x visited -> In y (get_or g x []) -> In y visited) ->
  forall n x, within g uid n x -> In x visited.
Proof.
  intros Huid Hclosed n x H.
  induction H as [n|n nid neighbor _ IH Hin]; [assumption|].
  now apply (Hclosed nid).
Qed.

(** The search, started on the units within [i] hops with the frontier it
    has to expand, ends on the units within [i + radius] hops. *)
Lemma search_within (g : dict pyset) (uid : string) (radius : nat) :
  forall (i : nat) (visited frontier : pyset),
    (forall x, In x visited <-> within g uid i x) ->
    incl frontier visited ->
    (forall x, In x visited ->
               In x frontier
               \/ forall y, In y (get_or g x []) -> In y visited) ->
    forall x,
      In x (search radius g visited frontier) <-> within g uid (i + radius) x.
Proof.
  induction radius as [|radius IH]; intros i visited frontier Hvis Hsub Hdone x.
  - cbn [search]. now rewrite Nat.add_0_r.
  - cbn [search].
    pose proof (expand_spec g frontier visited []) as Hexp. cbv zeta in Hexp.
    match type of Hexp with
    | context [fst ?r] => change r with (expand g visited frontier) in Hexp
    end.
    destruct (expand g visited frontier) as [visited1 frontier1].
    cbn [fst snd] in Hexp.
    assert (forall z, In z visited1 <-> within g uid (S i) z) as Hvis1.
    { intros z. destruct (Hexp z) as [Hz _]. rewrite Hz. split.
      - intros [H|(nid & Hnid & H)].
        + now apply within_mono, Hvis.
        + apply (within_hop g uid i nid); [|assumption].
          now apply Hvis, Hsub.
      - intros H. apply within_last_hop in H.
        destruct H as [H|(nid & Hnid & H)]; [left; now apply Hvis|].
        apply Hvis in Hnid. destruct (Hdone nid Hnid) as [Hf|Hall].
        + right. now exists nid.
        + left. now apply Hall. }
    assert (forall z, In z visited1 ->
                      In z frontier1
                      \/ forall y, In y (get_or g z []) -> In y visited1)
      as Hdone1.
    { intros z Hz. destruct (in_dec string_dec z visited) as [Hold|Hnew].
      - right. intros y Hy. destruct (Hexp y) as [Hy1 _]. apply Hy1.
        destruct (Hdone z Hold) as [Hf|Hall].
        + right. now exists z.
        + left. now apply Hall.
      - left. destruct (Hexp z) as [Hz1 Hz2]. apply Hz2. right.
        apply Hz1 in Hz. destruct Hz as [Hz|Hz]; tauto. }
    destruct frontier1 as [|f frontier1]; cbn [is_empty].
    + split.
      * intros Hx. apply Hvis1 in Hx.
        replace (i + S radius) with (S i + radius) by lia.
        now apply within_add.
      * apply within_closed.
        -- apply Hvis1, within_start.
        -- intros z y Hz Hy. destruct (Hdone1 z Hz) as [[]|Hall].
           now apply Hall.
    + replace (i + S radius) with (S i + radius) by lia.
      apply IH; try assumption.
      intros z Hz. destruct (Hexp z) as [Hz1 Hz2]. apply Hz1.
      apply Hz2 in Hz. destruct Hz as [[]|[Hz _]]. now right.
Qed.

Section Hashing.
Variable _sha256 : json -> string.

(** X26.  [neighborhood_hash] hashes the units reachable within [radius]
    hops of the consumer graph: the list it digests is in ascending order,
    names no unit twice, and holds exactly the units other than [unit_id]
    that are reached from it along at most [radius] consumer edges (for
    every radius, the two that the stage uses included). *)
Theorem neighborhood_hash_reachable_within_radius (unit_id : string)
    (consumer_graph : dict pyset) (radius : nat) :
  exists neighborhood : list string,
    neighborhood_hash _sha256 unit_id consumer_graph radius
    = _sha256 (JList (map JStr neighborhood))
    /\ StronglySorted (fun a b => String.leb a b = true) neighborhood
    /\ NoDup neighborhood
    /\ forall x,
         In x neighborhood
         <-> within consumer_graph unit_id radius x /\ x <> unit_id.
Proof.
  unfold neighborhood_hash. eexists. split; [reflexivity|].
  split; [apply sorted_ascending|]. split; [apply sorted_nodup, NoDup_nodup|].
  intros x.
  assert (In x (sorted (nodup string_dec
                          (diff (search radius consumer_graph [unit_id]
                                   [unit_id]) [unit_id])))
          <-> In x (search radius consumer_graph [unit_id] [unit_id])
              /\ x <> unit_id) as ->.
  { split.
    - intros H. apply (Permutation_in _ (sorted_perm _)) in H.
      apply nodup_In in H. unfold diff in H. apply filter_In in H.
      destruct H as [H Hne]. split; [assumption|].
      intros ->. cbn [mem existsb] in Hne. now rewrite String.eqb_refl in Hne.
    - intros [H Hne].
      apply (Permutation_in _ (Permutation_sym (sorted_perm _))).
      apply nodup_In. unfold diff. apply filter_In. split; [assumption|].
      cbn [mem existsb]. rewrite orb_false_r.
      destruct (String.eqb_spec x unit_id); [contradiction|reflexivity]. }
  rewrite (search_within consumer_graph unit_id radius 0 [unit_id] [unit_id]).
  - reflexivity.
  - intros z. rewrite within_zero. simpl. intuition.
  - apply incl_refl.
  - intros z Hz. now left.
Qed.

End Hashing.

End ReachFacts.

(** ** Frequency-weighted vectors *)

Module TfIdfFacts.
Import Py PyFacts Vectors Fingerprint FingerprintSpec.
Local Open Scope R_scope.

(** The loop of [import_constellation] and [callee_set_vector] adds the
    weight of a key once for each of its occurrences. *)
Lemma idf_weighted_loop (idf : dict R) (k : string) (ks : list string)
    (vec : SparseVector) :
  let result :=
    fold_left
      (fun vec k =>
         if truthy k && contains idf k
         then setitem vec k (get_or vec k 0 + get_or idf k 0)
         else vec)
      ks vec in
  let n := count_occ string_dec ks k in
  get_or result k 0
  = get_or vec k 0
    + (if truthy k && contains idf k then INR n * get_or idf k 0 else 0)
  /\ (get result k = None
      <-> get vec k = None
          /\ (truthy k && contains idf k = false \/ n = 0%nat)).
Proof.
  cbv zeta. revert vec.
  induction ks as [|x ks IH]; intros vec; cbn [fold_left count_occ].
  - split; [destruct (truthy k && contains idf k); simpl; lra|].
    split; [intros H; split; [assumption|now right]|tauto].
  - destruct (string_dec x k) as [->|Hne].
    + destruct (truthy k && contains idf k) eqn:Hk.
      * destruct (IH (setitem vec k (get_or vec k 0 + get_or idf k 0)))
          as [IH1 IH2].
        rewrite IH1, IH2. unfold get_or at 1. rewrite get_setitem_same.
        rewrite S_INR. split; [lra|].
        split; [intros [H _]; discriminate|].
        intros [_ [H|H]]; discriminate.
      * destruct (IH vec) as [IH1 IH2]. rewrite IH1, IH2.
        split; [reflexivity|tauto].
    + destruct (truthy x && contains idf x).
      * destruct (IH (setitem vec x (get_or vec x 0 + get_or idf x 0)))
          as [IH1 IH2].
        rewrite IH1, IH2. unfold get_or at 1.
        rewrite get_setitem_other by assumption. split; reflexivity.
      * apply IH.
Qed.

Lemma idf_weighted_get (idf : dict R) (ks : list string) (k : string) :
  get (idf_weighted idf ks) k
  = if truthy k && contains idf k && negb (Nat.eqb (count_occ string_dec ks k) 0)
    then Some (INR (count_occ string_dec ks k) * get_or idf k 0)
    else None.
Proof.
  destruct (idf_weighted_loop idf k ks []) as [H1 H2]. cbv zeta in H1, H2.
  fold (idf_weighted idf ks) in H1, H2.
  destruct (get (idf_weighted idf ks) k) as [v|] eqn:Hget.
  - unfold get_or in H1 at 1. rewrite Hget in H1.
    unfold get_or in H1 at 1. cbn [get] in H1.
    destruct (truthy k && contains idf k) eqn:Hk.
    + destruct (Nat.eqb_spec (count_occ string_dec ks k) 0) as [Hz|Hz].
      * assert (Some v = None) as Hv; [|discriminate].
        apply H2. split; [reflexivity|now right].
      * cbn [andb negb]. f_equal. lra.
    + assert (Some v = None) as Hv; [|discriminate].
      apply H2. split; [reflexivity|now left].
  - destruct H2 as [H2 _]. destruct (H2 eq_refl) as [_ [Hk|Hz]].
    + now rewrite Hk.
    + rewrite Hz. cbn [Nat.eqb negb]. now rewrite andb_false_r.
Qed.

Lemma document_frequency_pos (keys_of : code_unit -> list string)
    (units : list code_unit) (unit : code_unit) (k : string) :
  In unit units -> In k (keys_of unit) ->
  (1 <= document_frequency keys_of units k)%nat.
Proof.
  intros Hu Hk. unfold document_frequency.
  assert (In unit (filter (fun u => mem k (keys_of u)) units)) as Hin.
  { apply filter_In. split; [assumption|]. now apply mem_In. }
  destruct (filter _ units); [destruct Hin|simpl; lia].
Qed.

Lemma count_occ_truthy_sources (ks : list string) (k : string) :
  truthy k = true -> count_occ string_dec ks k <> 0%nat ->
  In k (nodup string_dec (filter truthy ks)).
Proof.
  intros Hk Hn. apply nodup_In, filter_In. split; [|assumption].
  apply (count_occ_In string_dec). lia.
Qed.


End TfIdfFacts.

(** ** Ingesting and reading artifacts *)

Module IngestFacts.
Import Py PyFacts IoUtils IoFacts IoRead Ingest.

Lemma append_cancel_l (p a b : string) : (p ++ a = p ++ b)%string -> a = b.
Proof.
  induction p as [|c p IH]; simpl; intros H; [assumption|].
  injection H as H. auto.
Qed.

(** Two artifact names never share a path. *)
Lemma path_join_inj (output_dir a b : string) :
  path_join output_dir a = path_join output_dir b -> a = b.
Proof.
  unfold path_join. intros H.
  apply append_cancel_l in H. now apply (append_cancel_l "/") in H.
Qed.

Lemma In_ensure_output_dir (output_dir : string) (fs : filesystem) :
  In output_dir (dirs (ensure_output_dir output_dir fs)).
Proof.
  unfold ensure_output_dir. destruct (mem output_dir (dirs fs)) eqn:Hm.
  - now apply mem_In.
  - now left.
Qed.

(** What a successful [copy2] leaves. *)
Lemma copy2_done (src dst : string) (fs : filesystem) :
  fst (copy2 src dst fs) = Done ->
  src <> dst
  /\ content (snd (copy2 src dst fs)) dst = content fs src
  /\ dirs (snd (copy2 src dst fs)) = dirs fs
  /\ forall p, p <> dst -> content (snd (copy2 src dst fs)) p = content fs p.
Proof.
  unfold copy2. destruct (String.eqb_spec src dst) as [->|Hne];
    [discriminate|].
  destruct (content fs src) as [text|] eqn:Hsrc; [|discriminate].
  intros _. cbn [snd]. unfold content. cbn [files dirs].
  split; [assumption|]. split; [apply get_setitem_same|].
  split; [reflexivity|]. intros p Hp. apply get_setitem_other. congruence.
Qed.

Lemma copy2_outcome (src dst text : string) (fs : filesystem) :
  content fs src = Some text ->
  (fst (copy2 src dst fs) = Done <-> src <> dst)
  /\ (forall message, fst (copy2 src dst fs) <> ValueError message)
  /\ fst (copy2 src dst fs) <> TypeError.
Proof.
  intros Hsrc. unfold copy2. rewrite Hsrc.
  destruct (String.eqb_spec src dst) as [->|Hne]; cbn [fst].
  - split; [split; [discriminate|congruence]|]. split; [|discriminate].
    intros message. discriminate.
  - split; [tauto|]. split; [|discriminate]. intros message. discriminate.
Qed.

Section Json.
Variable json_load : string -> value + string.
Variable str_of_float : float -> string.

(** *** Purpose statements *)

Local Abbreviation valid_purpose :=
  (fun entry : value =>
     exists fields uid purpose,
       entry = VObject fields
       /\ get fields "unitId" = Some (VStr uid)
       /\ get fields "purpose" = Some (VStr purpose)).

Lemma purpose_entry_valid (i : nat) (entry : value) :
  purpose_entry_errors i entry = [] <-> valid_purpose entry.
Proof.
  destruct entry as [| | | | |l|fields]; cbn [purpose_entry_errors];
    try (split; [discriminate|intros (? & ? & ? & H & _); discriminate]).
  unfold is_str_field.
  destruct (get fields "unitId") as [[| | | |uid| |]|] eqn:Hu;
    destruct (get fields "purpose") as [[| | | |purpose| |]|] eqn:Hp;
    cbn [app]; split; try discriminate;
    try (intros (? & ? & ? & [= <-] & H1 & H2); congruence).
  intros _. cbv beta. now exists fields, uid, purpose.
Qed.

Lemma purpose_errors_valid (data : list value) (i : nat) :
  flat_map (fun ie => purpose_entry_errors (fst ie) (snd ie))
    (enumerate_from i data) = []
  <-> Forall valid_purpose data.
Proof.
  revert i. induction data as [|entry data IH]; intros i;
    cbn [enumerate_from flat_map fst snd].
  - split; [constructor|reflexivity].
  - split.
    + intros H. apply app_eq_nil in H. destruct H as [He Hrest].
      constructor; [now apply (purpose_entry_valid i)|now apply (IH (S i))].
    + intros H. inversion H as [|? ? He Hrest]; subst.
      apply (purpose_entry_valid i) in He. apply (IH (S i)) in Hrest.
      now rewrite He, Hrest.
Qed.

(** The two ways [ingest_purposes] can go. *)
Lemma ingest_purposes_cases (file_path output_dir : string)
    (fs : filesystem) :
  (exists text data,
      content fs file_path = Some text
      /\ json_load text = inl (VList data)
      /\ Forall valid_purpose data
      /\ ingest_purposes json_load file_path output_dir fs
         = copy2 file_path (path_join output_dir "purpose-statements.json")
             (ensure_output_dir output_dir fs))
  \/ (~ (exists text data,
            content fs file_path = Some text
            /\ json_load text = inl (VList data)
            /\ Forall valid_purpose data)
      /\ exists message,
           ingest_purposes json_load file_path output_dir fs
           = (ValueError message, fs)).
Proof.
  unfold ingest_purposes, _read_json.
  destruct (content fs file_path) as [text|] eqn:Hc.
  2:{ right. split; [intros (? & ? & H & _); discriminate|eauto]. }
  destruct (json_load text) as [data|complaint] eqn:Hj.
  2:{ right. split; [|eauto].
      intros (? & ? & [= <-] & H & _). congruence. }
  destruct data as [| | | | |data|fields];
    try (right; split; [|eauto];
         intros (? & ? & [= <-] & H & _); congruence).
  destruct (flat_map _ (enumerate data)) as [|e errors] eqn:He;
    cbn [is_empty negb].
  - left. exists text, data. repeat split; try assumption.
    now apply (purpose_errors_valid data 0).
  - right. split; [|eauto].
    intros (? & data' & [= <-] & H & Hvalid).
    rewrite Hj in H. injection H as <-.
    apply (purpose_errors_valid data 0) in Hvalid.
    unfold enumerate in He. congruence.
Qed.


(** *** Findings *)

Local Abbreviation valid_finding :=
  (fun entry : value =>
     exists fields cid verdict,
       entry = VObject fields
       /\ get fields "clusterId" = Some (VStr cid)
       /\ get fields "verdict" = Some (VStr verdict)
       /\ In verdict _VALID_VERDICTS
       /\ contains fields "confidence" = true).

Local Abbreviation unhashable_verdict :=
  (fun entry : value =>
     exists fields verdict,
       entry = VObject fields
       /\ get fields "verdict" = Some verdict
       /\ hashable verdict = false).

Lemma finding_entry_raises (i : nat) (entry : value) :
  finding_entry_errors str_of_float i entry = None
  <-> unhashable_verdict entry.
Proof.
  destruct entry as [| | | | |l|fields]; cbn [finding_entry_errors];
    try (split; [discriminate|intros (? & ? & H & _); discriminate]).
  destruct (get fields "verdict") as [verdict|] eqn:Hv.
  - destruct (hashable verdict) eqn:Hh; cbn [negb].
    + split.
      * destruct (negb (is_valid_verdict verdict)); discriminate.
      * intros (? & ? & [= <-] & H1 & H2). congruence.
    + split; [intros _; cbv beta; now exists fields, verdict|reflexivity].
  - split; [discriminate|]. intros (? & ? & [= <-] & H1 & _). congruence.
Qed.

Lemma finding_entry_valid (i : nat) (entry : value) :
  finding_entry_errors str_of_float i entry = Some []
  <-> valid_finding entry.
Proof.
  destruct entry as [| | | | |l|fields]; cbn [finding_entry_errors];
    try (split; [discriminate|intros (? & ? & ? & H & _); discriminate]).
  unfold is_str_field.
  destruct (get fields "verdict") as [verdict|] eqn:Hv.
  - destruct (hashable verdict) eqn:Hh; cbn [negb].
    + destruct (is_valid_verdict verdict) eqn:Hvalid; cbn [negb].
      * destruct verdict as [| | | |s| |]; try discriminate.
        cbn [is_valid_verdict] in Hvalid. apply mem_In in Hvalid.
        destruct (get fields "clusterId") as [[| | | |cid| |]|] eqn:Hc;
          destruct (contains fields "confidence") eqn:Hconf; cbn [app];
          split; try discriminate;
          try (intros (? & ? & ? & [= <-] & H1 & H2 & H3 & H4); congruence).
        intros _. cbv beta. exists fields, cid, s. repeat split; assumption.
      * split.
        -- intros H. apply (f_equal (option_map (@List.length string))) in H.
           cbn [option_map] in H. rewrite !length_app in H.
           cbn [List.length] in H. injection H as H. lia.
        -- intros (? & ? & s & [= <-] & H1 & H2 & H3 & H4).
           rewrite Hv in H2. injection H2 as ->.
           cbn [is_valid_verdict] in Hvalid. apply mem_In in H3. congruence.
    + split; [discriminate|].
      intros (? & ? & s & [= <-] & H1 & H2 & _).
      rewrite Hv in H2. injection H2 as ->. discriminate.
  - split.
    + intros H. apply (f_equal (option_map (@List.length string))) in H.
      cbn [option_map] in H. rewrite !length_app in H.
      cbn [List.length] in H. injection H as H. lia.
    + intros (? & ? & ? & [= <-] & H1 & H2 & _). congruence.
Qed.

Lemma finding_errors_spec (data : list value) :
  forall (i : nat) (errors : list string),
    (finding_errors str_of_float (enumerate_from i data) errors = None
     <-> Exists unhashable_verdict data)
    /\ (finding_errors str_of_float (enumerate_from i data) errors = Some []
        <-> errors = [] /\ Forall valid_finding data).
Proof.
  induction data as [|entry data IH]; intros i errors;
    cbn [enumerate_from finding_errors].
  - split.
    + split; [discriminate|]. intros H. inversion H.
    + split; [intros [= ->]; split; [reflexivity|constructor]|].
      now intros [-> _].
  - destruct (finding_entry_errors str_of_float i entry) as [more|] eqn:He.
    + destruct (IH (S i) (errors ++ more)%list) as [IH1 IH2].
      rewrite IH1, IH2. split.
      * split; [intros H; now apply Exists_cons_tl|].
        intros H. inversion H as [? ? Hhd|? ? Htl]; subst; [|assumption].
        apply (finding_entry_raises i) in Hhd. congruence.
      * split.
        -- intros [Happ Hrest]. apply app_eq_nil in Happ.
           destruct Happ as [-> ->]. split; [reflexivity|].
           constructor; [now apply (finding_entry_valid i)|assumption].
        -- intros [-> H]. inversion H as [|? ? Hhd Htl]; subst.
           apply (finding_entry_valid i) in Hhd.
           rewrite He in Hhd. injection Hhd as ->. now split.
    + apply (finding_entry_raises i) in He. split.
      * split; [intros _; now apply Exists_cons_hd|reflexivity].
      * split; [discriminate|]. intros [_ H].
        inversion H as [|? ? Hhd Htl]; subst.
        destruct He as (f1 & v1 & -> & Hv1 & Hh1).
        destruct Hhd as (f2 & c2 & v2 & [= <-] & _ & Hv2 & _).
        rewrite Hv1 in Hv2. injection Hv2 as ->. discriminate.
Qed.

(** The three ways [ingest_findings] can go. *)
Lemma ingest_findings_cases (file_path output_dir : string)
    (fs : filesystem) :
  let out := ingest_findings json_load str_of_float file_path output_dir fs in
  (exists text data,
      content fs file_path = Some text
      /\ json_load text = inl (VList data)
      /\ Forall valid_finding data
      /\ out = copy2 file_path (path_join output_dir "findings.json")
                 (ensure_output_dir output_dir fs))
  \/ (exists text data,
         content fs file_path = Some text
         /\ json_load text = inl (VList data)
         /\ Exists unhashable_verdict data
         /\ out = (TypeError, fs))
  \/ (~ (exists text data,
            content fs file_path = Some text
            /\ json_load text = inl (VList data)
            /\ (Forall valid_finding data \/ Exists unhashable_verdict data))
      /\ exists message, out = (ValueError message, fs)).
Proof.
  cbv zeta. unfold ingest_findings, _read_json.
  destruct (content fs file_path) as [text|] eqn:Hc.
  2:{ right. right. split; [intros (? & ? & H & _); discriminate|eauto]. }
  destruct (json_load text) as [data|complaint] eqn:Hj.
  2:{ right. right. split; [|eauto].
      intros (? & ? & [= <-] & H & _). congruence. }
  destruct data as [| | | | |data|fields];
    try (right; right; split; [|eauto];
         intros (? & ? & [= <-] & H & _); congruence).
  destruct (finding_errors_spec data 0 []) as [Hraise Hvalid].
  fold (enumerate data) in Hraise, Hvalid.
  destruct (finding_errors str_of_float (enumerate data) [])
    as [[|e errors]|] eqn:He; cbn [is_empty negb].
  - left. exists text, data. repeat split; try assumption.
    now apply Hvalid.
  - right. right. split; [|eauto].
    intros (? & data' & [= <-] & H & [Hok|Hbad]);
      rewrite Hj in H; injection H as <-.
    + assert (Some (e :: errors) = Some []) as Habs; [|discriminate].
      apply Hvalid. now split.
    + apply Hraise in Hbad. discriminate.
  - right. left. exists text, data. repeat split; try assumption.
    now apply Hraise.
Qed.


(** *** Reading back *)

Lemma write_chunks_others (path : string) (chunks : list string)
    (fs : filesystem) (p : string) :
  p <> path ->
  content (last (write_chunks path chunks fs) fs) p = content fs p.
Proof.
  intros Hp. revert fs. induction chunks as [|chunk rest IH]; intros fs.
  - reflexivity.
  - cbn [write_chunks]. rewrite last_cons, IH.
    now apply content_write_chunk_other.
Qed.

Lemma content_write_artifact (name : string) (chunks : list string)
    (output_dir : string) (fs : filesystem) :
  content (write_artifact name chunks output_dir fs)
    (path_join output_dir name) = Some (joined chunks)
  /\ forall p, p <> path_join output_dir name ->
               content (write_artifact name chunks output_dir fs) p
               = content fs p.
Proof.
  unfold write_artifact, write_artifact_states. rewrite !last_cons. split.
  - now rewrite (write_chunks_last _ chunks _ "" (content_open_w_same _ _)).
  - intros p Hp. rewrite write_chunks_others by assumption.
    rewrite content_open_w_other by assumption.
    apply content_ensure_output_dir.
Qed.

(** X30.  What [write_artifact] has written is what [read_artifact]
    loads: reading an artifact after writing it parses exactly the text
    that was written, whatever the file held before, and reading any other
    artifact of the directory gives what it gave before the write.  The
    same holds for an ingested file: after [ingest_purposes] has succeeded,
    [read_artifact] loads the array that was validated. *)
Theorem read_artifact_after_write (name other : string)
    (chunks : list string) (file_path output_dir : string)
    (fs : filesystem) :
  let written := write_artifact name chunks output_dir fs in
  let ingested := ingest_purposes json_load file_path output_dir fs in
  read_artifact json_load name output_dir written
  = match json_load (joined chunks) with
    | inl data => Loaded data
    | inr complaint => JSONDecodeError complaint
    end
  /\ (other <> name ->
      read_artifact json_load other output_dir written
      = read_artifact json_load other output_dir fs)
  /\ (fst ingested = Done ->
      exists data,
        read_artifact json_load "purpose-statements.json" output_dir
          (snd ingested) = Loaded (VList data)
        /\ Forall valid_purpose data).
Proof.
  cbv zeta.
  destruct (content_write_artifact name chunks output_dir fs) as [Hw Ho].
  split; [|split].
  - unfold read_artifact. now rewrite Hw.
  - intros Hne. unfold read_artifact. rewrite Ho; [reflexivity|].
    intros H. apply path_join_inj in H. contradiction.
  - destruct (ingest_purposes_cases file_path output_dir fs)
      as [(text & data & Hc & Hj & Hvalid & ->)|[_ (message & ->)]];
      [|discriminate].
    intros H. apply copy2_done in H. destruct H as (_ & Hd & _).
    exists data. split; [|assumption].
    unfold read_artifact.
    rewrite Hd, content_ensure_output_dir, Hc, Hj. reflexivity.
Qed.

End Json.

End IngestFacts.

(** ** What the sparse vectors store *)

Module SparseEntryFacts.
Import Py PyFacts NumFacts Vectors Fingerprint FingerprintSpec.
Import CooccurrenceSpec.
Local Open Scope R_scope.

Lemma get_app {V} (d1 d2 : dict V) (k : string) :
  get (d1 ++ d2) k
  = match get d1 k with Some v => Some v | None => get d2 k end.
Proof.
  induction d1 as [|[k1 v1] d1 IH]; simpl; [reflexivity|].
  destruct (String.eqb k1 k); [reflexivity|assumption].
Qed.

(** Assigning the pairs of a list one after the other: the last
    assignment to a key is the one that stays. *)
Lemma assign_all_get (l : list (string * R)) (vec : SparseVector)
    (k : string) :
  get (fold_left (fun vec kw => setitem vec (fst kw) (snd kw)) l vec) k
  = match get (rev l) k with Some v => Some v | None => get vec k end.
Proof.
  revert vec. induction l as [|[k0 v0] l IH]; intros vec; [reflexivity|].
  cbn [fold_left fst snd rev]. rewrite IH, get_app.
  destruct (get (rev l) k); [reflexivity|]. cbn [get].
  destruct (String.eqb_spec k0 k) as [->|Hne].
  - apply get_setitem_same.
  - now apply get_setitem_other.
Qed.

(** A loop whose every step assigns some pairs assigns all of them in
    order. *)
Lemma assign_in_steps {A} (step : SparseVector -> A -> SparseVector)
    (pairs : A -> list (string * R)) :
  (forall vec x,
      step vec x
      = fold_left (fun vec kw => setitem vec (fst kw) (snd kw)) (pairs x) vec) ->
  forall l vec,
    fold_left step l vec
    = fold_left (fun vec kw => setitem vec (fst kw) (snd kw))
        (flat_map pairs l) vec.
Proof.
  intros Hstep. induction l as [|x l IH]; intros vec; [reflexivity|].
  cbn [fold_left flat_map]. now rewrite fold_left_app, IH, Hstep.
Qed.

(** The loops of [cooccurrence_vector] assign the given weights in
    order. *)
Lemma cooccurrence_vector_assigns (unit : code_unit) :
  Depcontext.cooccurrence_vector unit
  = fold_left (fun vec kw => setitem vec (fst kw) (snd kw))
      (given_weights unit) [].
Proof.
  unfold Depcontext.cooccurrence_vector, given_weights.
  destruct (u_coOccurrences unit) as [entries|by_unit|].
  - apply assign_in_steps. intros vec entry.
    destruct entry as [[uid|] [uid'|] ratio count|]; try reflexivity;
      match goal with
      | |- context [truthy ?u] => destruct (truthy u); reflexivity
      end.
  - apply assign_in_steps. intros vec [uid val]. destruct val; reflexivity.
  - reflexivity.
Qed.

(** A key that every unit has occurs in as many documents as there are
    units. *)
Lemma document_frequency_all (keys_of : code_unit -> list string)
    (units : list code_unit) (k : string) :
  (forall u, In u units -> In k (keys_of u)) ->
  document_frequency keys_of units k = List.length units.
Proof.
  unfold document_frequency. induction units as [|u units IH]; intros Hall;
    [reflexivity|].
  cbn [filter]. assert (mem k (keys_of u) = true) as ->.
  { apply mem_In, Hall. now left. }
  cbn [List.length]. f_equal. apply IH. intros u' Hu'. apply Hall. now right.
Qed.

(** The entry of a key in a vector weighted with the inverse document
    frequencies of the corpus the unit belongs to. *)
Lemma corpus_weighted_entry (items keys_of : code_unit -> list string)
    (units : list code_unit) (unit : code_unit) (k : string) :
  (forall u, NoDup (keys_of u)) ->
  (forall u, In k (keys_of u) <-> truthy k = true /\ In k (items u)) ->
  let tf := count_occ string_dec (items unit) k in
  let df := document_frequency keys_of units k in
  In unit units -> truthy k = true -> tf <> 0%nat ->
  get (idf_weighted
         (idf_of_counts (List.length units)
            (fold_left (fun counts u => count_each counts (keys_of u))
               units []))
         (items unit)) k
  = Some (INR tf * ln (INR (List.length units) / INR df)).
Proof.
  intros Hnd Hkeys tf df Hin Hk Htf.
  assert (In k (keys_of unit)) as Hlisted.
  { apply Hkeys. split; [assumption|].
    apply (count_occ_In string_dec). fold tf. lia. }
  pose proof (TfIdfFacts.document_frequency_pos keys_of units unit k Hin
                Hlisted) as Hdf.
  fold df in Hdf.
  pose proof (StageFacts.idf_of_doc_counts keys_of units k Hnd) as Hidf.
  cbv zeta in Hidf. fold df in Hidf.
  rewrite TfIdfFacts.idf_weighted_get. fold tf.
  unfold contains, get_or. rewrite Hidf.
  destruct (Nat.eqb_spec df 0); [lia|]. rewrite Hk.
  destruct (Nat.eqb_spec tf 0); [contradiction|reflexivity].
Qed.

Lemma In_unit_sources (u : code_unit) (k : string) :
  In k (unit_sources u)
  <-> truthy k = true /\ In k (map import_source (u_imports u)).
Proof. unfold unit_sources. rewrite nodup_In, filter_In. tauto. Qed.

Lemma ln_self_ratio (n : nat) : (n <> 0)%nat -> ln (INR n / INR n) = 0.
Proof.
  intros Hn. replace (INR n / INR n) with 1; [apply ln_1|].
  field. now apply not_0_INR.
Qed.


End SparseEntryFacts.
